(** * Pencil sets and one-dimensional transport of the AMR translation solver

    Part I embeds [struct setOfPencils] of [vlasovsolver/cpu_trans_map_amr.hpp]
    (constructor, [addPencil], [getIds], [split]) and proves its bookkeeping
    properties.  Part II models the remap and the accumulation of remote
    contributions, which the header only declares. *)

From Stdlib Require Import ZArith QArith Qround Qabs Lia Lqa Floats.
From stdpp Require Import base list.

Close Scope Q_scope.
Local Open Scope Z_scope.

(** ** Machine integers

    [uint] and [CellID] are unsigned integer types declared in headers that
    are not among the sources.  Their values are carried as [Z] and every
    arithmetic result is reduced explicitly; the number of values of each
    type is a parameter, with [CellID] at least as wide as [uint].  The
    program is built with a 32-bit [uint] and a 64-bit [CellID]. *)

Class UnsignedRanges : Type := {
  uintRange : Z;
  cellRange : Z;
  uintRange_pos : 0 < uintRange;
  uintRange_le_cellRange : uintRange <= cellRange
}.

Definition wrapUint `{UnsignedRanges} (z : Z) : Z := z mod uintRange.
Definition wrapCell `{UnsignedRanges} (z : Z) : Z := z mod cellRange.
Definition CellID : Type := Z.

Lemma range32_pos : 0 < 2 ^ 32.
Proof. reflexivity. Qed.

Lemma range32_le_range64 : 2 ^ 32 <= 2 ^ 64.
Proof. discriminate. Qed.

Definition lp64 : UnsignedRanges :=
  {| uintRange := 2 ^ 32; cellRange := 2 ^ 64;
     uintRange_pos := range32_pos;
     uintRange_le_cellRange := range32_le_range64 |}.

(** ** Outcomes of vector accesses

    [std::vector::at] throws [std::out_of_range]; [operator[]] outside the
    vector is undefined behaviour.  The two are kept apart. *)

Inductive outcome (A : Type) : Type :=
| Ok (a : A)
| OutOfRange
| Undefined.
Arguments Ok {A} a.
Arguments OutOfRange {A}.
Arguments Undefined {A}.

#[global] Instance outcome_bind : MBind outcome := fun A B f m =>
  match m with
  | Ok a => f a
  | OutOfRange => OutOfRange
  | Undefined => Undefined
  end.

(** [v[i]] *)
Definition subscript {A : Type} (v : list A) (i : Z) : outcome A :=
  match v !! Z.to_nat i with
  | Some a => Ok a
  | None => Undefined
  end.

(** [v.at(i)] *)
Definition at_ {A : Type} (v : list A) (i : Z) : outcome A :=
  match v !! Z.to_nat i with
  | Some a => Ok a
  | None => OutOfRange
  end.

Definition sumZ (l : list Z) : Z := foldr Z.add 0 l.

(** ** Arithmetic on [Realv]

    The positions are floating-point numbers.  The structure only adds,
    subtracts and multiplies them and uses the literal [0.25], so the
    embedding is parametric in those four items; it is instantiated below
    with exact rationals and with binary64 floats.  [Real] and [Realv] are
    taken to be the same type, so passing a position to [addPencil] and
    pushing it on [x] or [y] converts nothing. *)

Class RealvOps (R : Type) : Type := {
  Rv_add : R -> R -> R;
  Rv_sub : R -> R -> R;
  Rv_mul : R -> R -> R;
  Rv_quarter : R
}.

#[global] Instance RealvOps_Q : RealvOps Q := {
  Rv_add a b := Qred (a + b)%Q;
  Rv_sub a b := Qred (a - b)%Q;
  Rv_mul a b := Qred (a * b)%Q;
  Rv_quarter := (1 # 4)%Q
}.

#[global] Instance RealvOps_float : RealvOps float := {
  Rv_add := PrimFloat.add;
  Rv_sub := PrimFloat.sub;
  Rv_mul := PrimFloat.mul;
  Rv_quarter := 0.25%float
}.

(** ** The structure *)

Module setOfPencils.

Record t (R : Type) : Type := Build {
  N : Z;
  sumOfLengths : Z;
  lengthOfPencils : list Z;
  ids : list CellID;
  x : list R;
  y : list R;
  periodic : list bool;
  path : list (list Z)
}.
Arguments Build {R}.
Arguments N {R}.
Arguments sumOfLengths {R}.
Arguments lengthOfPencils {R}.
Arguments ids {R}.
Arguments x {R}.
Arguments y {R}.
Arguments periodic {R}.
Arguments path {R}.

Section Operations.
Context `{U : UnsignedRanges} {R : Type} `{Ops : RealvOps R}.

(** [setOfPencils()] *)
Definition empty : t R := Build 0 0 [] [] [] [] [] [].

(** [addPencil]: both counters are [uint], and [idsIn.size()] is narrowed to
    [uint] when it is pushed on [lengthOfPencils]. *)
Definition addPencil (idsIn : list CellID) (xIn yIn : R) (periodicIn : bool)
    (pathIn : list Z) (s : t R) : t R :=
  Build (wrapUint (N s + 1))
        (wrapUint (sumOfLengths s + Z.of_nat (length idsIn)))
        (lengthOfPencils s ++ [wrapUint (Z.of_nat (length idsIn))])
        (ids s ++ idsIn)
        (x s ++ [xIn])
        (y s ++ [yIn])
        (periodic s ++ [periodicIn])
        (path s ++ [pathIn]).

(** First loop of [getIds]: [for (uint i = 0; i < pencilId; i++) ibeg +=
    lengthOfPencils[i]], with [count] iterations left; [ibeg] is a [CellID]. *)
Fixpoint sumLoop (lens : list Z) (count : nat) (i ibeg : Z) : outcome Z :=
  match count with
  | O => Ok ibeg
  | S count' =>
      len ← subscript lens i;
      sumLoop lens count' (i + 1) (wrapCell (ibeg + len))
  end.

(** Second loop of [getIds]: [idsOut.push_back(ids[i])], [count] iterations
    left. *)
Fixpoint copyLoop (cells : list CellID) (count : nat) (i : Z)
    (idsOut : list CellID) : outcome (list CellID) :=
  match count with
  | O => Ok idsOut
  | S count' =>
      c ← subscript cells i;
      copyLoop cells count' (i + 1) (idsOut ++ [c])
  end.

(** [getIds].  The guard is [pencilId > N].  The copy loop runs a [uint]
    index [i] from [ibeg] (narrowed) while [i < iend], with [iend] a 64-bit
    value: when [iend] does not fit [uint] every [uint] is below it and the
    loop cannot exit (it goes on until a read leaves [ids] or memory runs
    out), which is recorded as [Undefined]; otherwise it makes [iend - i]
    iterations without wrapping. *)
Definition getIds (pencilId : Z) (s : t R) : outcome (list CellID) :=
  if N s <? pencilId then Ok []
  else
    ibeg ← sumLoop (lengthOfPencils s) (Z.to_nat pencilId) 0 0;
    len ← subscript (lengthOfPencils s) pencilId;
    let iend := wrapCell (ibeg + len) in
    let i0 := wrapUint ibeg in
    if iend <=? i0 then Ok []
    else if uintRange <=? iend then Undefined
    else copyLoop (ids s) (Z.to_nat (iend - i0)) i0 [].

Definition set_x (v : list R) (s : t R) : t R :=
  Build (N s) (sumOfLengths s) (lengthOfPencils s) (ids s) v (y s)
        (periodic s) (path s).
Definition set_y (v : list R) (s : t R) : t R :=
  Build (N s) (sumOfLengths s) (lengthOfPencils s) (ids s) (x s) v
        (periodic s) (path s).
Definition set_path (v : list (list Z)) (s : t R) : t R :=
  Build (N s) (sumOfLengths s) (lengthOfPencils s) (ids s) (x s) (y s)
        (periodic s) v.

(** One of the three [addPencil] calls of [split]: the arguments
    [x[pencilId] ± 0.25 * dx], [y[pencilId] ± 0.25 * dy] and
    [periodic[pencilId]] are read from the structure as it is at the call. *)
Definition addQuadrant (pencilId : Z) (cells : list CellID)
    (opx opy : R -> R -> R) (dx dy : R) (pathIn : list Z) (s : t R)
    : outcome (t R) :=
  xp ← subscript (x s) pencilId;
  yp ← subscript (y s) pencilId;
  per ← subscript (periodic s) pencilId;
  Ok (addPencil cells (opx xp (Rv_mul Rv_quarter dx))
                (opy yp (Rv_mul Rv_quarter dy)) per pathIn s).

(** [split], statement by statement. *)
Definition split (pencilId : Z) (dx dy : R) (s : t R) : outcome (t R) :=
  cells ← getIds pencilId s;
  path1 ← at_ (path s) pencilId;
  path2 ← at_ (path s) pencilId;
  path3 ← at_ (path s) pencilId;
  let path1 := path1 ++ [1] in
  let path2 := path2 ++ [2] in
  let path3 := path3 ++ [3] in
  x0 ← subscript (x s) pencilId;
  let s := set_x (<[Z.to_nat pencilId := Rv_sub x0 (Rv_mul Rv_quarter dx)]> (x s)) s in
  y0 ← subscript (y s) pencilId;
  let s := set_y (<[Z.to_nat pencilId := Rv_add y0 (Rv_mul Rv_quarter dy)]> (y s)) s in
  path0 ← at_ (path s) pencilId;
  let s := set_path (<[Z.to_nat pencilId := path0 ++ [0]]> (path s)) s in
  s ← addQuadrant pencilId cells Rv_add Rv_add dx dy path1 s;
  s ← addQuadrant pencilId cells Rv_sub Rv_sub dx dy path2 s;
  addQuadrant pencilId cells Rv_add Rv_sub dx dy path3 s.

(** *** Views used in the statements *)

(** The cells of pencil [k]: the slice of [ids] that starts at the sum of the
    preceding lengths. *)
Definition pencilIds (s : t R) (k : nat) : list CellID :=
  take (Z.to_nat (default 0 (lengthOfPencils s !! k)))
       (drop (Z.to_nat (sumZ (take k (lengthOfPencils s)))) (ids s)).

(** The invariant as a reader of the structure states it: the counters agree
    with the vectors. *)
Record consistent (s : t R) : Prop := {
  cons_N_lengths : N s = Z.of_nat (length (lengthOfPencils s));
  cons_N_x : N s = Z.of_nat (length (x s));
  cons_N_y : N s = Z.of_nat (length (y s));
  cons_N_periodic : N s = Z.of_nat (length (periodic s));
  cons_N_path : N s = Z.of_nat (length (path s));
  cons_sum_lengths : sumOfLengths s = sumZ (lengthOfPencils s);
  cons_sum_ids : sumOfLengths s = Z.of_nat (length (ids s))
}.

(** Representation invariant: [consistent], and the [uint] members hold
    [uint] values. *)
Record wf (s : t R) : Prop := {
  wf_consistent : consistent s;
  wf_N_uint : 0 <= N s < uintRange;
  wf_sum_uint : 0 <= sumOfLengths s < uintRange;
  wf_lengths_uint : Forall (fun len => 0 <= len < uintRange) (lengthOfPencils s)
}.

(** What the operations maintain whatever the sizes: the per-pencil vectors
    have one entry per pencil, and the counters are the sizes reduced modulo
    the range of [uint]. *)
Record consistent_mod (s : t R) : Prop := {
  cm_x : length (x s) = length (lengthOfPencils s);
  cm_y : length (y s) = length (lengthOfPencils s);
  cm_periodic : length (periodic s) = length (lengthOfPencils s);
  cm_path : length (path s) = length (lengthOfPencils s);
  cm_N : N s = wrapUint (Z.of_nat (length (lengthOfPencils s)));
  cm_sum_lengths : sumOfLengths s = wrapUint (sumZ (lengthOfPencils s));
  cm_sum_ids : sumOfLengths s = wrapUint (Z.of_nat (length (ids s)));
  cm_lengths_uint : Forall (fun len => 0 <= len < uintRange) (lengthOfPencils s);
  cm_lengths_le : sumZ (lengthOfPencils s) <= Z.of_nat (length (ids s))
}.

(** States the program can build. *)
Inductive reachable : t R -> Prop :=
| reach_empty : reachable empty
| reach_addPencil idsIn xIn yIn periodicIn pathIn s :
    reachable s -> reachable (addPencil idsIn xIn yIn periodicIn pathIn s)
| reach_split pencilId dx dy s s' :
    reachable s -> split pencilId dx dy s = Ok s' -> reachable s'.

End Operations.
End setOfPencils.

(** A first run: one pencil of two cells at the origin, split with
    [dx = dy = 4]. *)
Example split_runs :
  setOfPencils.split (U := lp64) 0 (4 # 1)%Q (4 # 1)%Q
    (setOfPencils.addPencil (U := lp64) [7; 8] 0%Q 0%Q false []
       setOfPencils.empty)
  = Ok (setOfPencils.Build 4 8 [2; 2; 2; 2] [7; 8; 7; 8; 7; 8; 7; 8]
          [(-1)%Q; 0%Q; (-2)%Q; 0%Q] [1%Q; 2%Q; 0%Q; 0%Q]
          [false; false; false; false] [[0]; [1]; [2]; [3]]).
Proof. vm_compute. reflexivity. Qed.

(** ** Part I: properties of [setOfPencils] *)

Module setOfPencilsFacts.
Import setOfPencils.

Section Facts.
Context `{U : UnsignedRanges} {R : Type} `{Ops : RealvOps R}.

Ltac ranges := pose proof uintRange_pos; pose proof uintRange_le_cellRange.

Definition isUint (z : Z) : Prop := 0 <= z < uintRange.

Lemma sumZ_app (l1 l2 : list Z) : sumZ (l1 ++ l2) = sumZ l1 + sumZ l2.
Proof. induction l1 as [|a l1 IH]; simpl; [reflexivity | rewrite IH; lia]. Qed.

Lemma sumZ_nonneg (l : list Z) : Forall isUint l -> 0 <= sumZ l.
Proof.
  induction 1 as [|a l Ha _ IH]; simpl; [lia | unfold isUint in Ha; lia].
Qed.

Lemma sumZ_take_le (l : list Z) (k : nat) :
  Forall isUint l -> 0 <= sumZ (take k l) <= sumZ l.
Proof.
  intros Hl. rewrite <- (take_drop k l) at 3. rewrite sumZ_app.
  assert (0 <= sumZ (take k l)) by (apply sumZ_nonneg, Forall_take, Hl).
  assert (0 <= sumZ (drop k l)) by (apply sumZ_nonneg, Forall_drop, Hl). lia.
Qed.

Lemma sumZ_take_S (l : list Z) (k : nat) (a : Z) :
  l !! k = Some a -> sumZ (take (S k) l) = sumZ (take k l) + a.
Proof.
  intros Hk. rewrite (take_S_r l k a Hk), sumZ_app. simpl. lia.
Qed.

(** A pencil's slice lies inside [ids] when the lengths add up to its size. *)
Lemma slice_bound (l : list Z) (k : nat) (a : Z) :
  Forall isUint l -> l !! k = Some a ->
  0 <= sumZ (take k l) /\ 0 <= a /\ sumZ (take k l) + a <= sumZ l.
Proof.
  intros Hl Hk.
  pose proof (sumZ_take_le l k Hl). pose proof (sumZ_take_le l (S k) Hl) as HS.
  rewrite (sumZ_take_S l k a Hk) in HS.
  rewrite Forall_lookup in Hl. specialize (Hl k a Hk). unfold isUint in Hl. lia.
Qed.

Lemma wrapUint_small (z : Z) : 0 <= z < uintRange -> wrapUint z = z.
Proof. intros Hz. unfold wrapUint. apply Z.mod_small. exact Hz. Qed.

Lemma wrapCell_small (z : Z) : 0 <= z < cellRange -> wrapCell z = z.
Proof. intros Hz. unfold wrapCell. apply Z.mod_small. exact Hz. Qed.

Lemma wrapUint_uint (z : Z) : isUint (wrapUint z).
Proof. unfold isUint, wrapUint. apply Z.mod_pos_bound, uintRange_pos. Qed.

Lemma wrapUint_add_l (a b : Z) : wrapUint (wrapUint a + b) = wrapUint (a + b).
Proof. unfold wrapUint. apply Zplus_mod_idemp_l. Qed.

Lemma wrapUint_add_r (a b : Z) : wrapUint (a + wrapUint b) = wrapUint (a + b).
Proof. unfold wrapUint. apply Zplus_mod_idemp_r. Qed.

Lemma subscript_Some {A : Type} (v : list A) (i : nat) (a : A) :
  v !! i = Some a -> subscript v (Z.of_nat i) = Ok a.
Proof. intros Hi. unfold subscript. rewrite Nat2Z.id, Hi. reflexivity. Qed.

Lemma subscript_None {A : Type} (v : list A) (i : Z) :
  (length v <= Z.to_nat i)%nat -> subscript v i = Undefined.
Proof.
  intros Hi. unfold subscript. rewrite (lookup_ge_None_2 v _ Hi). reflexivity.
Qed.

(** The summing loop returns the exact sum while it stays in the vector and
    below [cellRange]. *)
Lemma sumLoop_ok (lens : list Z) (count i : nat) (ibeg : Z) :
  Forall isUint lens -> (i + count <= length lens)%nat ->
  0 <= ibeg -> ibeg + sumZ (drop i lens) < cellRange ->
  sumLoop lens count (Z.of_nat i) ibeg
  = Ok (ibeg + sumZ (take count (drop i lens))).
Proof.
  intros Hl. revert i ibeg.
  induction count as [|count IH]; intros i ibeg Hlen Hb Hs; simpl.
  - f_equal. lia.
  - destruct (lookup_lt_is_Some_2 lens i) as [a Ha]; [lia|].
    rewrite (subscript_Some lens i a Ha). simpl.
    assert (Ha0 : isUint a) by (rewrite Forall_lookup in Hl; exact (Hl i a Ha)).
    assert (Htl : 0 <= sumZ (drop (S i) lens))
      by (apply sumZ_nonneg, Forall_drop, Hl).
    rewrite (drop_S lens a i Ha) in Hs |- *. simpl in Hs |- *.
    unfold isUint in Ha0.
    replace (Z.of_nat i + 1) with (Z.of_nat (S i)) by lia.
    rewrite wrapCell_small by lia.
    rewrite IH by lia. f_equal. lia.
Qed.

Lemma copyLoop_ok (cells : list CellID) (count i : nat) (idsOut : list CellID) :
  (i + count <= length cells)%nat ->
  copyLoop cells count (Z.of_nat i) idsOut
  = Ok (idsOut ++ take count (drop i cells)).
Proof.
  revert i idsOut.
  induction count as [|count IH]; intros i idsOut Hlen; simpl.
  - rewrite app_nil_r. reflexivity.
  - destruct (lookup_lt_is_Some_2 cells i) as [c Hc]; [lia|].
    rewrite (subscript_Some cells i c Hc). simpl.
    replace (Z.of_nat i + 1) with (Z.of_nat (S i)) by lia.
    rewrite IH by lia.
    rewrite (drop_S cells c i Hc). simpl.
    rewrite <- app_assoc. reflexivity.
Qed.

Lemma copyLoop_ok_Z (cells : list CellID) (count : nat) (i : Z)
    (idsOut : list CellID) :
  0 <= i -> (Z.to_nat i + count <= length cells)%nat ->
  copyLoop cells count i idsOut
  = Ok (idsOut ++ take count (drop (Z.to_nat i) cells)).
Proof.
  intros Hi Hlen. rewrite <- (Z2Nat.id i Hi) at 1. apply copyLoop_ok, Hlen.
Qed.

Lemma subscript_lookup {A : Type} (v : list A) (i : Z) (a : A) :
  v !! Z.to_nat i = Some a -> subscript v i = Ok a.
Proof. intros Hi. unfold subscript. rewrite Hi. reflexivity. Qed.

Lemma at_lookup {A : Type} (v : list A) (i : Z) (a : A) :
  v !! Z.to_nat i = Some a -> at_ v i = Ok a.
Proof. intros Hi. unfold at_. rewrite Hi. reflexivity. Qed.

(** *** [getIds] *)

Lemma wf_lookup_length (s : t R) (p : Z) :
  wf s -> 0 <= p < N s ->
  exists len, lengthOfPencils s !! Z.to_nat p = Some len /\ isUint len.
Proof.
  intros Hwf Hp. destruct Hwf as [Hc _ _ Hl].
  destruct (lookup_lt_is_Some_2 (lengthOfPencils s) (Z.to_nat p)) as [len Hlen].
  { rewrite (cons_N_lengths s Hc) in Hp. lia. }
  exists len. split; [exact Hlen|].
  rewrite Forall_lookup in Hl. exact (Hl _ _ Hlen).
Qed.

(** Inside the range [getIds] returns the pencil's slice of [ids]. *)
Lemma getIds_slice (s : t R) (p : Z) :
  wf s -> 0 <= p < N s -> getIds p s = Ok (pencilIds s (Z.to_nat p)).
Proof.
  intros Hwf Hp. ranges.
  destruct (wf_lookup_length s p Hwf Hp) as (len & Hlen & Hlen32).
  destruct Hwf as [Hc HN Hsum Hl].
  pose proof (slice_bound _ _ _ Hl Hlen) as (Hb1 & Hb2 & Hb3).
  rewrite <- (cons_sum_lengths s Hc) in Hb3.
  assert (HpN : (Z.to_nat p < length (lengthOfPencils s))%nat)
    by (apply lookup_lt_Some in Hlen; exact Hlen).
  unfold getIds.
  destruct (Z.ltb_spec (N s) p) as [Hlt|_]; [lia|].
  pose proof (sumLoop_ok (lengthOfPencils s) (Z.to_nat p) 0 0 Hl) as Hloop.
  change (Z.of_nat 0) with 0 in Hloop. rewrite drop_0, !Z.add_0_l in Hloop.
  rewrite Hloop; clear Hloop.
  2: lia. 2: lia.
  2: { rewrite <- (cons_sum_lengths s Hc). lia. }
  simpl. unfold subscript at 1. rewrite Hlen. simpl.
  rewrite wrapCell_small, wrapUint_small by lia.
  unfold pencilIds. rewrite Hlen. simpl.
  destruct (Z.leb_spec (sumZ (take (Z.to_nat p) (lengthOfPencils s)) + len)
              (sumZ (take (Z.to_nat p) (lengthOfPencils s)))) as [Hz|Hnz].
  { replace len with 0 by lia. reflexivity. }
  destruct (Z.leb_spec (uintRange)
              (sumZ (take (Z.to_nat p) (lengthOfPencils s)) + len)) as [Hbig|_];
    [lia|].
  set (ibeg := sumZ (take (Z.to_nat p) (lengthOfPencils s))) in *.
  rewrite copyLoop_ok_Z.
  - simpl. do 2 f_equal. lia.
  - lia.
  - rewrite (cons_sum_ids s Hc) in Hb3. lia.
Qed.

(** Beyond [N] the guard returns the empty vector. *)
Lemma getIds_beyond (s : t R) (p : Z) : N s < p -> getIds p s = Ok [].
Proof.
  intros Hp. unfold getIds.
  destruct (Z.ltb_spec (N s) p) as [_|Hge]; [reflexivity | lia].
Qed.

(** C9 at its failing argument: on a well-formed set, [pencilId = N] passes
    the guard [pencilId > N]; the summing loop reads the [N] lengths and
    [lengthOfPencils[N]] is then read past the end of the vector. *)
Theorem getIds_past_the_end (s : t R) : wf s -> getIds (N s) s = Undefined.
Proof.
  intros [Hc HN Hsum Hl]. ranges. unfold getIds.
  destruct (Z.ltb_spec (N s) (N s)) as [Hlt|_]; [lia|].
  pose proof (sumLoop_ok (lengthOfPencils s) (Z.to_nat (N s)) 0 0 Hl) as Hloop.
  change (Z.of_nat 0) with 0 in Hloop. rewrite drop_0, !Z.add_0_l in Hloop.
  rewrite Hloop; clear Hloop.
  - simpl. rewrite subscript_None; [reflexivity|].
    rewrite (cons_N_lengths s Hc). lia.
  - rewrite (cons_N_lengths s Hc). lia.
  - lia.
  - rewrite <- (cons_sum_lengths s Hc). lia.
Qed.

(** *** [split] in closed form *)

(** The structure [split] returns on a well-formed set, written from the
    values it reads: [x0], [y0], [per] and [pp] are the parent's position,
    periodic flag and path, [cells] its cells. *)
Definition splitResult (s : t R) (k : nat) (cells : list CellID) (x0 y0 : R)
    (per : bool) (pp : list Z) (dx dy : R) : t R :=
  let qx := Rv_mul Rv_quarter dx in
  let qy := Rv_mul Rv_quarter dy in
  let xp := Rv_sub x0 qx in
  let yp := Rv_add y0 qy in
  let s0 := set_path (<[k := pp ++ [0]]> (path s))
              (set_y (<[k := yp]> (y s)) (set_x (<[k := xp]> (x s)) s)) in
  let s1 := addPencil cells (Rv_add xp qx) (Rv_add yp qy) per (pp ++ [1]) s0 in
  let s2 := addPencil cells (Rv_sub xp qx) (Rv_sub yp qy) per (pp ++ [2]) s1 in
  addPencil cells (Rv_add xp qx) (Rv_sub yp qy) per (pp ++ [3]) s2.

Lemma addQuadrant_ok (p : Z) (cells : list CellID) (opx opy : R -> R -> R)
    (dx dy : R) (pathIn : list Z) (s : t R) (xp yp : R) (per : bool) :
  x s !! Z.to_nat p = Some xp -> y s !! Z.to_nat p = Some yp ->
  periodic s !! Z.to_nat p = Some per ->
  addQuadrant p cells opx opy dx dy pathIn s
  = Ok (addPencil cells (opx xp (Rv_mul Rv_quarter dx))
          (opy yp (Rv_mul Rv_quarter dy)) per pathIn s).
Proof.
  intros Hx Hy Hper. unfold addQuadrant.
  rewrite (subscript_lookup _ _ _ Hx), (subscript_lookup _ _ _ Hy),
    (subscript_lookup _ _ _ Hper). reflexivity.
Qed.

Lemma wf_lookups (s : t R) (p : Z) :
  wf s -> 0 <= p < N s ->
  exists x0 y0 per pp,
    x s !! Z.to_nat p = Some x0 /\ y s !! Z.to_nat p = Some y0 /\
    periodic s !! Z.to_nat p = Some per /\ path s !! Z.to_nat p = Some pp.
Proof.
  intros [Hc _ _ _] Hp.
  destruct (lookup_lt_is_Some_2 (x s) (Z.to_nat p)) as [x0 Hx];
    [rewrite (cons_N_x s Hc) in Hp; lia|].
  destruct (lookup_lt_is_Some_2 (y s) (Z.to_nat p)) as [y0 Hy];
    [rewrite (cons_N_y s Hc) in Hp; lia|].
  destruct (lookup_lt_is_Some_2 (periodic s) (Z.to_nat p)) as [per Hper];
    [rewrite (cons_N_periodic s Hc) in Hp; lia|].
  destruct (lookup_lt_is_Some_2 (path s) (Z.to_nat p)) as [pp Hpp];
    [rewrite (cons_N_path s Hc) in Hp; lia|].
  exists x0, y0, per, pp. auto.
Qed.

Lemma split_ok (s : t R) (p : Z) (dx dy : R) (x0 y0 : R) (per : bool)
    (pp : list Z) :
  wf s -> 0 <= p < N s ->
  x s !! Z.to_nat p = Some x0 -> y s !! Z.to_nat p = Some y0 ->
  periodic s !! Z.to_nat p = Some per -> path s !! Z.to_nat p = Some pp ->
  split p dx dy s
  = Ok (splitResult s (Z.to_nat p) (pencilIds s (Z.to_nat p)) x0 y0 per pp dx dy).
Proof.
  intros Hwf Hp Hx Hy Hper Hpp. unfold split.
  rewrite (getIds_slice s p Hwf Hp). simpl.
  rewrite !(at_lookup _ _ _ Hpp). simpl.
  rewrite (subscript_lookup _ _ _ Hx). simpl.
  rewrite (subscript_lookup _ _ _ Hy). simpl.
  pose proof (lookup_lt_Some _ _ _ Hx) as Hkx.
  pose proof (lookup_lt_Some _ _ _ Hy) as Hky.
  set (qx := Rv_mul Rv_quarter dx). set (qy := Rv_mul Rv_quarter dy).
  set (xp := Rv_sub x0 qx). set (yp := Rv_add y0 qy).
  erewrite addQuadrant_ok; cycle 1.
  { simpl. apply list_lookup_insert_eq. exact Hkx. }
  { simpl. apply list_lookup_insert_eq. exact Hky. }
  { simpl. exact Hper. }
  simpl.
  erewrite addQuadrant_ok; cycle 1.
  { simpl. apply lookup_app_l_Some, list_lookup_insert_eq. exact Hkx. }
  { simpl. apply lookup_app_l_Some, list_lookup_insert_eq. exact Hky. }
  { simpl. apply lookup_app_l_Some. exact Hper. }
  simpl.
  erewrite addQuadrant_ok; cycle 1.
  { simpl. do 2 apply lookup_app_l_Some. apply list_lookup_insert_eq. exact Hkx. }
  { simpl. do 2 apply lookup_app_l_Some. apply list_lookup_insert_eq. exact Hky. }
  { simpl. do 2 apply lookup_app_l_Some. exact Hper. }
  reflexivity.
Qed.

(** *** Slices of [ids] under [push_back] and [insert] at the end *)

Definition slice (lens : list Z) (cells : list CellID) (k : nat) : list CellID :=
  take (Z.to_nat (default 0 (lens !! k)))
       (drop (Z.to_nat (sumZ (take k lens))) cells).

Lemma pencilIds_slice (s : t R) (k : nat) :
  pencilIds s k = slice (lengthOfPencils s) (ids s) k.
Proof. reflexivity. Qed.

Lemma slice_length (lens : list Z) (cells : list CellID) (k : nat) (len : Z) :
  Forall isUint lens -> sumZ lens <= Z.of_nat (length cells) ->
  lens !! k = Some len -> length (slice lens cells k) = Z.to_nat len.
Proof.
  intros Hl Hsum Hk. unfold slice. rewrite Hk. simpl.
  pose proof (slice_bound lens k len Hl Hk) as (H1 & H2 & H3).
  rewrite length_take, length_drop. lia.
Qed.

(** Appending pencils leaves the earlier slices as they are. *)
Lemma slice_app_old (lens lens2 : list Z) (cells cells2 : list CellID) (k : nat) :
  Forall isUint lens -> sumZ lens <= Z.of_nat (length cells) ->
  (k < length lens)%nat ->
  slice (lens ++ lens2) (cells ++ cells2) k = slice lens cells k.
Proof.
  intros Hl Hsum Hk.
  destruct (lookup_lt_is_Some_2 lens k Hk) as [len Hlen].
  pose proof (slice_bound lens k len Hl Hlen) as (H1 & H2 & H3).
  unfold slice.
  rewrite (lookup_app_l_Some _ _ _ _ Hlen), Hlen. simpl.
  rewrite take_app_le by lia.
  rewrite drop_app_le by lia.
  rewrite take_app_le; [reflexivity|].
  rewrite length_drop. lia.
Qed.

(** A pencil pushed at the end owns exactly the cells pushed with it. *)
Lemma slice_app_new (lens : list Z) (cells new : list CellID) :
  Forall isUint lens -> sumZ lens = Z.of_nat (length cells) ->
  slice (lens ++ [Z.of_nat (length new)]) (cells ++ new) (length lens) = new.
Proof.
  intros Hl Hsum. unfold slice.
  rewrite list_lookup_middle by reflexivity. simpl.
  rewrite take_app_length, Hsum, !Nat2Z.id.
  rewrite drop_app_length. apply firstn_all.
Qed.

(** *** The vectors after [split] *)

Section SplitFields.
Variables (s : t R) (p : Z) (dx dy x0 y0 : R) (per : bool) (pp : list Z) (len : Z).
Hypothesis Hwf : wf s.
Hypothesis Hp : 0 <= p < N s.
Hypothesis Hlen : lengthOfPencils s !! Z.to_nat p = Some len.
Hypothesis Hx : x s !! Z.to_nat p = Some x0.
Hypothesis Hy : y s !! Z.to_nat p = Some y0.
Hypothesis Hper : periodic s !! Z.to_nat p = Some per.
Hypothesis Hpp : path s !! Z.to_nat p = Some pp.

Let k : nat := Z.to_nat p.
Let cells : list CellID := pencilIds s k.
Let s' : t R := splitResult s k cells x0 y0 per pp dx dy.
Let qx : R := Rv_mul Rv_quarter dx.
Let qy : R := Rv_mul Rv_quarter dy.

Lemma split_cells_length : Z.of_nat (length cells) = len.
Proof.
  destruct Hwf as [Hc _ _ Hl]. unfold cells. rewrite pencilIds_slice.
  rewrite (slice_length _ _ k len Hl); [| |exact Hlen].
  - rewrite Forall_lookup in Hl. specialize (Hl _ _ Hlen). unfold isUint in Hl. lia.
  - rewrite <- (cons_sum_lengths s Hc), (cons_sum_ids s Hc). lia.
Qed.

Lemma split_len_uint : isUint len.
Proof.
  destruct Hwf as [_ _ _ Hl]. rewrite Forall_lookup in Hl. exact (Hl _ _ Hlen).
Qed.

Lemma split_lengthOfPencils :
  lengthOfPencils s' = ((lengthOfPencils s ++ [len]) ++ [len]) ++ [len].
Proof.
  change (lengthOfPencils s')
    with (((lengthOfPencils s ++ [wrapUint (Z.of_nat (length cells))])
           ++ [wrapUint (Z.of_nat (length cells))])
          ++ [wrapUint (Z.of_nat (length cells))]).
  rewrite split_cells_length, (wrapUint_small len split_len_uint). reflexivity.
Qed.

Lemma split_ids : ids s' = ((ids s ++ cells) ++ cells) ++ cells.
Proof. reflexivity. Qed.

Lemma split_periodic :
  periodic s' = ((periodic s ++ [per]) ++ [per]) ++ [per].
Proof. reflexivity. Qed.

Lemma split_path :
  path s' = ((<[k := pp ++ [0]]> (path s) ++ [pp ++ [1]]) ++ [pp ++ [2]])
            ++ [pp ++ [3]].
Proof. reflexivity. Qed.

Lemma split_x :
  x s' = ((<[k := Rv_sub x0 qx]> (x s) ++ [Rv_add (Rv_sub x0 qx) qx])
          ++ [Rv_sub (Rv_sub x0 qx) qx]) ++ [Rv_add (Rv_sub x0 qx) qx].
Proof. reflexivity. Qed.

Lemma split_y :
  y s' = ((<[k := Rv_add y0 qy]> (y s) ++ [Rv_add (Rv_add y0 qy) qy])
          ++ [Rv_sub (Rv_add y0 qy) qy]) ++ [Rv_sub (Rv_add y0 qy) qy].
Proof. reflexivity. Qed.

Lemma split_N : N s' = wrapUint (N s + 3).
Proof.
  change (N s') with (wrapUint (wrapUint (wrapUint (N s + 1) + 1) + 1)).
  rewrite wrapUint_add_l, <- Z.add_assoc, wrapUint_add_l.
  apply (f_equal wrapUint). lia.
Qed.

Lemma split_sumOfLengths : sumOfLengths s' = wrapUint (sumOfLengths s + 3 * len).
Proof.
  change (sumOfLengths s')
    with (wrapUint (wrapUint (wrapUint (sumOfLengths s + Z.of_nat (length cells))
                          + Z.of_nat (length cells)) + Z.of_nat (length cells))).
  rewrite split_cells_length, wrapUint_add_l, <- Z.add_assoc, wrapUint_add_l.
  apply (f_equal wrapUint). lia.
Qed.

Lemma split_sums : sumZ (lengthOfPencils s) = Z.of_nat (length (ids s)).
Proof.
  destruct Hwf as [Hc _ _ _].
  rewrite <- (cons_sum_lengths s Hc). apply (cons_sum_ids s Hc).
Qed.

(** The earlier pencils keep their cells. *)
Lemma split_pencilIds_old (j : nat) :
  (j < length (lengthOfPencils s))%nat -> pencilIds s' j = pencilIds s j.
Proof.
  intros Hj. destruct Hwf as [Hc _ _ Hl]. pose proof split_sums as Hs.
  pose proof split_cells_length as Hcl. pose proof split_len_uint as Hu.
  rewrite !pencilIds_slice, split_lengthOfPencils, split_ids.
  assert (Hl1 : Forall isUint (lengthOfPencils s ++ [len]))
    by (apply Forall_app; split; [exact Hl | repeat constructor; apply Hu]).
  assert (Hl2 : Forall isUint ((lengthOfPencils s ++ [len]) ++ [len]))
    by (apply Forall_app; split; [exact Hl1 | repeat constructor; apply Hu]).
  rewrite slice_app_old; [| exact Hl2 | |].
  2: { rewrite !sumZ_app, !length_app. simpl. lia. }
  2: { rewrite !length_app. simpl. lia. }
  rewrite slice_app_old; [| exact Hl1 | |].
  2: { rewrite !sumZ_app, !length_app. simpl. lia. }
  2: { rewrite !length_app. simpl. lia. }
  apply slice_app_old; [exact Hl | lia | exact Hj].
Qed.

(** The three pushed pencils own copies of the parent's cells. *)
Lemma split_pencilIds_new (j : nat) :
  (j < 3)%nat -> pencilIds s' (length (lengthOfPencils s) + j) = cells.
Proof.
  intros Hj. destruct Hwf as [Hc _ _ Hl]. pose proof split_sums as Hs.
  pose proof split_cells_length as Hcl. pose proof split_len_uint as Hu.
  rewrite pencilIds_slice, split_lengthOfPencils, split_ids.
  assert (Hl1 : Forall isUint (lengthOfPencils s ++ [len]))
    by (apply Forall_app; split; [exact Hl | repeat constructor; apply Hu]).
  assert (Hl2 : Forall isUint ((lengthOfPencils s ++ [len]) ++ [len]))
    by (apply Forall_app; split; [exact Hl1 | repeat constructor; apply Hu]).
  rewrite <- Hcl.
  destruct j as [|[|[|j]]]; [| | |lia].
  - rewrite Nat.add_0_r.
    rewrite slice_app_old; [| rewrite Hcl; exact Hl2 | |].
    2: { rewrite !sumZ_app, !length_app. simpl. lia. }
    2: { rewrite !length_app. simpl. lia. }
    rewrite slice_app_old; [| rewrite Hcl; exact Hl1 | |].
    2: { rewrite !sumZ_app, !length_app. simpl. lia. }
    2: { rewrite !length_app. simpl. lia. }
    apply slice_app_new; [exact Hl | exact Hs].
  - rewrite slice_app_old; [| rewrite Hcl; exact Hl2 | |].
    2: { rewrite !sumZ_app, !length_app. simpl. lia. }
    2: { rewrite !length_app. simpl. lia. }
    replace (length (lengthOfPencils s) + 1)%nat
      with (length (lengthOfPencils s ++ [Z.of_nat (length cells)]))
      by (rewrite length_app; reflexivity).
    apply slice_app_new; [rewrite Hcl; exact Hl1|].
    rewrite sumZ_app, length_app. simpl. lia.
  - replace (length (lengthOfPencils s) + 2)%nat
      with (length ((lengthOfPencils s ++ [Z.of_nat (length cells)])
                      ++ [Z.of_nat (length cells)]))
      by (rewrite !length_app; simpl; lia).
    apply slice_app_new; [rewrite Hcl; exact Hl2|].
    rewrite !sumZ_app, !length_app. simpl. lia.
Qed.

(** When the new counts fit 32 bits the result is well formed again. *)
Lemma split_wf :
  N s + 3 < uintRange -> sumOfLengths s + 3 * len < uintRange -> wf s'.
Proof.
  intros HN Hsum. pose proof split_len_uint as Hu. unfold isUint in Hu.
  pose proof split_cells_length as Hcl.
  destruct Hwf as [Hc HN0 Hsum0 Hl].
  assert (EN : N s' = N s + 3) by (rewrite split_N; apply wrapUint_small; lia).
  assert (ES : sumOfLengths s' = sumOfLengths s + 3 * len)
    by (rewrite split_sumOfLengths; apply wrapUint_small; lia).
  split; [split| | |].
  - rewrite EN, split_lengthOfPencils, !length_app, (cons_N_lengths s Hc).
    simpl. lia.
  - rewrite EN, split_x, !length_app, length_insert, (cons_N_x s Hc). simpl. lia.
  - rewrite EN, split_y, !length_app, length_insert, (cons_N_y s Hc). simpl. lia.
  - rewrite EN, split_periodic, !length_app, (cons_N_periodic s Hc). simpl. lia.
  - rewrite EN, split_path, !length_app, length_insert, (cons_N_path s Hc).
    simpl. lia.
  - rewrite ES, split_lengthOfPencils, !sumZ_app, (cons_sum_lengths s Hc).
    simpl. lia.
  - rewrite ES, split_ids, !length_app, (cons_sum_ids s Hc). lia.
  - lia.
  - lia.
  - rewrite split_lengthOfPencils.
    repeat (apply Forall_app; split); try exact Hl; repeat constructor; lia.
Qed.

End SplitFields.

(** *** What [split] produces and what it leaves alone *)

(** C3, amended: on a well-formed set and for [p < N], [split] returns a set with
    three more pencils; the pencil at [p] and the three pushed at the end
    each hold the parent's cells and its periodic flag, and their paths are
    the parent's path followed by 0, 1, 2 and 3 in that order.  When the new
    counts fit [uint], [getIds] returns the parent's cells for each of the
    four. *)
Theorem split_four_pencils (s : t R) (p : Z) (dx dy : R) :
  wf s -> 0 <= p < N s ->
  exists s' cells per pp,
    split p dx dy s = Ok s' /\
    getIds p s = Ok cells /\
    periodic s !! Z.to_nat p = Some per /\
    path s !! Z.to_nat p = Some pp /\
    let n := length (lengthOfPencils s) in
    length (lengthOfPencils s') = (n + 3)%nat /\
    (forall j, In j [Z.to_nat p; n; (n + 1)%nat; (n + 2)%nat] ->
       pencilIds s' j = cells /\ periodic s' !! j = Some per) /\
    path s' !! Z.to_nat p = Some (pp ++ [0]) /\
    path s' !! n = Some (pp ++ [1]) /\
    path s' !! (n + 1)%nat = Some (pp ++ [2]) /\
    path s' !! (n + 2)%nat = Some (pp ++ [3]) /\
    (N s + 3 < uintRange ->
     sumOfLengths s + 3 * Z.of_nat (length cells) < uintRange ->
     forall q, In q [p; N s; N s + 1; N s + 2] -> getIds q s' = Ok cells).
Proof.
  intros Hwf Hp.
  destruct (wf_lookups s p Hwf Hp) as (x0 & y0 & per & pp & Hx & Hy & Hper & Hpp).
  destruct (wf_lookup_length s p Hwf Hp) as (len & Hlen & _).
  pose proof (wf_consistent s Hwf) as Hc.
  set (n := length (lengthOfPencils s)).
  assert (Hnper : length (periodic s) = n)
    by (pose proof (cons_N_periodic s Hc); pose proof (cons_N_lengths s Hc);
        unfold n; lia).
  assert (Hnpath : length (path s) = n)
    by (pose proof (cons_N_path s Hc); pose proof (cons_N_lengths s Hc);
        unfold n; lia).
  assert (HnN : N s = Z.of_nat n) by apply (cons_N_lengths s Hc).
  exists (splitResult s (Z.to_nat p) (pencilIds s (Z.to_nat p)) x0 y0 per pp dx dy),
    (pencilIds s (Z.to_nat p)), per, pp.
  split; [apply split_ok; assumption|].
  split; [apply getIds_slice; assumption|].
  split; [exact Hper|]. split; [exact Hpp|]. cbv zeta. fold n.
  assert (Hold : pencilIds (splitResult s (Z.to_nat p) (pencilIds s (Z.to_nat p))
                    x0 y0 per pp dx dy) (Z.to_nat p) = pencilIds s (Z.to_nat p))
    by (apply (split_pencilIds_old s p dx dy x0 y0 per pp len Hwf Hlen);
        apply lookup_lt_Some in Hlen; exact Hlen).
  assert (Hnew : forall j, (j < 3)%nat ->
            pencilIds (splitResult s (Z.to_nat p) (pencilIds s (Z.to_nat p))
              x0 y0 per pp dx dy) (n + j) = pencilIds s (Z.to_nat p))
    by (intros j Hj; apply (split_pencilIds_new s p dx dy x0 y0 per pp len Hwf Hlen j Hj)).
  split.
  { rewrite (split_lengthOfPencils s p dx dy x0 y0 per pp len Hwf Hlen).
    rewrite !length_app. simpl. lia. }
  split.
  { intros j [<-|[<-|[<-|[<-|[]]]]]; rewrite split_periodic.
    - split; [exact Hold|]. do 3 apply lookup_app_l_Some. exact Hper.
    - split; [rewrite <- (Nat.add_0_r n); apply Hnew; lia|].
      do 2 apply lookup_app_l_Some. apply list_lookup_middle. lia.
    - split; [apply Hnew; lia|].
      apply lookup_app_l_Some, list_lookup_middle. rewrite length_app. simpl. lia.
    - split; [apply Hnew; lia|].
      apply list_lookup_middle. rewrite !length_app. simpl. lia. }
  rewrite split_path.
  split.
  { do 3 apply lookup_app_l_Some. apply list_lookup_insert_eq.
    apply lookup_lt_Some in Hpp. exact Hpp. }
  split.
  { do 2 apply lookup_app_l_Some. apply list_lookup_middle.
    rewrite length_insert. lia. }
  split.
  { apply lookup_app_l_Some, list_lookup_middle.
    rewrite length_app, length_insert. simpl. lia. }
  split.
  { apply list_lookup_middle. rewrite !length_app, length_insert. simpl. lia. }
  intros HN Hsum q Hq.
  rewrite (split_cells_length s p len Hwf Hlen) in Hsum.
  assert (Hwf' : wf (splitResult s (Z.to_nat p) (pencilIds s (Z.to_nat p))
                      x0 y0 per pp dx dy))
    by (eapply split_wf; eassumption).
  pose proof (split_N s p dx dy x0 y0 per pp) as HN'.
  rewrite wrapUint_small in HN' by (destruct Hwf as [_ ? _ _]; lia).
  rewrite getIds_slice; [| exact Hwf' | rewrite HN'; simpl in Hq; lia].
  f_equal.
  destruct Hq as [<-|[<-|[<-|[<-|[]]]]].
  - exact Hold.
  - rewrite HnN, Nat2Z.id, <- (Nat.add_0_r n). apply Hnew. lia.
  - replace (Z.to_nat (N s + 1)) with (n + 1)%nat by lia. apply Hnew. lia.
  - replace (Z.to_nat (N s + 2)) with (n + 2)%nat by lia. apply Hnew. lia.
Qed.

(** C10, amended: on a well-formed set and for [p < N], [split] leaves the cells,
    the length and the periodic flag of every pencil already present as they
    were, pencil [p] included, and the position and path of every pencil
    other than [p]; [lengthOfPencils], [ids] and [periodic] only grow at the
    end, by three pencils, and [x], [y] and [path] get three more entries.
    When the new counts fit [uint], [getIds] answers as before for every
    earlier pencil. *)
Theorem split_frame (s : t R) (p : Z) (dx dy : R) :
  wf s -> 0 <= p < N s ->
  exists s',
    split p dx dy s = Ok s' /\
    let n := length (lengthOfPencils s) in
    (forall j, (j < n)%nat ->
       pencilIds s' j = pencilIds s j /\
       lengthOfPencils s' !! j = lengthOfPencils s !! j /\
       periodic s' !! j = periodic s !! j) /\
    (forall j, (j < n)%nat -> j <> Z.to_nat p ->
       x s' !! j = x s !! j /\ y s' !! j = y s !! j /\
       path s' !! j = path s !! j) /\
    (exists lens3 cells3 per3,
       length lens3 = 3%nat /\ length per3 = 3%nat /\
       lengthOfPencils s' = lengthOfPencils s ++ lens3 /\
       ids s' = ids s ++ cells3 /\
       periodic s' = periodic s ++ per3) /\
    length (x s') = (n + 3)%nat /\ length (y s') = (n + 3)%nat /\
    length (path s') = (n + 3)%nat /\
    (N s + 3 < uintRange ->
     sumOfLengths s + 3 * default 0 (lengthOfPencils s !! Z.to_nat p) < uintRange ->
     forall q, 0 <= q < N s -> getIds q s' = getIds q s).
Proof.
  intros Hwf Hp.
  destruct (wf_lookups s p Hwf Hp) as (x0 & y0 & per & pp & Hx & Hy & Hper & Hpp).
  destruct (wf_lookup_length s p Hwf Hp) as (len & Hlen & _).
  pose proof (wf_consistent s Hwf) as Hc.
  set (n := length (lengthOfPencils s)).
  assert (HnN : N s = Z.of_nat n) by apply (cons_N_lengths s Hc).
  assert (Hnx : length (x s) = n) by (pose proof (cons_N_x s Hc); lia).
  assert (Hny : length (y s) = n) by (pose proof (cons_N_y s Hc); lia).
  assert (Hnper : length (periodic s) = n)
    by (pose proof (cons_N_periodic s Hc); lia).
  assert (Hnpath : length (path s) = n) by (pose proof (cons_N_path s Hc); lia).
  set (s' := splitResult s (Z.to_nat p) (pencilIds s (Z.to_nat p)) x0 y0 per pp dx dy).
  assert (Hold : forall j, (j < n)%nat -> pencilIds s' j = pencilIds s j)
    by (intros j Hj; apply (split_pencilIds_old s p dx dy x0 y0 per pp len Hwf Hlen j Hj)).
  pose proof (split_lengthOfPencils s p dx dy x0 y0 per pp len Hwf Hlen) as HL.
  fold s' in HL.
  exists s'.
  split; [apply split_ok; assumption|]. cbv zeta. fold n.
  split.
  { intros j Hj. split; [apply Hold, Hj|]. split.
    - rewrite HL. rewrite !lookup_app_l; [reflexivity | | |];
        rewrite ?length_app; simpl; fold n; lia.
    - unfold s'. rewrite split_periodic.
      rewrite !lookup_app_l; [reflexivity | | |];
        rewrite ?length_app; simpl; lia. }
  split.
  { intros j Hj Hne. unfold s'. rewrite split_x, split_y, split_path.
    repeat split.
    - rewrite !lookup_app_l;
        [apply list_lookup_insert_ne; congruence | | |];
        rewrite ?length_app, length_insert; simpl; lia.
    - rewrite !lookup_app_l;
        [apply list_lookup_insert_ne; congruence | | |];
        rewrite ?length_app, length_insert; simpl; lia.
    - rewrite !lookup_app_l;
        [apply list_lookup_insert_ne; congruence | | |];
        rewrite ?length_app, length_insert; simpl; lia. }
  split.
  { exists [len; len; len],
      (pencilIds s (Z.to_nat p) ++ pencilIds s (Z.to_nat p) ++ pencilIds s (Z.to_nat p)),
      [per; per; per].
    split; [reflexivity|]. split; [reflexivity|].
    split; [rewrite HL, <- !app_assoc; reflexivity|].
    split; [unfold s'; rewrite split_ids, <- !app_assoc; reflexivity|].
    unfold s'. rewrite split_periodic, <- !app_assoc. reflexivity. }
  split; [unfold s'; rewrite split_x, !length_app, length_insert; simpl; lia|].
  split; [unfold s'; rewrite split_y, !length_app, length_insert; simpl; lia|].
  split; [unfold s'; rewrite split_path, !length_app, length_insert; simpl; lia|].
  intros HN Hsum q Hq. rewrite Hlen in Hsum. simpl in Hsum.
  assert (Hwf' : wf s') by (eapply split_wf; eassumption).
  pose proof (split_N s p dx dy x0 y0 per pp) as HN'. fold s' in HN'.
  rewrite wrapUint_small in HN' by (destruct Hwf as [_ ? _ _]; lia).
  rewrite (getIds_slice s' q Hwf') by lia.
  rewrite (getIds_slice s q Hwf Hq). f_equal. apply Hold. lia.
Qed.

(** *** The counters and the vectors *)

Lemma wrapUint_le (z : Z) : 0 <= z -> wrapUint z <= z.
Proof.
  intros Hz. unfold wrapUint. apply Z.mod_le; [exact Hz | apply uintRange_pos].
Qed.

Lemma consistent_mod_empty : consistent_mod (empty : t R).
Proof. split; try reflexivity; simpl; solve [constructor | lia]. Qed.

Lemma consistent_mod_addPencil (idsIn : list CellID) (xIn yIn : R)
    (periodicIn : bool) (pathIn : list Z) (s : t R) :
  consistent_mod s -> consistent_mod (addPencil idsIn xIn yIn periodicIn pathIn s).
Proof.
  intros [Hx Hy Hper Hpath HN Hsl Hsi Hl Hle].
  split; cbn [addPencil N sumOfLengths lengthOfPencils ids x y periodic path].
  - rewrite !length_app, Hx. reflexivity.
  - rewrite !length_app, Hy. reflexivity.
  - rewrite !length_app, Hper. reflexivity.
  - rewrite !length_app, Hpath. reflexivity.
  - rewrite HN, wrapUint_add_l, length_app. apply (f_equal wrapUint). simpl. lia.
  - rewrite Hsl, wrapUint_add_l, sumZ_app. simpl.
    rewrite Z.add_0_r, wrapUint_add_r. reflexivity.
  - rewrite Hsi, wrapUint_add_l, length_app. apply (f_equal wrapUint). lia.
  - apply Forall_app. split; [exact Hl|]. repeat constructor; apply wrapUint_uint.
  - rewrite sumZ_app, length_app. simpl.
    pose proof (wrapUint_le (Z.of_nat (length idsIn))). lia.
Qed.

Lemma consistent_mod_set (s : t R) (k : nat) (xv yv : R) (pv : list Z) :
  consistent_mod s ->
  consistent_mod (set_path (<[k := pv]> (path s))
                    (set_y (<[k := yv]> (y s)) (set_x (<[k := xv]> (x s)) s))).
Proof.
  intros [Hx Hy Hper Hpath HN Hsl Hsi Hl Hle].
  split; cbn [set_path set_y set_x N sumOfLengths lengthOfPencils ids x y
              periodic path]; rewrite ?length_insert; assumption.
Qed.

Lemma addQuadrant_inv (p : Z) (cells : list CellID) (opx opy : R -> R -> R)
    (dx dy : R) (pathIn : list Z) (s s' : t R) :
  addQuadrant p cells opx opy dx dy pathIn s = Ok s' ->
  exists xIn yIn per, s' = addPencil cells xIn yIn per pathIn s.
Proof.
  unfold addQuadrant.
  destruct (subscript (x s) p) as [xp| |]; simpl; try discriminate.
  destruct (subscript (y s) p) as [yp| |]; simpl; try discriminate.
  destruct (subscript (periodic s) p) as [per| |]; simpl; try discriminate.
  intros [= <-]. eauto.
Qed.

(** Whatever [split] reads, a result it returns is the argument with three
    entries overwritten and three pencils pushed. *)
Lemma split_inv (p : Z) (dx dy : R) (s s' : t R) :
  split p dx dy s = Ok s' ->
  exists cells xv yv pv x1 y1 per1 path1 x2 y2 per2 path2 x3 y3 per3 path3,
    s' = addPencil cells x3 y3 per3 path3
           (addPencil cells x2 y2 per2 path2
              (addPencil cells x1 y1 per1 path1
                 (set_path (<[Z.to_nat p := pv]> (path s))
                    (set_y (<[Z.to_nat p := yv]> (y s))
                       (set_x (<[Z.to_nat p := xv]> (x s)) s))))).
Proof.
  unfold split.
  destruct (getIds p s) as [cells| |]; simpl; try discriminate.
  destruct (at_ (path s) p) as [pp| |]; simpl; try discriminate.
  destruct (subscript (x s) p) as [x0| |]; simpl; try discriminate.
  destruct (subscript (y s) p) as [y0| |]; simpl; try discriminate.
  match goal with
  | |- context [addQuadrant p cells Rv_add Rv_add dx dy ?pa ?st] =>
      destruct (addQuadrant p cells Rv_add Rv_add dx dy pa st) as [s1| |] eqn:E1
  end; simpl; try discriminate.
  match goal with
  | |- context [addQuadrant p cells Rv_sub Rv_sub dx dy ?pa ?st] =>
      destruct (addQuadrant p cells Rv_sub Rv_sub dx dy pa st) as [s2| |] eqn:E2
  end; simpl; try discriminate.
  intros E3.
  apply addQuadrant_inv in E1 as (x1 & y1 & per1 & ->).
  apply addQuadrant_inv in E2 as (x2 & y2 & per2 & ->).
  apply addQuadrant_inv in E3 as (x3 & y3 & per3 & ->).
  repeat eexists.
Qed.

Lemma reachable_consistent_mod (s : t R) : reachable s -> consistent_mod s.
Proof.
  induction 1 as [|idsIn xIn yIn periodicIn pathIn s _ IH|p dx dy s s' _ IH Hs].
  - apply consistent_mod_empty.
  - apply consistent_mod_addPencil, IH.
  - apply split_inv in Hs
      as (cells & xv & yv & pv & x1 & y1 & per1 & path1 & x2 & y2 & per2
          & path2 & x3 & y3 & per3 & path3 & ->).
    do 3 apply consistent_mod_addPencil. apply consistent_mod_set, IH.
Qed.

Lemma consistent_mod_exact (s : t R) :
  consistent_mod s ->
  Z.of_nat (length (lengthOfPencils s)) < uintRange ->
  Z.of_nat (length (ids s)) < uintRange ->
  consistent s.
Proof.
  intros [Hx Hy Hper Hpath HN Hsl Hsi Hl Hle] HbN Hbi.
  pose proof (sumZ_nonneg _ Hl) as Hnn.
  rewrite wrapUint_small in HN by lia.
  rewrite wrapUint_small in Hsl by lia.
  rewrite wrapUint_small in Hsi by lia.
  split; lia.
Qed.

(** C8, as the code has it: every set built from the empty one by
    [addPencil] and [split] has one entry per pencil in [lengthOfPencils],
    [x], [y], [periodic] and [path]; [N] is that number of entries and
    [sumOfLengths] is both the sum of [lengthOfPencils] and the size of
    [ids], each reduced modulo [uintRange]; the equalities are exact as long as
    the number of pencils and the size of [ids] are below [uintRange]. *)
Theorem reachable_counters (s : t R) :
  reachable s ->
  consistent_mod s /\
  (Z.of_nat (length (lengthOfPencils s)) < uintRange ->
   Z.of_nat (length (ids s)) < uintRange -> consistent s).
Proof.
  intros Hr. pose proof (reachable_consistent_mod s Hr) as Hcm.
  split; [exact Hcm | apply consistent_mod_exact, Hcm].
Qed.

(** One [addPencil] on the empty set is consistent only when the pencil's
    size fits [uint]. *)
Lemma consistent_addPencil_empty (idsIn : list CellID) (xIn yIn : R)
    (periodicIn : bool) (pathIn : list Z) :
  consistent (addPencil idsIn xIn yIn periodicIn pathIn empty) ->
  Z.of_nat (length idsIn) < uintRange.
Proof.
  intros Hc. pose proof (cons_sum_ids _ Hc) as Hids.
  cbn [addPencil empty sumOfLengths ids] in Hids.
  rewrite app_nil_l, Z.add_0_l in Hids.
  pose proof (wrapUint_uint (Z.of_nat (length idsIn))) as Hu. unfold isUint in Hu.
  lia.
Qed.

End Facts.
End setOfPencilsFacts.

(** ** Part I on concrete sets *)

Module setOfPencilsExamples.
Import setOfPencils setOfPencilsFacts.

(** The ranges the program is built with. *)
#[local] Existing Instance lp64.

(** One pencil of two cells at the origin, over exact rationals and over
    binary64 floats. *)
Definition onePencil : t Q := addPencil [7; 8] 0%Q 0%Q false [] empty.
Definition onePencilF : t float := addPencil [7; 8] 0%float 0%float false [] empty.

Ltac range_by_compute := vm_compute; split; [discriminate | reflexivity].

Ltac prove_wf :=
  split; [split; reflexivity | range_by_compute | range_by_compute
         | repeat (apply Forall_cons_2; [range_by_compute|]); apply Forall_nil_2].

Lemma wf_empty : wf (empty : t Q).
Proof. prove_wf. Qed.

Lemma wf_onePencil : wf onePencil.
Proof. prove_wf. Qed.

Lemma split_four_pencils_witness :
  wf onePencil /\ 0 <= 0 < N onePencil /\
  exists s' cells per pp,
    split 0 (4 # 1)%Q (4 # 1)%Q onePencil = Ok s' /\
    getIds 0 onePencil = Ok cells /\
    periodic onePencil !! Z.to_nat 0 = Some per /\
    path onePencil !! Z.to_nat 0 = Some pp /\
    let n := length (lengthOfPencils onePencil) in
    length (lengthOfPencils s') = (n + 3)%nat /\
    (forall j, In j [Z.to_nat 0; n; (n + 1)%nat; (n + 2)%nat] ->
       pencilIds s' j = cells /\ periodic s' !! j = Some per) /\
    path s' !! Z.to_nat 0 = Some (pp ++ [0]) /\
    path s' !! n = Some (pp ++ [1]) /\
    path s' !! (n + 1)%nat = Some (pp ++ [2]) /\
    path s' !! (n + 2)%nat = Some (pp ++ [3]) /\
    (N onePencil + 3 < uintRange ->
     sumOfLengths onePencil + 3 * Z.of_nat (length cells) < uintRange ->
     forall q, In q [0; N onePencil; N onePencil + 1; N onePencil + 2] ->
       getIds q s' = Ok cells).
Proof.
  split; [exact wf_onePencil|].
  split; [change (N onePencil) with 1; lia|].
  apply (split_four_pencils onePencil 0 (4 # 1)%Q (4 # 1)%Q wf_onePencil).
  change (N onePencil) with 1; lia.
Defined.

Lemma split_frame_witness :
  wf onePencil /\ 0 <= 0 < N onePencil /\
  exists s',
    split 0 (4 # 1)%Q (4 # 1)%Q onePencil = Ok s' /\
    let n := length (lengthOfPencils onePencil) in
    (forall j, (j < n)%nat ->
       pencilIds s' j = pencilIds onePencil j /\
       lengthOfPencils s' !! j = lengthOfPencils onePencil !! j /\
       periodic s' !! j = periodic onePencil !! j) /\
    (forall j, (j < n)%nat -> j <> Z.to_nat 0 ->
       x s' !! j = x onePencil !! j /\ y s' !! j = y onePencil !! j /\
       path s' !! j = path onePencil !! j) /\
    (exists lens3 cells3 per3,
       length lens3 = 3%nat /\ length per3 = 3%nat /\
       lengthOfPencils s' = lengthOfPencils onePencil ++ lens3 /\
       ids s' = ids onePencil ++ cells3 /\
       periodic s' = periodic onePencil ++ per3) /\
    length (x s') = (n + 3)%nat /\ length (y s') = (n + 3)%nat /\
    length (path s') = (n + 3)%nat /\
    (N onePencil + 3 < uintRange ->
     sumOfLengths onePencil
       + 3 * default 0 (lengthOfPencils onePencil !! Z.to_nat 0) < uintRange ->
     forall q, 0 <= q < N onePencil -> getIds q s' = getIds q onePencil).
Proof.
  split; [exact wf_onePencil|].
  split; [change (N onePencil) with 1; lia|].
  apply (split_frame onePencil 0 (4 # 1)%Q (4 # 1)%Q wf_onePencil).
  change (N onePencil) with 1; lia.
Defined.

Lemma reachable_onePencil : reachable onePencil.
Proof. apply reach_addPencil, reach_empty. Qed.

Lemma reachable_counters_witness :
  reachable onePencil /\
  consistent_mod onePencil /\
  (Z.of_nat (length (lengthOfPencils onePencil)) < uintRange ->
   Z.of_nat (length (ids onePencil)) < uintRange -> consistent onePencil).
Proof.
  split; [exact reachable_onePencil|].
  apply (reachable_counters onePencil reachable_onePencil).
Defined.

(** C8 fails as stated: with a 32-bit [uint], after [addPencil] of a pencil
    of [2 ^ 32] cells on the empty set, [sumOfLengths] and
    [lengthOfPencils[0]] are 0 while [ids] holds [2 ^ 32] entries. *)
Lemma reachable_not_consistent :
  reachable (addPencil (replicate (Z.to_nat (2 ^ 32)) 0) 0%Q 0%Q false [] empty)
  /\ ~ consistent
         (addPencil (replicate (Z.to_nat (2 ^ 32)) 0) 0%Q 0%Q false [] empty).
Proof.
  split; [apply reach_addPencil, reach_empty|].
  intros Hc.
  pose proof (consistent_addPencil_empty _ _ _ _ _ Hc) as Hlt.
  rewrite length_replicate in Hlt. change uintRange with (2 ^ 32) in Hlt.
  pose proof (Z2Nat.id (2 ^ 32)) as Hid. lia.
Qed.

Lemma getIds_past_the_end_witness :
  wf (empty : t Q) /\ getIds (N (empty : t Q)) (empty : t Q) = Undefined.
Proof.
  split; [exact wf_empty | apply (getIds_past_the_end empty wf_empty)].
Defined.

(** The positions of the four pencils after a split, in the order parent,
    first, second and third pushed pencil. *)
Definition childPositions {R : Type} (s : t R) (p : nat) (n : nat)
    : list (option R * option R) :=
  map (fun j => (x s !! j, y s !! j)) [p; n; (n + 1)%nat; (n + 2)%nat].

(** C2 at a concrete set: a pencil at (0, 0) split with [dx = dy = 4].  The
    quadrant centres are (-1, 1), (1, 1), (-1, -1) and (1, -1); the code
    leaves the parent at (-1, 1) and pushes pencils at (0, 2), (-2, 0) and
    (0, 0), because the three [addPencil] calls read [x[pencilId]] and
    [y[pencilId]] after they were moved.  The paths are as expected. *)
Theorem split_positions_onePencil :
  exists s',
    split 0 (4 # 1)%Q (4 # 1)%Q onePencil = Ok s' /\
    childPositions s' 0 1
    = [(Some (-1)%Q, Some 1%Q); (Some 0%Q, Some 2%Q);
       (Some (-2)%Q, Some 0%Q); (Some 0%Q, Some 0%Q)] /\
    path s' = [[0]; [1]; [2]; [3]].
Proof. eexists. split; [vm_compute; reflexivity|]. split; reflexivity. Qed.

(** Over exact rationals, for every well-formed set: the parent moves to the
    upper left quadrant centre; the pushed pencils land on the middle of the
    parent's upper edge, the middle of its left edge and its centre. *)
Lemma split_positions_Q (s : t Q) (p : Z) (dx dy x0 y0 : Q) :
  wf s -> 0 <= p < N s ->
  x s !! Z.to_nat p = Some x0 -> y s !! Z.to_nat p = Some y0 ->
  exists s' xa ya xb yb xc yc xd yd,
    split p dx dy s = Ok s' /\
    childPositions s' (Z.to_nat p) (length (lengthOfPencils s))
    = [(Some xa, Some ya); (Some xb, Some yb);
       (Some xc, Some yc); (Some xd, Some yd)] /\
    (xa == x0 - (1 # 4) * dx /\ ya == y0 + (1 # 4) * dy)%Q /\
    (xb == x0 /\ yb == y0 + (1 # 2) * dy)%Q /\
    (xc == x0 - (1 # 2) * dx /\ yc == y0)%Q /\
    (xd == x0 /\ yd == y0)%Q.
Proof.
  intros Hwf Hp Hx Hy.
  destruct (wf_lookups s p Hwf Hp)
    as (x0' & y0' & per & pp & Hx' & Hy' & Hper & Hpp).
  assert (x0' = x0) by congruence. assert (y0' = y0) by congruence.
  subst x0' y0'.
  pose proof (wf_consistent s Hwf) as Hc.
  assert (Hnx : length (x s) = length (lengthOfPencils s))
    by (pose proof (cons_N_x s Hc); pose proof (cons_N_lengths s Hc); lia).
  assert (Hny : length (y s) = length (lengthOfPencils s))
    by (pose proof (cons_N_y s Hc); pose proof (cons_N_lengths s Hc); lia).
  pose proof (lookup_lt_Some _ _ _ Hx) as Hkx.
  pose proof (lookup_lt_Some _ _ _ Hy) as Hky.
  set (n := length (lengthOfPencils s)) in *.
  do 9 eexists.
  split; [apply (split_ok s p dx dy x0 y0 per pp); assumption|].
  unfold childPositions. cbn [map]. rewrite split_x, split_y.
  split.
  { repeat f_equal.
    - do 3 apply lookup_app_l_Some. apply list_lookup_insert_eq, Hkx.
    - do 3 apply lookup_app_l_Some. apply list_lookup_insert_eq, Hky.
    - do 2 apply lookup_app_l_Some. apply list_lookup_middle.
      rewrite length_insert. lia.
    - do 2 apply lookup_app_l_Some. apply list_lookup_middle.
      rewrite length_insert. lia.
    - apply lookup_app_l_Some, list_lookup_middle.
      rewrite length_app, length_insert. simpl. lia.
    - apply lookup_app_l_Some, list_lookup_middle.
      rewrite length_app, length_insert. simpl. lia.
    - apply list_lookup_middle. rewrite !length_app, length_insert. simpl. lia.
    - apply list_lookup_middle. rewrite !length_app, length_insert. simpl. lia. }
  cbn [Rv_add Rv_sub Rv_mul Rv_quarter RealvOps_Q].
  repeat split; rewrite !Qred_correct; ring.
Qed.


(** The same set over binary64 floats: every number involved is a small
    dyadic, so the float run agrees with the exact one. *)
Lemma split_positions_onePencil_float :
  exists s',
    split 0 4%float 4%float onePencilF = Ok s' /\
    childPositions s' 0 1
    = [(Some (-1)%float, Some 1%float); (Some 0%float, Some 2%float);
       (Some (-2)%float, Some 0%float); (Some 0%float, Some 0%float)].
Proof. eexists. split; [vm_compute; reflexivity|]. reflexivity. Qed.


(** *** Pencils too long for the [uint] counters

    Two [addPencil] calls with [2 ^ 31] cells each build a set with [N = 2]
    whose [sumOfLengths] has wrapped to 0.  In [getIds(1)] [ibeg] is
    [2 ^ 31] and [iend] is [2 ^ 32], above every value of the [uint] loop
    index, so the copy loop cannot exit and [split(1, ..)] never gets to
    produce a pencil. *)

Lemma N_two_pencils (l : list CellID) (xa ya xb yb : Q) (fa fb : bool)
    (pa pb : list Z) :
  N (addPencil l xb yb fb pb (addPencil l xa ya fa pa empty)) = 2.
Proof. reflexivity. Qed.

Lemma getIds_second_half (l : list CellID) (xa ya xb yb : Q) (fa fb : bool)
    (pa pb : list Z) :
  Z.of_nat (length l) = 2 ^ 31 ->
  getIds 1 (addPencil l xb yb fb pb (addPencil l xa ya fa pa empty)) = Undefined.
Proof.
  intros Hlen. unfold getIds, addPencil.
  cbn [N lengthOfPencils ids sumOfLengths empty]. rewrite Hlen.
  vm_compute. reflexivity.
Qed.

Lemma split_second_half (l : list CellID) (xa ya xb yb dx dy : Q) (fa fb : bool)
    (pa pb : list Z) :
  Z.of_nat (length l) = 2 ^ 31 ->
  split 1 dx dy (addPencil l xb yb fb pb (addPencil l xa ya fa pa empty))
  = Undefined.
Proof.
  intros Hlen. unfold split. rewrite (getIds_second_half _ _ _ _ _ _ _ _ _ Hlen).
  reflexivity.
Qed.

Lemma sumOfLengths_two_halves (l : list CellID) (xa ya xb yb : Q) (fa fb : bool)
    (pa pb : list Z) :
  Z.of_nat (length l) = 2 ^ 31 ->
  sumOfLengths (addPencil l xb yb fb pb (addPencil l xa ya fa pa empty)) = 0.
Proof.
  intros Hlen. unfold addPencil. cbn [sumOfLengths empty]. rewrite Hlen.
  vm_compute. reflexivity.
Qed.

Lemma length_half : Z.of_nat (length (replicate (Z.to_nat (2 ^ 31)) (0 : CellID))) = 2 ^ 31.
Proof. rewrite length_replicate. apply Z2Nat.id. discriminate. Qed.

(** C3 fails as stated: the set below is built by two [addPencil] calls and
    1 is the index of one of its two pencils, yet [split(1, 4, 4)] does not
    return, so no four pencils are produced. *)
Lemma split_produces_nothing_after_wrap :
  reachable (addPencil (replicate (Z.to_nat (2 ^ 31)) 0) 0%Q 0%Q false []
               (addPencil (replicate (Z.to_nat (2 ^ 31)) 0) 0%Q 0%Q false []
                  empty))
  /\ 0 <= 1
     < N (addPencil (replicate (Z.to_nat (2 ^ 31)) 0) 0%Q 0%Q false []
            (addPencil (replicate (Z.to_nat (2 ^ 31)) 0) 0%Q 0%Q false []
               empty))
  /\ split 1 (4 # 1)%Q (4 # 1)%Q
       (addPencil (replicate (Z.to_nat (2 ^ 31)) 0) 0%Q 0%Q false []
          (addPencil (replicate (Z.to_nat (2 ^ 31)) 0) 0%Q 0%Q false []
             empty))
     = Undefined.
Proof.
  split; [apply reach_addPencil, reach_addPencil, reach_empty|].
  split; [rewrite N_two_pencils; lia|].
  apply split_second_half, length_half.
Qed.

(** C10 fails as stated: on a set built by two [addPencil] calls, whose
    counter [sumOfLengths] has wrapped to 0 under [2 ^ 32] entries of [ids],
    [split] of the second pencil returns no set for any extents, so there is
    no set after the call in which the pencils could be found unchanged. *)
Lemma split_returns_no_set_after_wrap :
  reachable (addPencil (replicate (Z.to_nat (2 ^ 31)) 0) (1 # 2)%Q 0%Q true [2]
               (addPencil (replicate (Z.to_nat (2 ^ 31)) 0) 0%Q 0%Q true [1]
                  empty))
  /\ N (addPencil (replicate (Z.to_nat (2 ^ 31)) 0) (1 # 2)%Q 0%Q true [2]
          (addPencil (replicate (Z.to_nat (2 ^ 31)) 0) 0%Q 0%Q true [1]
             empty)) = 2
  /\ sumOfLengths
       (addPencil (replicate (Z.to_nat (2 ^ 31)) 0) (1 # 2)%Q 0%Q true [2]
          (addPencil (replicate (Z.to_nat (2 ^ 31)) 0) 0%Q 0%Q true [1]
             empty)) = 0
  /\ forall dx dy : Q,
       ~ exists s',
           split 1 dx dy
             (addPencil (replicate (Z.to_nat (2 ^ 31)) 0) (1 # 2)%Q 0%Q true [2]
                (addPencil (replicate (Z.to_nat (2 ^ 31)) 0) 0%Q 0%Q true [1]
                   empty))
           = Ok s'.
Proof.
  split; [apply reach_addPencil, reach_addPencil, reach_empty|].
  split; [apply N_two_pencils|].
  split; [apply sumOfLengths_two_halves, length_half|].
  intros dx dy [s' Hrun].
  rewrite (split_second_half _ _ _ _ _ dx dy _ _ _ _ length_half) in Hrun.
  discriminate.
Qed.

End setOfPencilsExamples.


(** ** Part II: the remap along a pencil and the remote contributions

    [propagatePencil], [trans_map_1d_amr] and
    [update_remote_mapping_contribution] are declared in the header and
    defined in a translation unit that is not part of the sources at hand.
    They are modelled here from the design description.

    The densities are floating-point values ([Vec], lanes of [Realv]).  The
    model is parametric in their arithmetic and is instantiated with exact
    rationals, for the properties that hold when nothing is rounded, and with
    binary64 floats, to see what rounding does to them. *)

Module Remap.

Inductive fatalKind : Type :=
| CorruptMeshTopology
| InsufficientStencilWidth
| CflViolation
| TransferMismatch.

Inductive result (A : Type) : Type :=
| Done (a : A)
| Fatal (e : fatalKind).
Arguments Done {A} a.
Arguments Fatal {A} e.

(** *** Arithmetic of the densities *)

Class VecOps (D : Type) : Type := {
  vzero : D;
  vone : D;
  vtwo : D;
  vadd : D -> D -> D;
  vsub : D -> D -> D;
  vmul : D -> D -> D;
  vdiv : D -> D -> D;
  vabs : D -> D;
  vleb : D -> D -> bool;
  vofZ : Z -> D;
  vfloor : D -> Z
}.

#[global] Instance VecOps_Q : VecOps Q := {
  vzero := 0%Q;
  vone := 1%Q;
  vtwo := 2%Q;
  vadd := Qplus;
  vsub := Qminus;
  vmul := Qmult;
  vdiv := Qdiv;
  vabs := Qabs;
  vleb := Qle_bool;
  vofZ := inject_Z;
  vfloor := Qfloor
}.

(** The integer a binary64 value holds, rounded down; 0 for infinities and
    NaN. *)
Definition floorOfFloat (f : float) : Z :=
  match Prim2SF f with
  | S754_finite negative m e =>
      let n := if negative then Z.neg m else Z.pos m in
      if (0 <=? e)%Z then (n * 2 ^ e)%Z else (n / 2 ^ (- e))%Z
  | _ => 0%Z
  end.

Definition floatOfZ (z : Z) : float :=
  if (0 <=? z)%Z then PrimFloat.of_uint63 (Uint63.of_Z z)
  else PrimFloat.opp (PrimFloat.of_uint63 (Uint63.of_Z (- z))).

#[global] Instance VecOps_float : VecOps float := {
  vzero := 0%float;
  vone := 1%float;
  vtwo := 2%float;
  vadd := PrimFloat.add;
  vsub := PrimFloat.sub;
  vmul := PrimFloat.mul;
  vdiv := PrimFloat.div;
  vabs := PrimFloat.abs;
  vleb := PrimFloat.leb;
  vofZ := floatOfZ;
  vfloor := floorOfFloat
}.

(** The rational a finite binary64 value stands for. *)
Definition exactValue (f : float) : Q :=
  match Prim2SF f with
  | S754_finite negative m e =>
      let magnitude :=
        if (0 <=? e)%Z then inject_Z (Z.pos m * 2 ^ e)
        else (Z.pos m # Z.to_pos (2 ^ (- e)))%Q in
      if negative then Qopp magnitude else magnitude
  | _ => 0%Q
  end.

Section Sums.
Context {D : Type} `{Ops : VecOps D}.

Definition vsum (l : list D) : D := foldr vadd vzero l.

End Sums.

Abbreviation Qsum := (@vsum Q VecOps_Q).

(** *** The remap of one pencil *)

Declare Scope vec_scope.
Delimit Scope vec_scope with V.
Infix "+" := vadd : vec_scope.
Infix "-" := vsub : vec_scope.
Infix "*" := vmul : vec_scope.
Infix "/" := vdiv : vec_scope.

Record remapped {D : Type} : Type := {
  inside : list D;
  lowOut : D;
  highOut : D;
  negativeCount : nat
}.
Arguments remapped D : clear implicits.

Section Kernel.
Context {D : Type} `{Ops : VecOps D}.
Local Open Scope vec_scope.

(** Modelled from the spec: the displacement check of the missing
    [propagatePencil].  Signed displacement in cell widths (velocity times
    [dt] over the cell width), and the bound it is checked against: half the
    pencil's length. *)
Definition displacement (v dt dz : D) : D := v * dt / dz.
Definition halfLength (n : nat) : D := vofZ (Z.of_nat n) / vtwo.
Definition cflViolated (n : nat) (d : D) : bool :=
  vleb (halfLength n) (vabs d).

(** Mass of the linear profile [c + s (xi - 1/2)], [0 <= xi <= 1], between
    [a] and [b]: the profile has cell average [c] whatever the slope. *)
Definition integrate (c s a b : D) : D :=
  c * (b - a) + s * ((b * b - a * a) / vtwo - (b - a) / vtwo).

(** Modelled from the spec: the recovered [NegativeDensity] case of the
    missing [propagatePencil].  The profile of a cell is integrated over the
    part that crosses the cell's face.  An integral below zero is replaced
    by zero.  When the reconstruction overshoots the other way and a
    positive integral exceeds the cell's content [c], the density left
    behind would be negative: it is replaced by zero.  Both cases are
    counted. *)
Definition clampNegative (m : D) : D := if vleb vzero m then m else vzero.
Definition isNegative (m : D) : bool := negb (vleb vzero m).
Definition overshoot (c u : D) : bool := negb (vleb u vzero) && negb (vleb u c).
Definition staying (c u : D) : D := if overshoot c u then vzero else c - u.

(** Moving a list of per-cell amounts by [k] cells along an open pencil:
    what leaves through the low end, what lands inside, what leaves through
    the high end.  Whatever lands beyond an end, however far, is handed to
    that end.  A position that no cell of the pencil reaches gets zero from
    this pencil: what enters a pencil through an end is not produced by its
    own remap but written to its cell as an increment when the pencil on the
    other side of that end is remapped (section 4.3, step 4, and the
    increments of a [RemoteContribution]); adding it here as well would
    count it twice. *)
Definition shiftOpen (k : Z) (l : list D) : D * list D * D :=
  let n := length l in
  if (0 <=? k)%Z then
    let m := Nat.min (Z.to_nat k) n in
    (vzero, replicate m vzero ++ take (n - m) l, vsum (drop (n - m) l))
  else
    let m := Nat.min (Z.to_nat (- k)) n in
    (vsum (take m l), drop m l ++ replicate m vzero, vzero).

(** The same along a periodic pencil: the amounts wrap around. *)
Definition rotate (k : Z) (l : list D) : list D :=
  let n := length l in
  let r := Z.to_nat (k mod Z.of_nat n) in
  drop (n - r) l ++ take (n - r) l.

(** The limiter is left open by the design: it maps the backward and the
    forward difference of the cell averages to the slope of the profile. *)
Variable limiter : D -> D -> D.

(** Cell average at position [i] of the pencil.  A periodic pencil wraps.
    Beyond the ends of an open pencil lie the source cells gathered for it,
    one on each side ([None] at the boundary of the domain); they are used
    for the reconstruction only. *)
Definition cellAt (periodic : bool) (lowSample highSample : option D)
    (vals : list D) (i : Z) : option D :=
  let n := Z.of_nat (length vals) in
  if ((0 <=? i) && (i <? n))%Z then vals !! Z.to_nat i
  else if periodic then vals !! Z.to_nat (i mod n)
  else if (i =? -1)%Z then lowSample
  else if (i =? n)%Z then highSample
  else None.

(** Limited slope in cell [i], whose average is [c]; a cell without a
    neighbour on one side gets the flat profile. *)
Definition slope (periodic : bool) (lowSample highSample : option D)
    (vals : list D) (i : nat) (c : D) : D :=
  match cellAt periodic lowSample highSample vals (Z.of_nat i - 1),
        cellAt periodic lowSample highSample vals (Z.of_nat i + 1) with
  | Some l, Some r => limiter (c - l) (r - c)
  | _, _ => vzero
  end.

(** Integrated density of the part of each cell that crosses its upper face:
    with [z] the fractional part of the displacement, the part between
    [1 - z] and [1]. *)
Definition crossing (periodic : bool) (lowSample highSample : option D)
    (vals : list D) (z : D) : list D :=
  imap (fun i c =>
          integrate c (slope periodic lowSample highSample vals i c)
            (vone - z) vone) vals.

(** Modelled from the spec: the body of [propagatePencil] is missing from
    the sources; the header declares
    [void propagatePencil(Vec* dz, Vec* values, ..., const Realv dt, ...,
    const uint lengthOfPencil, bool debugflag)].  Here [vals] are the cell
    averages of the pencil, [lowSample] and [highSample] the source cells
    next to its ends, [v] the velocity of the sample along the dimension and
    [dz] the cell width, one for the whole pencil since its cells are of one
    refinement level; the function has no error result, and a fatal error
    ends the run, which is [Fatal] here.  Following section 4.3 of the
    design: (1) the displacement is [v * dt / dz] and a displacement of at
    least half the pencil's length is the fatal [CflViolation]; (2) each cell
    gets a limited linear profile; (3) the profile is integrated over the part
    of the cell that crosses its face, with the recovery from negative
    densities; with [k] the integer part of the displacement, the crossing
    part of cell [i] goes to cell [i + k + 1] and the rest of the cell's
    content to cell [i + k]; (4) what lands in the pencil is returned in
    [inside], what lands beyond an open pencil's ends in [lowOut] and
    [highOut], as increments for the target cells there (the header gathers
    source cells and target cells of a pencil separately, with
    [compute_spatial_source_cells_for_pencil] and
    [compute_spatial_target_cells_for_pencils]). *)
Definition propagatePencil (periodic : bool) (lowSample highSample : option D)
    (vals : list D) (v dt dz : D) : result (remapped D) :=
  let d := displacement v dt dz in
  if cflViolated (length vals) d then Fatal CflViolation
  else
    let k := vfloor d in
    let z := d - vofZ k in
    let raw := crossing periodic lowSample highSample vals z in
    let up := clampNegative <$> raw in
    let stay := zip_with staying vals up in
    let negatives :=
      (length (filter (fun m => isNegative m = true) raw)
       + length (filter (fun cu => overshoot cu.1 cu.2 = true) (zip vals up)))%nat in
    if periodic then
      Done {| inside := zip_with vadd (rotate k stay) (rotate (k + 1) up);
              lowOut := vzero; highOut := vzero; negativeCount := negatives |}
    else
      let '(lo1, in1, hi1) := shiftOpen k stay in
      let '(lo2, in2, hi2) := shiftOpen (k + 1) up in
      Done {| inside := zip_with vadd in1 in2;
              lowOut := lo1 + lo2; highOut := hi1 + hi2;
              negativeCount := negatives |}.

(** The minmod limiter: the difference of smaller magnitude when both have
    the same sign, zero otherwise. *)
Definition minmod (a b : D) : D :=
  if vleb vzero a && vleb vzero b then (if vleb a b then a else b)
  else if vleb a vzero && vleb b vzero then (if vleb a b then b else a)
  else vzero.

End Kernel.

(** *** The pass over a set of pencils *)

(** Modelled from the spec: the data of the missing [trans_map_1d_amr].
    What lies beyond an end of an open pencil: the domain boundary, a cell
    owned by this process, or a cell owned by another one.  The cells of a
    pencil are the local cells it propagates. *)
Inductive endTarget : Type :=
| NoCell
| LocalCell (c : CellID)
| RemoteCell (c : CellID) (rank : nat).

Record pencil {D : Type} : Type := {
  cells : list CellID;
  isPeriodic : bool;
  cellWidth : D;
  lowEnd : endTarget;
  highEnd : endTarget
}.

Record RemoteContribution {D : Type} : Type := {
  rcTarget : CellID;
  rcOwner : nat;
  rcPopulation : nat;
  rcIncrements : list D
}.

(** Density storage: one value per population, cell and velocity sample.
    It holds the cells of the process and the mirrors of the cells next to
    them. *)
Definition storage {D : Type} : Type := nat -> CellID -> nat -> D.

Section Pass.
Context {D : Type} `{Ops : VecOps D}.
Local Abbreviation storage := (@storage D).
Local Abbreviation pencil := (@pencil D).
Local Abbreviation RemoteContribution := (@RemoteContribution D).

Definition writeCell (st : storage) (pop : nat) (c : CellID) (k : nat) (val : D)
    : storage :=
  fun pop' c' k' =>
    if decide (pop' = pop /\ c' = c /\ k' = k) then val else st pop' c' k'.

Definition addToCell (st : storage) (pop : nat) (c : CellID) (k : nat) (inc : D)
    : storage :=
  writeCell st pop c k (vadd (st pop c k) inc).

(** The limiter of the reconstruction. *)
Variable limiter : D -> D -> D.

(** Velocity component along [dimension] of each velocity sample of a
    population. *)
Variable velocity : nat -> nat -> list D.

Definition pencilValues (st : storage) (pop : nat) (p : pencil) (k : nat)
    : list D :=
  (fun c => st pop c k) <$> cells p.

(** The source cell next to an end of the pencil, if there is one. *)
Definition endSample (st : storage) (pop : nat) (k : nat) (e : endTarget)
    : option D :=
  match e with
  | NoCell => None
  | LocalCell c => Some (st pop c k)
  | RemoteCell c _ => Some (st pop c k)
  end.

(** Remap of one pencil for the samples [k], [k + 1], ... with velocities
    [vs]; the first fatal error ends it. *)
Fixpoint remapSamples (st : storage) (pop : nat) (dt : D) (p : pencil)
    (k : nat) (vs : list D) : result (list (remapped D)) :=
  match vs with
  | [] => Done []
  | v :: vs' =>
      match propagatePencil limiter (isPeriodic p)
              (endSample st pop k (lowEnd p)) (endSample st pop k (highEnd p))
              (pencilValues st pop p k) v dt (cellWidth p) with
      | Fatal e => Fatal e
      | Done r =>
          match remapSamples st pop dt p (S k) vs' with
          | Fatal e => Fatal e
          | Done rs => Done (r :: rs)
          end
      end
  end.

Fixpoint remapPencils (st : storage) (pop : nat) (dt : D) (vs : list D)
    (ps : list pencil) : result (list (pencil * list (remapped D))) :=
  match ps with
  | [] => Done []
  | p :: ps' =>
      match remapSamples st pop dt p 0 vs with
      | Fatal e => Fatal e
      | Done rs =>
          match remapPencils st pop dt vs ps' with
          | Fatal e => Fatal e
          | Done rest => Done ((p, rs) :: rest)
          end
      end
  end.

(** The cells of a pencil take the remapped values of a sample. *)
Definition writeInside (pop : nat) (k : nat) (st : storage)
    (cvs : list (CellID * D)) : storage :=
  foldl (fun st' cv => writeCell st' pop cv.1 k cv.2) st cvs.

(** The cell beyond an end, when this process owns it, is incremented by
    what left the pencil through that end. *)
Definition writeEnd (pop : nat) (k : nat) (e : endTarget) (amount : D)
    (st : storage) : storage :=
  match e with
  | LocalCell c => addToCell st pop c k amount
  | _ => st
  end.

Fixpoint storeSamples (pop : nat) (p : pencil) (k : nat)
    (rs : list (remapped D)) (st : storage) : storage :=
  match rs with
  | [] => st
  | r :: rs' =>
      storeSamples pop p (S k) rs'
        (writeInside pop k st (zip (cells p) (inside r)))
  end.

Fixpoint addEndSamples (pop : nat) (p : pencil) (k : nat)
    (rs : list (remapped D)) (st : storage) : storage :=
  match rs with
  | [] => st
  | r :: rs' =>
      addEndSamples pop p (S k) rs'
        (writeEnd pop k (highEnd p) (highOut r)
           (writeEnd pop k (lowEnd p) (lowOut r) st))
  end.

(** An end owned by another process is not written: a record with one
    increment per velocity sample is emitted for it. *)
Definition emitEnd (pop : nat) (e : endTarget) (amounts : list D)
    : list RemoteContribution :=
  match e with
  | RemoteCell c rank =>
      [{| rcTarget := c; rcOwner := rank; rcPopulation := pop;
          rcIncrements := amounts |}]
  | _ => []
  end.

Definition emitPencil (pop : nat) (p : pencil) (rs : list (remapped D))
    : list RemoteContribution :=
  emitEnd pop (lowEnd p) (lowOut <$> rs)
  ++ emitEnd pop (highEnd p) (highOut <$> rs).

(** Modelled from the spec: the write step of the missing
    [trans_map_1d_amr].  First every pencil stores the remapped
    values of its own cells; then the cells beyond the ends that this
    process owns, which are cells of other pencils, are incremented; the
    increments for cells of other processes are returned as records.  A
    cell is stored by the one pencil it belongs to before anything is added
    to it, so the outcome does not depend on the order of the pencils. *)
Definition storeResults (pop : nat)
    (results : list (pencil * list (remapped D))) (st : storage) : storage :=
  foldl (fun st' pr => storeSamples pop pr.1 0 pr.2 st') st results.

Definition addEndResults (pop : nat)
    (results : list (pencil * list (remapped D))) (st : storage) : storage :=
  foldl (fun st' pr => addEndSamples pop pr.1 0 pr.2 st') st results.

Definition emitResults (pop : nat)
    (results : list (pencil * list (remapped D))) : list RemoteContribution :=
  concat ((fun pr => emitPencil pop pr.1 pr.2) <$> results).

Definition writeResults (pop : nat)
    (results : list (pencil * list (remapped D))) (st : storage)
    : storage * list RemoteContribution :=
  (addEndResults pop results (storeResults pop results st),
   emitResults pop results).

(** Modelled from the spec: the body of [trans_map_1d_amr] (the design's
    [transportPass]) is missing from the sources.  Every pencil is remapped
    for every velocity sample of the population from the storage as it is
    before the pass; a fatal error fails the pass and nothing is applied;
    otherwise the results are written and the records for remote cells are
    returned with the new storage. *)
Definition trans_map_1d_amr (pencils : list pencil) (dimension : nat) (dt : D)
    (popID : nat) (st : storage) : bool * storage * list RemoteContribution :=
  match remapPencils st popID dt (velocity dimension popID) pencils with
  | Fatal _ => (false, st, [])
  | Done results =>
      let '(st', rcs) := writeResults popID results st in (true, st', rcs)
  end.

(** One record added into the storage of the process [myRank]: every
    increment is added to the sample it belongs to; records for cells of
    other processes are left to be routed. *)
Definition applyRecord (myRank : nat) (st : storage) (rc : RemoteContribution)
    : storage :=
  fun pop c k =>
    if decide (rcOwner rc = myRank /\ pop = rcPopulation rc /\ c = rcTarget rc)
    then vadd (st pop c k) (default vzero (rcIncrements rc !! k))
    else st pop c k.

(** Modelled from the spec: the body of
    [update_remote_mapping_contribution] is missing from the sources.  The
    records arrive in messages; a number of records other than the expected
    one is the fatal [TransferMismatch]; otherwise the records are added
    into the storage message by message, record by record. *)
Definition update_remote_mapping_contribution (myRank : nat) (expected : nat)
    (messages : list (list RemoteContribution)) (st : storage) : result storage :=
  if decide (length (concat messages) = expected)
  then Done (foldl (foldl (applyRecord myRank)) st messages)
  else Fatal TransferMismatch.

End Pass.

(** *** Exact arithmetic: sums of per-cell amounts

    From here on the densities are rationals, until the binary64 runs at
    the end. *)

Local Open Scope Q_scope.

Ltac qarith :=
  cbn [vzero vone vtwo vadd vsub vmul vdiv vabs vleb vofZ vfloor VecOps_Q] in *.

Lemma Qsum_nil : Qsum [] = 0.
Proof. reflexivity. Qed.

Lemma Qsum_cons (c : Q) (l : list Q) : Qsum (c :: l) = c + Qsum l.
Proof. reflexivity. Qed.

Lemma Qsum_app (a b : list Q) : Qsum (a ++ b) == Qsum a + Qsum b.
Proof.
  induction a as [|c a IH]; [rewrite Qsum_nil; simpl app; ring|].
  simpl app. rewrite !Qsum_cons, IH. ring.
Qed.

Lemma Qsum_replicate_0 (m : nat) : Qsum (replicate m 0) == 0.
Proof.
  induction m as [|m IH]; [reflexivity|].
  simpl replicate. rewrite Qsum_cons, IH. ring.
Qed.

Lemma Qsum_take_drop (m : nat) (l : list Q) :
  Qsum (take m l) + Qsum (drop m l) == Qsum l.
Proof. rewrite <- Qsum_app, take_drop. reflexivity. Qed.

Lemma Qsum_zip_plus (a b : list Q) :
  length a = length b -> Qsum (zip_with Qplus a b) == Qsum a + Qsum b.
Proof.
  revert b. induction a as [|c a IH]; intros [|e b] Hlen;
    try discriminate; [reflexivity|].
  simpl zip_with. rewrite !Qsum_cons, IH by (simpl in Hlen; congruence). ring.
Qed.

Lemma Qsum_ext (a b : list Q) : Forall2 Qeq a b -> Qsum a == Qsum b.
Proof.
  induction 1 as [|c e a b Hce _ IH]; [reflexivity|].
  rewrite !Qsum_cons, Hce, IH. reflexivity.
Qed.

Lemma Qsum_nonneg (l : list Q) : Forall (Qle 0) l -> 0 <= Qsum l.
Proof.
  induction 1 as [|c l Hc _ IH]; [apply Qle_refl|].
  rewrite Qsum_cons. lra.
Qed.

Lemma shiftOpen_length (k : Z) (l : list Q) :
  length (shiftOpen k l).1.2 = length l.
Proof.
  unfold shiftOpen. destruct (0 <=? k)%Z; simpl;
    rewrite length_app, length_replicate, ?length_take, ?length_drop; lia.
Qed.

(** Along an open pencil nothing is lost: what leaves and what lands add up
    to what was there. *)
Lemma shiftOpen_sum (k : Z) (l : list Q) :
  (shiftOpen k l).1.1 + Qsum (shiftOpen k l).1.2 + (shiftOpen k l).2 == Qsum l.
Proof.
  unfold shiftOpen. destruct (0 <=? k)%Z; cbn [fst snd]; qarith.
  - rewrite Qsum_app, Qsum_replicate_0.
    pose proof (Qsum_take_drop (length l - Z.to_nat k `min` length l) l). lra.
  - rewrite Qsum_app, Qsum_replicate_0.
    pose proof (Qsum_take_drop (Z.to_nat (- k) `min` length l) l). lra.
Qed.

Lemma rotate_length (k : Z) (l : list Q) : length (rotate k l) = length l.
Proof.
  unfold rotate. rewrite length_app, length_take, length_drop. lia.
Qed.

(** Along a periodic pencil the amounts are only rearranged. *)
Lemma rotate_sum (k : Z) (l : list Q) : Qsum (rotate k l) == Qsum l.
Proof.
  unfold rotate. rewrite Qsum_app.
  pose proof (Qsum_take_drop
                (length l - Z.to_nat (k mod Z.of_nat (length l))) l). lra.
Qed.

(** *** The parts of a remap *)

Section RemapFacts.
Variable limiter : Q -> Q -> Q.

Lemma crossing_length (periodic : bool) (lo hi : option Q) (vals : list Q)
    (z : Q) :
  length (crossing limiter periodic lo hi vals z) = length vals.
Proof. unfold crossing. apply length_imap. Qed.

(** The crossing and the staying part of every cell for the displacement
    [d]. *)
Definition upOf (periodic : bool) (lo hi : option Q) (vals : list Q) (d : Q)
    : list Q :=
  clampNegative
    <$> crossing limiter periodic lo hi vals (d - inject_Z (Qfloor d)).
Definition stayOf (periodic : bool) (lo hi : option Q) (vals : list Q) (d : Q)
    : list Q :=
  zip_with staying vals (upOf periodic lo hi vals d).

Lemma upOf_length (periodic : bool) (lo hi : option Q) (vals : list Q) (d : Q) :
  length (upOf periodic lo hi vals d) = length vals.
Proof. unfold upOf. rewrite length_fmap. apply crossing_length. Qed.

Lemma stayOf_length (periodic : bool) (lo hi : option Q) (vals : list Q) (d : Q) :
  length (stayOf periodic lo hi vals d) = length vals.
Proof.
  unfold stayOf. rewrite length_zip_with_l_eq; [reflexivity|].
  symmetry. apply upOf_length.
Qed.

Lemma propagatePencil_periodic (lo hi : option Q) (vals : list Q) (v dt dz : Q) :
  cflViolated (length vals) (displacement v dt dz) = false ->
  exists count,
    propagatePencil limiter true lo hi vals v dt dz
    = Done {| inside := zip_with Qplus
                          (rotate (Qfloor (displacement v dt dz))
                             (stayOf true lo hi vals (displacement v dt dz)))
                          (rotate (Qfloor (displacement v dt dz) + 1)
                             (upOf true lo hi vals (displacement v dt dz)));
              lowOut := 0; highOut := 0; negativeCount := count |}.
Proof.
  intros Hcfl. unfold propagatePencil. rewrite Hcfl. eexists. reflexivity.
Qed.

Lemma propagatePencil_open (lo hi : option Q) (vals : list Q) (v dt dz : Q) :
  cflViolated (length vals) (displacement v dt dz) = false ->
  exists count,
    let d := displacement v dt dz in
    let s1 := shiftOpen (Qfloor d) (stayOf false lo hi vals d) in
    let s2 := shiftOpen (Qfloor d + 1) (upOf false lo hi vals d) in
    propagatePencil limiter false lo hi vals v dt dz
    = Done {| inside := zip_with Qplus s1.1.2 s2.1.2;
              lowOut := s1.1.1 + s2.1.1; highOut := s1.2 + s2.2;
              negativeCount := count |}.
Proof.
  intros Hcfl. unfold propagatePencil. rewrite Hcfl. cbv zeta. qarith.
  fold (upOf false lo hi vals (displacement v dt dz)).
  fold (stayOf false lo hi vals (displacement v dt dz)).
  destruct (shiftOpen (Qfloor (displacement v dt dz))
              (stayOf false lo hi vals (displacement v dt dz))) as [[lo1 in1] hi1].
  destruct (shiftOpen (Qfloor (displacement v dt dz) + 1)
              (upOf false lo hi vals (displacement v dt dz))) as [[lo2 in2] hi2].
  eexists. reflexivity.
Qed.

Lemma cflViolated_false (n : nat) (d : Q) :
  cflViolated n d = false <-> Qabs d < halfLength n.
Proof.
  unfold cflViolated. qarith. split.
  - intros Hb. apply Qnot_le_lt. intros Hle.
    apply Qle_bool_iff in Hle. congruence.
  - intros Hlt. destruct (Qle_bool (halfLength n) (Qabs d)) eqn:Hb; [|reflexivity].
    apply Qle_bool_iff in Hb. lra.
Qed.

Lemma cflViolated_true (n : nat) (d : Q) :
  cflViolated n d = true <-> halfLength n <= Qabs d.
Proof. unfold cflViolated. qarith. apply Qle_bool_iff. Qed.

(** The remap of a pencil that passes the displacement check returns a
    value for each cell of the pencil; nothing leaves a periodic pencil, and
    what lands in the pencil and beyond its ends is what stays of the cells
    and what crosses out of them. *)
Lemma propagatePencil_total (periodic : bool) (lo hi : option Q)
    (vals : list Q) (v dt dz : Q) :
  cflViolated (length vals) (displacement v dt dz) = false ->
  exists r,
    propagatePencil limiter periodic lo hi vals v dt dz = Done r /\
    length (inside r) = length vals /\
    Qsum (inside r) + lowOut r + highOut r
    == Qsum (stayOf periodic lo hi vals (displacement v dt dz))
       + Qsum (upOf periodic lo hi vals (displacement v dt dz)) /\
    (periodic = true -> lowOut r = 0 /\ highOut r = 0).
Proof.
  intros Hcfl. set (d := displacement v dt dz).
  destruct periodic.
  - destruct (propagatePencil_periodic lo hi vals v dt dz Hcfl) as [count ->].
    eexists. split; [reflexivity|]. cbn [inside lowOut highOut]. fold d.
    split; [|split; [|auto]].
    + rewrite length_zip_with_l_eq; rewrite !rotate_length;
        [apply stayOf_length | rewrite stayOf_length, upOf_length; reflexivity].
    + rewrite Qsum_zip_plus
        by (rewrite !rotate_length, stayOf_length, upOf_length; reflexivity).
      rewrite !rotate_sum. lra.
  - destruct (propagatePencil_open lo hi vals v dt dz Hcfl) as [count Hrun].
    cbv zeta in Hrun. fold d in Hrun. rewrite Hrun.
    eexists. split; [reflexivity|]. cbn [inside lowOut highOut].
    split; [|split; [|discriminate]].
    + rewrite length_zip_with_l_eq; rewrite !shiftOpen_length;
        [apply stayOf_length | rewrite stayOf_length, upOf_length; reflexivity].
    + rewrite Qsum_zip_plus
        by (rewrite !shiftOpen_length, stayOf_length, upOf_length; reflexivity).
      pose proof (shiftOpen_sum (Qfloor d) (stayOf false lo hi vals d)).
      pose proof (shiftOpen_sum (Qfloor d + 1) (upOf false lo hi vals d)).
      lra.
Qed.

Lemma propagatePencil_Done_cfl (periodic : bool) (lo hi : option Q)
    (vals : list Q) (v dt dz : Q) (r : remapped Q) :
  propagatePencil limiter periodic lo hi vals v dt dz = Done r ->
  cflViolated (length vals) (displacement v dt dz) = false.
Proof.
  intros Hrun. unfold propagatePencil in Hrun.
  destruct (cflViolated (length vals) (displacement v dt dz));
    [discriminate | reflexivity].
Qed.

End RemapFacts.

(** *** The displacement check *)

Section Cfl.
Variable limiter : Q -> Q -> Q.

(** For a positive cell width the displacement reaches half the pencil's
    length, counted in cells, exactly when the sample travels at least half
    the length of the pencil. *)
Lemma displacement_bound (n : nat) (v dt dz : Q) :
  0 < dz ->
  (halfLength n <= Qabs (displacement v dt dz)
   <-> inject_Z (Z.of_nat n) * dz <= 2 * Qabs (v * dt)).
Proof.
  intros Hdz. unfold halfLength, displacement. qarith.
  assert (Habs : Qabs (v * dt / dz) == Qabs (v * dt) / dz).
  { unfold Qdiv. rewrite Qabs_Qmult.
    rewrite (Qabs_pos (/ dz)); [reflexivity|].
    apply Qlt_le_weak, Qinv_lt_0_compat, Hdz. }
  rewrite Habs. set (a := Qabs (v * dt)). set (m := inject_Z (Z.of_nat n)).
  assert (Ehalf : m / 2 == m * (1 # 2)) by field. rewrite Ehalf.
  split; intros H.
  - apply (Qmult_le_r _ _ dz Hdz) in H.
    assert (E : a / dz * dz == a) by (field; lra).
    rewrite E in H. nra.
  - apply (Qle_shift_div_l _ _ _ Hdz). nra.
Qed.


End Cfl.

(** *** A pass with [dt = 0] *)

Section ZeroDt.
Variable limiter : Q -> Q -> Q.

Definition isZero (m : Q) : Prop := m == 0.

Lemma Qsum_zeros (l : list Q) : Forall isZero l -> Qsum l == 0.
Proof.
  induction 1 as [|m l Hm _ IH]; [reflexivity|].
  unfold isZero in Hm. rewrite Qsum_cons, Hm, IH. ring.
Qed.

Lemma zip_plus_zeros (a vals b : list Q) :
  Forall2 Qeq a vals -> Forall isZero b -> length b = length a ->
  Forall2 Qeq (zip_with Qplus a b) vals.
Proof.
  intros Ha. revert b.
  induction Ha as [|c e a vals Hce _ IH]; intros [|m b] Hb Hlen;
    simpl in *; try discriminate; constructor.
  - apply Forall_cons in Hb as [Hm _]. unfold isZero in Hm. rewrite Hm, Hce. ring.
  - apply Forall_cons in Hb as [_ Hb]. apply IH; [exact Hb | congruence].
Qed.

(** Nothing crosses: everything stays. *)
Lemma staying_zero (c u : Q) : u == 0 -> staying c u == c.
Proof.
  intros Hu. unfold staying, overshoot. qarith.
  assert (Hle : Qle_bool u 0 = true) by (apply Qle_bool_iff; lra).
  rewrite Hle. simpl. lra.
Qed.

Lemma zip_staying_zeros (vals b : list Q) :
  Forall isZero b -> length b = length vals ->
  Forall2 Qeq (zip_with staying vals b) vals.
Proof.
  revert b. induction vals as [|c vals IH]; intros [|m b] Hb Hlen;
    simpl in *; try discriminate; constructor.
  - apply Forall_cons in Hb as [Hm _]. apply staying_zero, Hm.
  - apply Forall_cons in Hb as [_ Hb]. apply IH; [exact Hb | congruence].
Qed.

Lemma rotate_Forall (P : Q -> Prop) (k : Z) (l : list Q) :
  Forall P l -> Forall P (rotate k l).
Proof.
  intros Hl. unfold rotate.
  apply Forall_app. split; [apply Forall_drop | apply Forall_take]; exact Hl.
Qed.

Lemma shiftOpen_zeros (k : Z) (l : list Q) :
  Forall isZero l ->
  isZero (shiftOpen k l).1.1 /\ Forall isZero (shiftOpen k l).1.2
  /\ isZero (shiftOpen k l).2.
Proof.
  intros Hl. unfold shiftOpen. destruct (0 <=? k)%Z; cbn [fst snd]; qarith.
  - split; [reflexivity|]. split.
    + apply Forall_app. split;
        [apply Forall_replicate; reflexivity | apply Forall_take, Hl].
    + apply Qsum_zeros, Forall_drop, Hl.
  - split; [apply Qsum_zeros, Forall_take, Hl|]. split; [|reflexivity].
    apply Forall_app. split;
      [apply Forall_drop, Hl | apply Forall_replicate; reflexivity].
Qed.

Lemma rotate_0 (l : list Q) : rotate 0 l = l.
Proof.
  unfold rotate. rewrite Zmod_0_l. simpl.
  rewrite Nat.sub_0_r, drop_all, firstn_all. reflexivity.
Qed.

Lemma shiftOpen_0 (l : list Q) : shiftOpen 0 l = (0, l, Qsum []).
Proof.
  unfold shiftOpen. simpl.
  rewrite Nat.sub_0_r, drop_all, firstn_all. reflexivity.
Qed.

Lemma displacement_0 (v dz : Q) : displacement v 0 dz == 0.
Proof. unfold displacement. qarith. unfold Qdiv. ring. Qed.

Lemma integrate_empty (c s z : Q) : z == 0 -> integrate c s (1 - z) 1 == 0.
Proof. intros Hz. unfold integrate. qarith. rewrite Hz. field. Qed.

Lemma clampNegative_zero (m : Q) : m == 0 -> clampNegative m == 0.
Proof.
  intros Hm. unfold clampNegative. qarith.
  destruct (Qle_bool 0 m); [exact Hm | reflexivity].
Qed.

(** With no displacement nothing crosses a face. *)
Lemma upOf_zero (periodic : bool) (lo hi : option Q) (vals : list Q) (d : Q) :
  d == 0 -> Forall isZero (upOf limiter periodic lo hi vals d).
Proof.
  intros Hd. unfold upOf, crossing.
  assert (Hz : d - inject_Z (Qfloor d) == 0).
  { rewrite (Qfloor_comp d 0 Hd). change (inject_Z (Qfloor 0)) with 0. lra. }
  apply Forall_fmap, Forall_lookup. intros i m Hi.
  rewrite list_lookup_imap in Hi.
  destruct (vals !! i) as [c|]; simpl in Hi; [|discriminate].
  injection Hi as <-. simpl.
  apply clampNegative_zero. qarith. apply integrate_empty, Hz.
Qed.

(** With [dt = 0] the remap of a non-empty pencil returns the input values
    and sends nothing through the ends. *)
Lemma propagatePencil_zero_dt (periodic : bool) (lo hi : option Q)
    (vals : list Q) (v dz : Q) (r : remapped Q) :
  propagatePencil limiter periodic lo hi vals v 0 dz = Done r ->
  Forall2 Qeq (inside r) vals /\ lowOut r == 0 /\ highOut r == 0.
Proof.
  intros Hrun.
  pose proof (displacement_0 v dz) as Hd.
  assert (Hk : Qfloor (displacement v 0 dz) = 0%Z)
    by (rewrite (Qfloor_comp _ 0 Hd); reflexivity).
  pose proof (upOf_zero periodic lo hi vals _ Hd) as Hup.
  pose proof (upOf_length limiter periodic lo hi vals (displacement v 0 dz))
    as Hlen.
  assert (Hstay : Forall2 Qeq
                    (stayOf limiter periodic lo hi vals (displacement v 0 dz))
                    vals)
    by (apply zip_staying_zeros; assumption).
  pose proof (propagatePencil_Done_cfl _ _ _ _ _ _ _ _ _ Hrun) as Hc.
  destruct periodic.
  - destruct (propagatePencil_periodic limiter lo hi vals v 0 dz Hc)
      as [count Hr].
    match type of Hr with _ = Done ?rec => assert (E : r = rec) by congruence end.
    rewrite E. cbn [inside lowOut highOut].
    rewrite Hk. simpl Z.add. rewrite rotate_0.
    split; [|split; reflexivity].
    apply zip_plus_zeros; [exact Hstay | apply rotate_Forall, Hup|].
    rewrite rotate_length, stayOf_length. exact Hlen.
  - destruct (propagatePencil_open limiter lo hi vals v 0 dz Hc) as [count Hr].
    cbv zeta in Hr.
    match type of Hr with _ = Done ?rec => assert (E : r = rec) by congruence end.
    rewrite E. cbn [inside lowOut highOut].
    rewrite Hk. simpl Z.add. rewrite shiftOpen_0. cbn [fst snd].
    destruct (shiftOpen_zeros 1 _ Hup) as (Hlo & Hin & Hhi).
    unfold isZero in Hlo, Hhi.
    split; [|split].
    + apply zip_plus_zeros; [exact Hstay | exact Hin|].
      rewrite shiftOpen_length, stayOf_length. exact Hlen.
    + rewrite Hlo. ring.
    + rewrite Hhi. rewrite Qsum_nil. ring.
Qed.

End ZeroDt.

Section ZeroDtPass.
Variable limiter : Q -> Q -> Q.
Variable velocity : nat -> nat -> list Q.

(** [st] holds the same densities as [st0]. *)
Definition sameAs (st0 st : storage) : Prop :=
  forall pop c k, st pop c k == st0 pop c k.

Definition zeroRecords (rcs : list RemoteContribution) : Prop :=
  Forall (fun rc => Forall isZero (rcIncrements rc)) rcs.

Lemma writeCell_same (st0 st : storage) (pop : nat) (c : CellID) (k : nat)
    (val : Q) :
  sameAs st0 st -> val == st0 pop c k -> sameAs st0 (writeCell st pop c k val).
Proof.
  intros Hst Hval pop' c' k'. unfold writeCell.
  destruct (decide (pop' = pop /\ c' = c /\ k' = k)) as [(-> & -> & ->)|_];
    [exact Hval | apply Hst].
Qed.

Lemma addToCell_same (st0 st : storage) (pop : nat) (c : CellID) (k : nat)
    (amount : Q) :
  sameAs st0 st -> amount == 0 -> sameAs st0 (addToCell st pop c k amount).
Proof.
  intros Hst Ha. unfold addToCell. apply writeCell_same; [exact Hst|].
  qarith. rewrite Ha, (Hst pop c k). ring.
Qed.

Lemma writeInside_same (st0 : storage) (pop k : nat) (cvs : list (CellID * Q))
    (st : storage) :
  Forall (fun cv => cv.2 == st0 pop cv.1 k) cvs ->
  sameAs st0 st -> sameAs st0 (writeInside pop k st cvs).
Proof.
  intros Hcvs. revert st. unfold writeInside.
  induction Hcvs as [|cv cvs Hcv _ IH]; intros st Hst; simpl; [exact Hst|].
  apply IH, writeCell_same; assumption.
Qed.

Lemma zip_same_values (f : CellID -> Q) (cs : list CellID) (ins : list Q) :
  Forall2 Qeq ins (f <$> cs) -> Forall (fun cv => cv.2 == f cv.1) (zip cs ins).
Proof.
  revert ins. induction cs as [|c cs IH]; intros ins Hins; simpl in *.
  - constructor.
  - destruct ins as [|m ins]; [constructor|].
    apply Forall2_cons in Hins as [Hm Hins].
    constructor; [exact Hm | apply IH, Hins].
Qed.

Lemma writeEnd_same (st0 st : storage) (pop k : nat) (e : endTarget)
    (amount : Q) :
  sameAs st0 st -> amount == 0 -> sameAs st0 (writeEnd pop k e amount st).
Proof.
  intros Hst Ha. destruct e; simpl; [exact Hst | | exact Hst].
  apply addToCell_same; assumption.
Qed.

(** The results of a pencil for the samples [k], [k + 1], ...: each repeats
    the stored values and sends nothing through the ends. *)
Fixpoint unchangedSamples (st0 : storage) (pop : nat) (p : pencil) (k : nat)
    (rs : list (remapped Q)) : Prop :=
  match rs with
  | [] => True
  | r :: rs' =>
      (Forall2 Qeq (inside r) (pencilValues st0 pop p k)
       /\ lowOut r == 0 /\ highOut r == 0)
      /\ unchangedSamples st0 pop p (S k) rs'
  end.

Lemma remapSamples_zero_dt (st0 : storage) (pop : nat) (p : pencil)
    (vs : list Q) (k : nat) (rs : list (remapped Q)) :
  remapSamples limiter st0 pop 0 p k vs = Done rs ->
  unchangedSamples st0 pop p k rs.
Proof.
  revert k rs. induction vs as [|v vs IH]; intros k rs Hrun; simpl in Hrun.
  - injection Hrun as <-. exact I.
  - destruct (propagatePencil limiter (isPeriodic p)
                (endSample st0 pop k (lowEnd p)) (endSample st0 pop k (highEnd p))
                (pencilValues st0 pop p k) v 0 (cellWidth p)) as [r|e] eqn:Hr;
      [|discriminate].
    destruct (remapSamples limiter st0 pop 0 p (S k) vs) as [rs'|e] eqn:Hrs;
      [|discriminate].
    injection Hrun as <-. simpl. split.
    + apply (propagatePencil_zero_dt limiter _ _ _ _ _ _ _ Hr).
    + apply IH, Hrs.
Qed.

Lemma storeSamples_same (st0 : storage) (pop : nat) (p : pencil)
    (rs : list (remapped Q)) (k : nat) (st : storage) :
  unchangedSamples st0 pop p k rs -> sameAs st0 st ->
  sameAs st0 (storeSamples pop p k rs st).
Proof.
  revert k st. induction rs as [|r rs IH]; intros k st Hrs Hst; simpl;
    [exact Hst|].
  destruct Hrs as [(Hin & Hlo & Hhi) Hrs].
  apply (IH _ _ Hrs).
  apply writeInside_same; [|exact Hst].
  apply (zip_same_values (fun c => st0 pop c k)), Hin.
Qed.

Lemma addEndSamples_same (st0 : storage) (pop : nat) (p : pencil)
    (rs : list (remapped Q)) (k : nat) (st : storage) :
  unchangedSamples st0 pop p k rs -> sameAs st0 st ->
  sameAs st0 (addEndSamples pop p k rs st).
Proof.
  revert k st. induction rs as [|r rs IH]; intros k st Hrs Hst; simpl;
    [exact Hst|].
  destruct Hrs as [(Hin & Hlo & Hhi) Hrs].
  apply (IH _ _ Hrs).
  apply writeEnd_same; [|exact Hhi].
  apply writeEnd_same; [exact Hst | exact Hlo].
Qed.

Lemma unchangedSamples_lowOut (st0 : storage) (pop : nat) (p : pencil)
    (rs : list (remapped Q)) (k : nat) :
  unchangedSamples st0 pop p k rs ->
  Forall isZero (lowOut <$> rs) /\ Forall isZero (highOut <$> rs).
Proof.
  revert k. induction rs as [|r rs IH]; intros k Hrs; simpl.
  - split; constructor.
  - destruct Hrs as [(_ & Hlo & Hhi) Hrs]. destruct (IH _ Hrs) as [H1 H2].
    split; constructor; assumption.
Qed.

Lemma emitPencil_zero (st0 : storage) (pop : nat) (p : pencil)
    (rs : list (remapped Q)) :
  unchangedSamples st0 pop p 0 rs -> zeroRecords (emitPencil pop p rs).
Proof.
  intros Hrs. destruct (unchangedSamples_lowOut _ _ _ _ _ Hrs) as [Hlo Hhi].
  unfold emitPencil, zeroRecords. apply Forall_app. split.
  - destruct (lowEnd p); simpl; repeat constructor. exact Hlo.
  - destruct (highEnd p); simpl; repeat constructor. exact Hhi.
Qed.

Lemma remapPencils_zero_dt (st0 : storage) (pop : nat) (vs : list Q)
    (ps : list pencil) (results : list (pencil * list (remapped Q))) :
  remapPencils limiter st0 pop 0 vs ps = Done results ->
  Forall (fun pr => unchangedSamples st0 pop pr.1 0 pr.2) results.
Proof.
  revert results. induction ps as [|p ps IH]; intros results Hrun;
    simpl in Hrun.
  - injection Hrun as <-. constructor.
  - destruct (remapSamples limiter st0 pop 0 p 0 vs) as [rs|e] eqn:Hrs;
      [|discriminate].
    destruct (remapPencils limiter st0 pop 0 vs ps) as [rest|e] eqn:Hrest;
      [|discriminate].
    injection Hrun as <-. constructor.
    + apply (remapSamples_zero_dt _ _ _ _ _ _ Hrs).
    + apply IH. reflexivity.
Qed.

Lemma storeResults_same (st0 : storage) (pop : nat)
    (results : list (pencil * list (remapped Q))) (st : storage) :
  Forall (fun pr => unchangedSamples st0 pop pr.1 0 pr.2) results ->
  sameAs st0 st -> sameAs st0 (storeResults pop results st).
Proof.
  intros Hres. revert st. unfold storeResults.
  induction Hres as [|[p rs] results Hpr _ IH]; intros st Hst; simpl;
    [exact Hst|].
  apply IH, storeSamples_same; assumption.
Qed.

Lemma addEndResults_same (st0 : storage) (pop : nat)
    (results : list (pencil * list (remapped Q))) (st : storage) :
  Forall (fun pr => unchangedSamples st0 pop pr.1 0 pr.2) results ->
  sameAs st0 st -> sameAs st0 (addEndResults pop results st).
Proof.
  intros Hres. revert st. unfold addEndResults.
  induction Hres as [|[p rs] results Hpr _ IH]; intros st Hst; simpl;
    [exact Hst|].
  apply IH, addEndSamples_same; assumption.
Qed.

Lemma emitResults_zero (st0 : storage) (pop : nat)
    (results : list (pencil * list (remapped Q))) :
  Forall (fun pr => unchangedSamples st0 pop pr.1 0 pr.2) results ->
  zeroRecords (emitResults pop results).
Proof.
  unfold emitResults, zeroRecords.
  induction 1 as [|[p rs] results Hpr _ IH]; simpl; [constructor|].
  apply Forall_app. split; [apply (emitPencil_zero st0), Hpr | exact IH].
Qed.

Lemma applyRecord_zero (rank : nat) (st0 st : storage) (rc : RemoteContribution) :
  Forall isZero (rcIncrements rc) -> sameAs st0 st ->
  sameAs st0 (applyRecord rank st rc).
Proof.
  intros Hrc Hst pop c k. unfold applyRecord. qarith.
  destruct (decide _) as [_|_]; [|apply Hst].
  rewrite (Hst pop c k).
  destruct (rcIncrements rc !! k) as [inc|] eqn:Hk; simpl; [|ring].
  rewrite Forall_lookup in Hrc. specialize (Hrc k inc Hk).
  unfold isZero in Hrc. rewrite Hrc. ring.
Qed.

Lemma applyRecords_zero (rank : nat) (st0 : storage)
    (rcs : list RemoteContribution) (st : storage) :
  zeroRecords rcs -> sameAs st0 st -> sameAs st0 (foldl (applyRecord rank) st rcs).
Proof.
  intros Hrcs. revert st.
  induction Hrcs as [|rc rcs Hrc _ IH]; intros st Hst; simpl; [exact Hst|].
  apply IH, applyRecord_zero; assumption.
Qed.

(** C4: a pass with [dt = 0], whether it succeeds or fails, leaves every
    stored density as it was; every increment of every record it emits is
    zero, so adding the records into the storage of any process leaves that
    storage as it was too. *)
Theorem zero_dt_pass (pencils : list pencil) (dimension popID : nat)
    (st : storage) :
  match trans_map_1d_amr limiter velocity pencils dimension 0 popID st with
  | (_, st', rcs) =>
      (forall pop c k, st' pop c k == st pop c k) /\
      Forall (fun rc => Forall isZero (rcIncrements rc)) rcs /\
      (forall rank remote,
         exists remote',
           update_remote_mapping_contribution rank (length rcs) [rcs] remote
           = Done remote' /\
           forall pop c k, remote' pop c k == remote pop c k)
  end.
Proof.
  unfold trans_map_1d_amr.
  destruct (remapPencils limiter st popID 0 (velocity dimension popID) pencils)
    as [results|e] eqn:Hrun.
  - pose proof (remapPencils_zero_dt _ _ _ _ _ Hrun) as Hres.
    assert (Hst : sameAs st st) by (intros pop c k; reflexivity).
    pose proof (addEndResults_same st popID results _ Hres
                  (storeResults_same st popID results st Hres Hst)) as H1.
    pose proof (emitResults_zero st popID results Hres) as H2.
    unfold writeResults.
    split; [exact H1|]. split; [exact H2|].
    intros rank remote. unfold update_remote_mapping_contribution.
    simpl. rewrite app_nil_r.
    destruct (decide (length (emitResults popID results)
                      = length (emitResults popID results))) as [_|Hne];
      [|congruence].
    eexists. split; [reflexivity|].
    apply applyRecords_zero; [exact H2 | intros pop c k; reflexivity].
  - split; [intros; reflexivity|]. split; [constructor|].
    intros rank remote. eexists. split; [reflexivity|].
    intros; reflexivity.
Qed.

End ZeroDtPass.

(** *** Accumulation of remote contributions *)

Section Accumulation.
Variable myRank : nat.

(** The records that [applyRecord] adds to the cell [c] of population
    [pop] in the storage of the process [myRank]. *)
Definition destinedFor (pop : nat) (c : CellID) (rc : @RemoteContribution Q)
    : Prop :=
  rcOwner rc = myRank /\ rcPopulation rc = pop /\ rcTarget rc = c.

#[local] Instance destinedFor_dec pop c rc : Decision (destinedFor pop c rc).
Proof. unfold destinedFor. apply _. Defined.

(** The increment a record carries for the sample [k]. *)
Definition incrementAt (k : nat) (rc : @RemoteContribution Q) : Q :=
  default 0 (rcIncrements rc !! k).

Lemma applyRecord_adds (st : storage) (rc : RemoteContribution)
    (pop : nat) (c : CellID) (k : nat) :
  applyRecord myRank st rc pop c k
  == st pop c k
     + Qsum (incrementAt k <$> filter (destinedFor pop c) [rc]).
Proof.
  unfold applyRecord. qarith. rewrite filter_cons, filter_nil.
  destruct (decide (rcOwner rc = myRank /\ pop = rcPopulation rc
                    /\ c = rcTarget rc)) as [(Ho & Hp & Hc)|Hno];
    destruct (decide (destinedFor pop c rc)) as [(Ho' & Hp' & Hc')|Hno'].
  - simpl fmap. rewrite Qsum_cons, Qsum_nil. unfold incrementAt. ring.
  - exfalso. apply Hno'. unfold destinedFor. auto.
  - exfalso. apply Hno. auto.
  - simpl fmap. rewrite Qsum_nil. ring.
Qed.

Lemma applyRecords_sum (rcs : list RemoteContribution) (st : storage)
    (pop : nat) (c : CellID) (k : nat) :
  foldl (applyRecord myRank) st rcs pop c k
  == st pop c k
     + Qsum (incrementAt k <$> filter (destinedFor pop c) rcs).
Proof.
  revert st. induction rcs as [|rc rcs IH]; intros st.
  - rewrite filter_nil. cbn [fmap list_fmap foldl]. rewrite Qsum_nil. ring.
  - cbn [foldl]. rewrite IH, applyRecord_adds.
    change (rc :: rcs) with ([rc] ++ rcs).
    rewrite (filter_app _ [rc] rcs), fmap_app, Qsum_app. ring.
Qed.

(** Message by message or all at once, the stored value is the old value
    plus the sum of the increments of the records for the cell. *)
Lemma applyMessages_sum (messages : list (list RemoteContribution))
    (st : storage) (pop : nat) (c : CellID) (k : nat) :
  foldl (foldl (applyRecord myRank)) st messages pop c k
  == st pop c k
     + Qsum (incrementAt k <$> filter (destinedFor pop c) (concat messages)).
Proof.
  revert st. induction messages as [|msg messages IH]; intros st.
  - cbn [foldl concat]. rewrite filter_nil. cbn [fmap list_fmap].
    rewrite Qsum_nil. ring.
  - cbn [foldl concat]. rewrite IH, applyRecords_sum.
    rewrite filter_app, fmap_app, Qsum_app. ring.
Qed.

Lemma Qsum_Permutation (l l' : list Q) : l ≡ₚ l' -> Qsum l == Qsum l'.
Proof.
  induction 1 as [|m l l' _ IH|m1 m2 l|l l' l'' _ IH1 _ IH2].
  - reflexivity.
  - rewrite !Qsum_cons, IH. reflexivity.
  - rewrite !Qsum_cons. ring.
  - rewrite IH1. exact IH2.
Qed.


End Accumulation.

(** *** Monotone input *)

Definition nondecreasing (l : list Q) : Prop :=
  forall i a b, l !! i = Some a -> l !! S i = Some b -> a <= b.
Definition nonincreasing (l : list Q) : Prop :=
  forall i a b, l !! i = Some a -> l !! S i = Some b -> b <= a.
Definition increasing (l : list Q) : Prop :=
  forall i a b, l !! i = Some a -> l !! S i = Some b -> a < b.
Definition decreasing (l : list Q) : Prop :=
  forall i a b, l !! i = Some a -> l !! S i = Some b -> b < a.

(** [s] lies between 0 and [a]. *)
Definition between0 (s a : Q) : Prop := 0 <= s <= a \/ a <= s <= 0.

(** A limiter in the sense of the design: the slope it returns lies between
    zero and each of the two differences, so the profile stays within the
    neighbouring averages. *)
Definition limited (limiter : Q -> Q -> Q) : Prop :=
  forall a b, between0 (limiter a b) a /\ between0 (limiter a b) b.

Ltac Qle_bool_cases :=
  repeat match goal with
         | H : Qle_bool _ _ = true |- _ => apply Qle_bool_iff in H
         | H : Qle_bool ?u ?w = false |- _ =>
             assert (w < u)
               by (apply Qnot_le_lt; intros Hle; apply Qle_bool_iff in Hle;
                   congruence);
             clear H
         end.

Lemma minmod_limited : limited minmod.
Proof.
  intros a b. unfold minmod, between0. qarith.
  destruct (Qle_bool 0 a) eqn:Ha0; destruct (Qle_bool 0 b) eqn:Hb0;
    destruct (Qle_bool a 0) eqn:Ha1; destruct (Qle_bool b 0) eqn:Hb1;
    destruct (Qle_bool a b) eqn:Hab; simpl;
    Qle_bool_cases; split; lra.
Qed.

Lemma clampNegative_spec (m : Q) :
  (0 <= m /\ clampNegative m = m) \/ (m < 0 /\ clampNegative m = 0).
Proof.
  unfold clampNegative. qarith.
  destruct (Qle_bool 0 m) eqn:Hm; Qle_bool_cases; auto.
Qed.

Lemma staying_spec (c u : Q) :
  (0 < u /\ c < u /\ staying c u = 0)
  \/ ((u <= 0 \/ u <= c) /\ staying c u = c - u).
Proof.
  unfold staying, overshoot. qarith.
  destruct (Qle_bool u 0) eqn:Hu; destruct (Qle_bool u c) eqn:Hc; simpl;
    Qle_bool_cases; auto.
Qed.

(** Of two cells, the one with the larger content and the larger crossing
    integral, the integrals differing by no more than the contents, sends
    more across and keeps more. *)
Lemma parts_monotone (va vb ra rb : Q) :
  va <= vb -> 0 <= rb - ra <= vb - va ->
  clampNegative ra <= clampNegative rb /\
  staying va (clampNegative ra) <= staying vb (clampNegative rb).
Proof.
  intros Hv Hr.
  destruct (clampNegative_spec ra) as [[Ha ->]|[Ha ->]];
    destruct (clampNegative_spec rb) as [[Hb ->]|[Hb ->]];
    match goal with
    | |- _ /\ staying ?c ?u <= staying ?e ?w =>
        destruct (staying_spec c u) as [(? & ? & ->)|[[?|?] ->]];
        destruct (staying_spec e w) as [(? & ? & ->)|[[?|?] ->]]
    end; split; lra.
Qed.

Section Monotone.
Variable limiter : Q -> Q -> Q.
Hypothesis Hlimited : limited limiter.

Lemma cellAt_inside (periodic : bool) (lo hi : option Q) (vals : list Q)
    (i : nat) (c : Q) :
  vals !! i = Some c -> cellAt periodic lo hi vals (Z.of_nat i) = Some c.
Proof.
  intros Hi. pose proof (lookup_lt_Some _ _ _ Hi) as Hlt. unfold cellAt.
  destruct (Z.leb_spec 0 (Z.of_nat i)); [|lia].
  destruct (Z.ltb_spec (Z.of_nat i) (Z.of_nat (length vals))); [|lia].
  simpl. rewrite Nat2Z.id. exact Hi.
Qed.

(** The slope in a cell is limited by the difference to its upper
    neighbour ... *)
Lemma slope_forward (periodic : bool) (lo hi : option Q) (vals : list Q)
    (i : nat) (va vb : Q) :
  vals !! i = Some va -> vals !! S i = Some vb ->
  between0 (slope limiter periodic lo hi vals i va) (vb - va).
Proof.
  intros Ha Hb. unfold slope.
  replace (Z.of_nat i + 1)%Z with (Z.of_nat (S i)) by lia.
  rewrite (cellAt_inside periodic lo hi vals (S i) vb Hb).
  destruct (cellAt periodic lo hi vals (Z.of_nat i - 1)) as [vl|]; qarith.
  - apply Hlimited.
  - unfold between0.
    destruct (Qlt_le_dec (vb - va) 0); [right | left]; lra.
Qed.

(** ... and by the difference to its lower neighbour. *)
Lemma slope_backward (periodic : bool) (lo hi : option Q) (vals : list Q)
    (i : nat) (va vb : Q) :
  vals !! i = Some va -> vals !! S i = Some vb ->
  between0 (slope limiter periodic lo hi vals (S i) vb) (vb - va).
Proof.
  intros Ha Hb. unfold slope.
  replace (Z.of_nat (S i) - 1)%Z with (Z.of_nat i) by lia.
  rewrite (cellAt_inside periodic lo hi vals i va Ha).
  destruct (cellAt periodic lo hi vals (Z.of_nat (S i) + 1)) as [vr|]; qarith.
  - apply Hlimited.
  - unfold between0.
    destruct (Qlt_le_dec (vb - va) 0); [right | left]; lra.
Qed.

(** Crossing amounts of two neighbouring cells, in terms of their averages
    and slopes. *)
Lemma integrate_upper (c s z : Q) :
  integrate c s (1 - z) 1 == z * c + (z * (1 - z) * (1 # 2)) * s.
Proof. unfold integrate. qarith. field. Qed.

Lemma crossing_adjacent_up (z va vb sa sb : Q) :
  0 <= z <= 1 -> va <= vb ->
  between0 sa (vb - va) -> between0 sb (vb - va) ->
  0 <= integrate vb sb (1 - z) 1 - integrate va sa (1 - z) 1 <= vb - va.
Proof.
  intros Hz Hab Hsa Hsb. rewrite !integrate_upper.
  unfold between0 in Hsa, Hsb.
  assert (Hsa' : 0 <= sa <= vb - va) by (destruct Hsa; lra).
  assert (Hsb' : 0 <= sb <= vb - va) by (destruct Hsb; lra).
  assert (Hzz : 0 <= z * (1 - z)) by nra.
  set (w := z * (1 - z) * (1 # 2)).
  assert (Hw0 : 0 <= w) by (unfold w; lra).
  assert (Hwz : w <= z) by (unfold w; nra).
  assert (Hw1 : z + w <= 1) by (unfold w; nra).
  assert (0 <= w * sa) by nra. assert (w * sa <= w * (vb - va)) by nra.
  assert (0 <= w * sb) by nra. assert (w * sb <= w * (vb - va)) by nra.
  assert (w * (vb - va) <= z * (vb - va)) by nra.
  assert ((z + w) * (vb - va) <= vb - va) by nra.
  split; nra.
Qed.

Lemma crossing_adjacent_down (z va vb sa sb : Q) :
  0 <= z <= 1 -> vb <= va ->
  between0 sa (vb - va) -> between0 sb (vb - va) ->
  vb - va <= integrate vb sb (1 - z) 1 - integrate va sa (1 - z) 1 <= 0.
Proof.
  intros Hz Hab Hsa Hsb. rewrite !integrate_upper.
  unfold between0 in Hsa, Hsb.
  assert (Hsa' : vb - va <= sa <= 0) by (destruct Hsa; lra).
  assert (Hsb' : vb - va <= sb <= 0) by (destruct Hsb; lra).
  assert (Hzz : 0 <= z * (1 - z)) by nra.
  set (w := z * (1 - z) * (1 # 2)).
  assert (Hw0 : 0 <= w) by (unfold w; lra).
  assert (Hwz : w <= z) by (unfold w; nra).
  assert (Hw1 : z + w <= 1) by (unfold w; nra).
  assert (w * sa <= 0) by nra. assert (w * (vb - va) <= w * sa) by nra.
  assert (w * sb <= 0) by nra. assert (w * (vb - va) <= w * sb) by nra.
  assert (z * (vb - va) <= w * (vb - va)) by nra.
  assert (vb - va <= (z + w) * (vb - va)) by nra.
  split; nra.
Qed.

(** Where the amount of a cell lands: the entry [j] of a moved list is the
    entry [j - k] of the list, as long as that index is in the pencil. *)
Lemma shiftOpen_lookup (k : Z) (l : list Q) (j : nat) :
  (0 <= Z.of_nat j - k < Z.of_nat (length l))%Z -> (j < length l)%nat ->
  (shiftOpen k l).1.2 !! j = l !! Z.to_nat (Z.of_nat j - k).
Proof.
  intros Hi Hj. unfold shiftOpen.
  destruct (Z.leb_spec 0 k) as [Hk|Hk]; cbn [fst snd].
  - rewrite Nat.min_l by lia.
    rewrite lookup_app_r by (rewrite length_replicate; lia).
    rewrite length_replicate, lookup_take_lt by lia.
    f_equal. lia.
  - rewrite Nat.min_l by lia.
    rewrite lookup_app_l by (rewrite length_drop; lia).
    rewrite lookup_drop. f_equal. lia.
Qed.

Lemma rotate_lookup (k : Z) (l : list Q) (j : nat) :
  (0 <= Z.of_nat j - k < Z.of_nat (length l))%Z -> (j < length l)%nat ->
  rotate k l !! j = l !! Z.to_nat (Z.of_nat j - k).
Proof.
  intros Hi Hj. unfold rotate.
  destruct (Z.leb_spec 0 k) as [Hk|Hk].
  - rewrite Z.mod_small by lia.
    rewrite lookup_app_r by (rewrite length_drop; lia).
    rewrite length_drop, lookup_take_lt by lia.
    f_equal. lia.
  - rewrite <- (Z_mod_plus_full k 1 (Z.of_nat (length l))).
    rewrite Z.mod_small by lia.
    rewrite lookup_app_l by (rewrite length_drop; lia).
    rewrite lookup_drop. f_equal. lia.
Qed.

Lemma upOf_lookup (periodic : bool) (lo hi : option Q) (vals : list Q) (d : Q)
    (i : nat) (c : Q) :
  vals !! i = Some c ->
  upOf limiter periodic lo hi vals d !! i
  = Some (clampNegative
            (integrate c (slope limiter periodic lo hi vals i c)
               (1 - (d - inject_Z (Qfloor d))) 1)).
Proof.
  intros Hi. unfold upOf, crossing.
  rewrite list_lookup_fmap, list_lookup_imap, Hi. reflexivity.
Qed.

Lemma stayOf_lookup (periodic : bool) (lo hi : option Q) (vals : list Q)
    (d : Q) (i : nat) (c u : Q) :
  vals !! i = Some c -> upOf limiter periodic lo hi vals d !! i = Some u ->
  stayOf limiter periodic lo hi vals d !! i = Some (staying c u).
Proof.
  intros Hi Hu. unfold stayOf. rewrite lookup_zip_with, Hi. simpl.
  rewrite Hu. reflexivity.
Qed.

Lemma fraction_bounds (d : Q) : 0 <= d - inject_Z (Qfloor d) <= 1.
Proof.
  pose proof (Qfloor_le d) as Hlo. pose proof (Qlt_floor d) as Hhi.
  rewrite inject_Z_plus in Hhi. change (inject_Z 1) with 1 in Hhi. lra.
Qed.

(** Of two neighbouring cells of a non-decreasing pencil the upper one
    sends at least as much across its face and keeps at least as much. *)
Lemma parts_adjacent_up (periodic : bool) (lo hi : option Q) (vals : list Q)
    (d : Q) (i : nat) (va vb : Q) :
  vals !! i = Some va -> vals !! S i = Some vb -> va <= vb ->
  exists ua ub,
    upOf limiter periodic lo hi vals d !! i = Some ua /\
    upOf limiter periodic lo hi vals d !! S i = Some ub /\
    ua <= ub /\ staying va ua <= staying vb ub.
Proof.
  intros Ha Hb Hab.
  eexists. eexists.
  split; [apply (upOf_lookup _ _ _ _ _ _ _ Ha)|].
  split; [apply (upOf_lookup _ _ _ _ _ _ _ Hb)|].
  apply parts_monotone; [exact Hab|].
  apply (crossing_adjacent_up _ va vb _ _ (fraction_bounds d) Hab
           (slope_forward periodic lo hi vals i va vb Ha Hb)
           (slope_backward periodic lo hi vals i va vb Ha Hb)).
Qed.

Lemma parts_adjacent_down (periodic : bool) (lo hi : option Q) (vals : list Q)
    (d : Q) (i : nat) (va vb : Q) :
  vals !! i = Some va -> vals !! S i = Some vb -> vb <= va ->
  exists ua ub,
    upOf limiter periodic lo hi vals d !! i = Some ua /\
    upOf limiter periodic lo hi vals d !! S i = Some ub /\
    ub <= ua /\ staying vb ub <= staying va ua.
Proof.
  intros Ha Hb Hab.
  eexists. eexists.
  split; [apply (upOf_lookup _ _ _ _ _ _ _ Ha)|].
  split; [apply (upOf_lookup _ _ _ _ _ _ _ Hb)|].
  apply parts_monotone; [exact Hab|].
  pose proof (crossing_adjacent_down _ va vb _ _ (fraction_bounds d) Hab
                (slope_forward periodic lo hi vals i va vb Ha Hb)
                (slope_backward periodic lo hi vals i va vb Ha Hb)).
  lra.
Qed.

(** The value of an output cell whose two donors, the cells [i] and [S i],
    are in the pencil: what stays of the upper donor plus what crosses out
    of the lower one. *)
Lemma inside_lookup (periodic : bool) (lo hi : option Q) (vals : list Q)
    (v dt dz : Q) (r : remapped Q) (j i : nat) (cl c ul u : Q) :
  propagatePencil limiter periodic lo hi vals v dt dz = Done r ->
  Z.of_nat j = (Z.of_nat (S i) + Qfloor (displacement v dt dz))%Z ->
  (j < length vals)%nat ->
  vals !! i = Some cl -> vals !! S i = Some c ->
  upOf limiter periodic lo hi vals (displacement v dt dz) !! i = Some ul ->
  upOf limiter periodic lo hi vals (displacement v dt dz) !! S i = Some u ->
  inside r !! j = Some (staying c u + ul).
Proof.
  intros Hrun Hj Hjn Hcl Hc Hul Hu.
  pose proof (propagatePencil_Done_cfl _ _ _ _ _ _ _ _ _ Hrun) as Hcfl.
  pose proof (lookup_lt_Some _ _ _ Hc) as Hin.
  pose proof (stayOf_lookup periodic lo hi vals _ _ _ _ Hc Hu) as Hstay.
  set (d := displacement v dt dz) in *.
  destruct periodic.
  - destruct (propagatePencil_periodic limiter lo hi vals v dt dz Hcfl)
      as [count Hr].
    fold d in Hr.
    match type of Hr with _ = Done ?rec => assert (E : r = rec) by congruence end.
    rewrite E. cbn [inside]. rewrite lookup_zip_with.
    rewrite (rotate_lookup (Qfloor d) (stayOf limiter true lo hi vals d) j)
      by (rewrite ?stayOf_length; lia).
    rewrite (rotate_lookup (Qfloor d + 1) (upOf limiter true lo hi vals d) j)
      by (rewrite ?upOf_length; lia).
    replace (Z.to_nat (Z.of_nat j - Qfloor d)) with (S i) by lia.
    replace (Z.to_nat (Z.of_nat j - (Qfloor d + 1))) with i by lia.
    rewrite Hstay, Hul. reflexivity.
  - destruct (propagatePencil_open limiter lo hi vals v dt dz Hcfl)
      as [count Hr].
    cbv zeta in Hr. fold d in Hr.
    match type of Hr with _ = Done ?rec => assert (E : r = rec) by congruence end.
    rewrite E. cbn [inside]. rewrite lookup_zip_with.
    rewrite (shiftOpen_lookup (Qfloor d) (stayOf limiter false lo hi vals d) j)
      by (rewrite ?stayOf_length; lia).
    rewrite (shiftOpen_lookup (Qfloor d + 1) (upOf limiter false lo hi vals d) j)
      by (rewrite ?upOf_length; lia).
    replace (Z.to_nat (Z.of_nat j - Qfloor d)) with (S i) by lia.
    replace (Z.to_nat (Z.of_nat j - (Qfloor d + 1))) with i by lia.
    rewrite Hstay, Hul. reflexivity.
Qed.

(** The output cells [j] and [j + 1] receive only from cells of the pencil:
    with [k] the integer part of the displacement, their donors
    [j - k - 1], [j - k] and [j - k + 1] are all among the [n] cells. *)
Definition fedFromInside (k : Z) (n : nat) (j : nat) : Prop :=
  (1 <= Z.of_nat j - k /\ Z.of_nat j - k + 1 < Z.of_nat n)%Z.

(** Over the cells whose content comes from neighbouring cells of the
    sequence, monotone input averages give outputs that are monotone in the
    same direction. *)
Lemma remap_monotone_fed (periodic : bool) (lo hi : option Q)
    (vals : list Q) (v dt dz : Q) (r : remapped Q) :
  propagatePencil limiter periodic lo hi vals v dt dz = Done r ->
  (nondecreasing vals ->
   forall j a b,
     fedFromInside (Qfloor (displacement v dt dz)) (length vals) j ->
     inside r !! j = Some a -> inside r !! S j = Some b -> a <= b) /\
  (nonincreasing vals ->
   forall j a b,
     fedFromInside (Qfloor (displacement v dt dz)) (length vals) j ->
     inside r !! j = Some a -> inside r !! S j = Some b -> b <= a).
Proof.
  intros Hrun.
  pose proof (propagatePencil_Done_cfl _ _ _ _ _ _ _ _ _ Hrun) as Hcfl.
  destruct (propagatePencil_total limiter periodic lo hi vals v dt dz Hcfl)
    as (r' & Hr' & Hlen & _).
  assert (r' = r) by congruence. subst r'.
  set (k := Qfloor (displacement v dt dz)).
  split; intros Hmono j a b [Hlo Hhi] Ha Hb.
  - pose proof (lookup_lt_Some _ _ _ Hb) as Hjn. rewrite Hlen in Hjn.
    set (i := Z.to_nat (Z.of_nat j - k - 1)).
    destruct (lookup_lt_is_Some_2 vals i) as [v0 Hv0]; [lia|].
    destruct (lookup_lt_is_Some_2 vals (S i)) as [v1 Hv1]; [lia|].
    destruct (lookup_lt_is_Some_2 vals (S (S i))) as [v2 Hv2]; [lia|].
    destruct (parts_adjacent_up periodic lo hi vals (displacement v dt dz) i
                v0 v1 Hv0 Hv1 (Hmono _ _ _ Hv0 Hv1))
      as (u0 & u1 & Hu0 & Hu1 & H01 & _).
    destruct (parts_adjacent_up periodic lo hi vals (displacement v dt dz) (S i)
                v1 v2 Hv1 Hv2 (Hmono _ _ _ Hv1 Hv2))
      as (u1' & u2 & Hu1' & Hu2 & _ & H12).
    assert (u1' = u1) by congruence. subst u1'.
    rewrite (inside_lookup periodic lo hi vals v dt dz r j i v0 v1 u0 u1 Hrun)
      in Ha; [| fold k; lia | lia | assumption..].
    rewrite (inside_lookup periodic lo hi vals v dt dz r (S j) (S i) v1 v2 u1 u2
               Hrun)
      in Hb; [| fold k; lia | lia | assumption..].
    injection Ha as <-. injection Hb as <-. lra.
  - pose proof (lookup_lt_Some _ _ _ Hb) as Hjn. rewrite Hlen in Hjn.
    set (i := Z.to_nat (Z.of_nat j - k - 1)).
    destruct (lookup_lt_is_Some_2 vals i) as [v0 Hv0]; [lia|].
    destruct (lookup_lt_is_Some_2 vals (S i)) as [v1 Hv1]; [lia|].
    destruct (lookup_lt_is_Some_2 vals (S (S i))) as [v2 Hv2]; [lia|].
    destruct (parts_adjacent_down periodic lo hi vals (displacement v dt dz) i
                v0 v1 Hv0 Hv1 (Hmono _ _ _ Hv0 Hv1))
      as (u0 & u1 & Hu0 & Hu1 & H01 & _).
    destruct (parts_adjacent_down periodic lo hi vals (displacement v dt dz)
                (S i) v1 v2 Hv1 Hv2 (Hmono _ _ _ Hv1 Hv2))
      as (u1' & u2 & Hu1' & Hu2 & _ & H12).
    assert (u1' = u1) by congruence. subst u1'.
    rewrite (inside_lookup periodic lo hi vals v dt dz r j i v0 v1 u0 u1 Hrun)
      in Ha; [| fold k; lia | lia | assumption..].
    rewrite (inside_lookup periodic lo hi vals v dt dz r (S j) (S i) v1 v2 u1 u2
               Hrun)
      in Hb; [| fold k; lia | lia | assumption..].
    injection Ha as <-. injection Hb as <-. lra.
Qed.


(** The values that a remap of [below ++ body ++ above] returns for the
    cells of [body]. *)
Definition bodyOf (below body : list Q) (r : remapped Q) : list Q :=
  take (length body) (drop (length below) (inside r)).

Lemma bodyOf_lookup (below body : list Q) (r : remapped Q) (i : nat) (a : Q) :
  bodyOf below body r !! i = Some a ->
  inside r !! (length below + i)%nat = Some a /\ (i < length body)%nat.
Proof.
  unfold bodyOf. intros Hi.
  apply lookup_take_Some in Hi as [Hi Hlt].
  rewrite lookup_drop in Hi. auto.
Qed.

(** C5, amended.  The cells given to the remap are those of the pencil,
    [body], between source cells next to its ends, [below] and [above],
    which may be absent.  For a limiter whose slope lies between zero and
    both differences, a remap that returns maps monotone input averages to
    outputs that are monotone in the same direction over the cells whose
    content comes from neighbouring cells of the sequence; when the whole
    part of the displacement is below the number of source cells upstream,
    this covers every cell of the pencil.  The recovery from negative
    densities does not disturb it. *)
Theorem remap_monotone_inside (periodic : bool) (lo hi : option Q)
    (below body above : list Q) (v dt dz : Q) (r : remapped Q) :
  propagatePencil limiter periodic lo hi (below ++ body ++ above) v dt dz
  = Done r ->
  ((nondecreasing (below ++ body ++ above) ->
    forall j a b,
      fedFromInside (Qfloor (displacement v dt dz))
        (length (below ++ body ++ above)) j ->
      inside r !! j = Some a -> inside r !! S j = Some b -> a <= b) /\
   (nonincreasing (below ++ body ++ above) ->
    forall j a b,
      fedFromInside (Qfloor (displacement v dt dz))
        (length (below ++ body ++ above)) j ->
      inside r !! j = Some a -> inside r !! S j = Some b -> b <= a)) /\
  ((- Z.of_nat (length above) <= Qfloor (displacement v dt dz)
    < Z.of_nat (length below))%Z ->
   (nondecreasing (below ++ body ++ above) ->
    nondecreasing (bodyOf below body r)) /\
   (nonincreasing (below ++ body ++ above) ->
    nonincreasing (bodyOf below body r))).
Proof.
  intros Hrun.
  pose proof (remap_monotone_fed periodic lo hi _ v dt dz r Hrun) as [Hup Hdown].
  split; [split; assumption|].
  intros Hk.
  assert (Hfed : forall i, (S i < length body)%nat ->
            fedFromInside (Qfloor (displacement v dt dz))
              (length (below ++ body ++ above)) (length below + i)).
  { intros i Hi. unfold fedFromInside. rewrite !length_app. lia. }
  split; intros Hmono i a b Ha Hb.
  - apply bodyOf_lookup in Ha as [Ha _]. apply bodyOf_lookup in Hb as [Hb Hlt].
    replace (length below + S i)%nat with (S (length below + i)) in Hb by lia.
    exact (Hup Hmono _ a b (Hfed i Hlt) Ha Hb).
  - apply bodyOf_lookup in Ha as [Ha _]. apply bodyOf_lookup in Hb as [Hb Hlt].
    replace (length below + S i)%nat with (S (length below + i)) in Hb by lia.
    exact (Hdown Hmono _ a b (Hfed i Hlt) Ha Hb).
Qed.

End Monotone.

(** *** The density held by a set of cells *)

(** Sum over the cells [dom] of the density of the sample [k] of the
    population [pop]. *)
Definition total (dom : list CellID) (st : @storage Q) (pop k : nat) : Q :=
  Qsum ((fun c => st pop c k) <$> dom).

Lemma Qsum_fmap_ext (f g : CellID -> Q) (l : list CellID) :
  (forall c, c ∈ l -> f c == g c) -> Qsum (f <$> l) == Qsum (g <$> l).
Proof.
  induction l as [|c l IH]; intros Hfg; [reflexivity|].
  rewrite !fmap_cons, !Qsum_cons.
  apply Qplus_comp; [apply Hfg, list_elem_of_here|].
  apply IH. intros c' Hc'. apply Hfg, list_elem_of_further, Hc'.
Qed.

Lemma total_ext (dom : list CellID) (st1 st2 : storage) (pop k : nat) :
  (forall c, c ∈ dom -> st1 pop c k == st2 pop c k) ->
  total dom st1 pop k == total dom st2 pop k.
Proof. intros H. unfold total. apply Qsum_fmap_ext, H. Qed.

Lemma writeCell_eq (st : storage) (pop : nat) (c : CellID) (k : nat) (val : Q) :
  writeCell st pop c k val pop c k = val.
Proof.
  unfold writeCell. destruct (decide _) as [_|Hne]; [reflexivity|].
  exfalso. apply Hne. auto.
Qed.

Lemma writeCell_ne (st : storage) (pop : nat) (c : CellID) (k : nat) (val : Q)
    (pop' : nat) (c' : CellID) (k' : nat) :
  pop' <> pop \/ c' <> c \/ k' <> k ->
  writeCell st pop c k val pop' c' k' = st pop' c' k'.
Proof.
  intros Hne. unfold writeCell.
  destruct (decide _) as [(-> & -> & ->)|_]; [|reflexivity].
  exfalso. destruct Hne as [?|[?|?]]; congruence.
Qed.

Lemma total_writeCell_out (dom : list CellID) (st : storage) (pop pop' : nat)
    (c : CellID) (k k' : nat) (val : Q) :
  pop' <> pop \/ c ∉ dom \/ k' <> k ->
  total dom (writeCell st pop' c k' val) pop k == total dom st pop k.
Proof.
  intros Hout. apply total_ext. intros c' Hc'.
  rewrite writeCell_ne; [reflexivity|].
  destruct Hout as [?|[?|?]]; [left; auto | right; left | right; right; auto].
  intros ->. contradiction.
Qed.

(** Writing a cell of [dom] changes the total by the difference between the
    new and the old value. *)
Lemma total_writeCell (dom : list CellID) (st : storage) (pop : nat)
    (c : CellID) (k : nat) (val : Q) :
  NoDup dom -> c ∈ dom ->
  total dom (writeCell st pop c k val) pop k
  == total dom st pop k - st pop c k + val.
Proof.
  intros Hnd. induction Hnd as [|c' dom Hc' Hnd IH]; intros Hin.
  - apply elem_of_nil in Hin. contradiction.
  - unfold total in *. rewrite !fmap_cons, !Qsum_cons.
    destruct (decide (c' = c)) as [->|Hne].
    + rewrite writeCell_eq.
      pose proof (total_writeCell_out dom st pop pop c k k val
                    (or_intror (or_introl Hc'))) as Hrest.
      unfold total in Hrest. rewrite Hrest. ring.
    + rewrite writeCell_ne by auto.
      apply elem_of_cons in Hin as [->|Hin]; [congruence|].
      rewrite (IH Hin). ring.
Qed.

Lemma total_addToCell (dom : list CellID) (st : storage) (pop : nat)
    (c : CellID) (k : nat) (inc : Q) :
  NoDup dom -> c ∈ dom ->
  total dom (addToCell st pop c k inc) pop k == total dom st pop k + inc.
Proof.
  intros Hnd Hin. unfold addToCell. rewrite total_writeCell by assumption.
  qarith. ring.
Qed.

(** What [writeInside] leaves alone. *)
Lemma writeInside_frame (pop k : nat) (cs : list CellID) (vs : list Q)
    (st : storage) (pop' : nat) (c' : CellID) (k' : nat) :
  pop' <> pop \/ c' ∉ cs \/ k' <> k ->
  writeInside pop k st (zip cs vs) pop' c' k' = st pop' c' k'.
Proof.
  unfold writeInside. revert vs st.
  induction cs as [|c cs IH]; intros vs st Hout; [reflexivity|].
  destruct vs as [|val vs]; [reflexivity|]. cbn [zip zip_with foldl fst snd].
  rewrite IH.
  - apply writeCell_ne. destruct Hout as [?|[Hc|?]]; auto.
    right. left. intros ->. apply Hc, list_elem_of_here.
  - destruct Hout as [?|[Hc|?]]; auto.
    right. left. intros Hin. apply Hc, list_elem_of_further, Hin.
Qed.

(** Storing the values [vs] in the distinct cells [cs] of [dom] replaces
    what those cells held. *)
Lemma total_writeInside (dom : list CellID) (pop k : nat) (cs : list CellID)
    (vs : list Q) (st : storage) :
  NoDup dom -> NoDup cs -> (forall c, c ∈ cs -> c ∈ dom) ->
  length vs = length cs ->
  total dom (writeInside pop k st (zip cs vs)) pop k
  == total dom st pop k - Qsum ((fun c => st pop c k) <$> cs) + Qsum vs.
Proof.
  intros Hdom Hcs. revert vs st.
  induction Hcs as [|c cs Hc Hcs IH]; intros vs st Hsub Hlen.
  - destruct vs; [|discriminate].
    change (writeInside pop k st (zip [] [])) with st.
    rewrite fmap_nil, Qsum_nil. ring.
  - destruct vs as [|val vs]; [discriminate|].
    unfold writeInside. cbn [zip zip_with foldl fst snd].
    fold (writeInside pop k (writeCell st pop c k val) (zip cs vs)).
    rewrite IH;
      [| intros c' Hc'; apply Hsub, list_elem_of_further, Hc'
       | simpl in Hlen; congruence].
    rewrite total_writeCell by (auto; apply Hsub, list_elem_of_here).
    rewrite fmap_cons, !Qsum_cons.
    rewrite (Qsum_fmap_ext (fun c0 => writeCell st pop c k val pop c0 k)
               (fun c0 => st pop c0 k) cs).
    + ring.
    + intros c' Hc'. rewrite writeCell_ne; [reflexivity|].
      right. left. intros ->. contradiction.
Qed.

(** How an amount that left the pencil through an end is accounted for. *)
Definition localPart (e : endTarget) (amount : Q) : Q :=
  match e with LocalCell _ => amount | _ => 0 end.
Definition remotePart (e : endTarget) (amount : Q) : Q :=
  match e with RemoteCell _ _ => amount | _ => 0 end.
Definition boundaryPart (e : endTarget) (amount : Q) : Q :=
  match e with NoCell => amount | _ => 0 end.

Lemma end_parts (e : endTarget) (amount : Q) :
  localPart e amount + remotePart e amount + boundaryPart e amount == amount.
Proof. destruct e; simpl; ring. Qed.

Lemma writeEnd_frame (pop k : nat) (e : endTarget) (amount : Q) (st : storage)
    (pop' : nat) (c' : CellID) (k' : nat) :
  pop' <> pop \/ k' <> k ->
  writeEnd pop k e amount st pop' c' k' = st pop' c' k'.
Proof.
  intros Hne. destruct e as [|c|c rank]; try reflexivity.
  unfold writeEnd, addToCell. apply writeCell_ne. tauto.
Qed.

Lemma total_writeEnd (dom : list CellID) (pop k : nat) (e : endTarget)
    (amount : Q) (st : storage) :
  NoDup dom -> (forall c, e = LocalCell c -> c ∈ dom) ->
  total dom (writeEnd pop k e amount st) pop k
  == total dom st pop k + localPart e amount.
Proof.
  intros Hdom He. destruct e as [|c|c rank]; cbn [writeEnd localPart];
    try ring.
  apply total_addToCell; [exact Hdom | apply He; reflexivity].
Qed.

(** *** What a pass stores, adds and emits *)

(** Every cell belongs to one pencil, in which it occurs once. *)
Fixpoint disjointPencils (ps : list (@pencil Q)) : Prop :=
  match ps with
  | [] => True
  | p :: ps' =>
      NoDup (cells p)
      /\ (forall q c, q ∈ ps' -> c ∈ cells p -> c ∉ cells q)
      /\ disjointPencils ps'
  end.

(** The result for the sample [k], when [rs] holds the results for the
    samples [k0], [k0 + 1], ... *)
Definition sampleFrom (k0 : nat) (rs : list (remapped Q)) (k : nat)
    : option (remapped Q) :=
  if decide (k0 <= k)%nat then rs !! (k - k0)%nat else None.

Lemma sampleFrom_0 (rs : list (remapped Q)) (k : nat) :
  sampleFrom 0 rs k = rs !! k.
Proof.
  unfold sampleFrom. destruct (decide (0 <= k)%nat); [|lia].
  rewrite Nat.sub_0_r. reflexivity.
Qed.

Lemma sampleFrom_here (k : nat) (r : remapped Q) (rs : list (remapped Q)) :
  sampleFrom k (r :: rs) k = Some r /\ sampleFrom (S k) rs k = None.
Proof.
  unfold sampleFrom. destruct (decide (k <= k)%nat); [|lia].
  destruct (decide (S k <= k)%nat); [lia|].
  rewrite Nat.sub_diag. auto.
Qed.

Lemma sampleFrom_later (k0 k : nat) (r : remapped Q) (rs : list (remapped Q)) :
  k <> k0 -> sampleFrom k0 (r :: rs) k = sampleFrom (S k0) rs k.
Proof.
  intros Hne. unfold sampleFrom.
  destruct (decide (k0 <= k)%nat); destruct (decide (S k0 <= k)%nat);
    try lia; [|reflexivity].
  replace (k - k0)%nat with (S (k - S k0)) by lia. reflexivity.
Qed.

(** Change of the density held by the cells of the pencil when the values
    [inside r] replace what the cells held, and what the ends pass on. *)
Definition replaced (p : pencil) (st : storage) (pop k : nat)
    (o : option (remapped Q)) : Q :=
  match o with
  | Some r => Qsum (pencilValues st pop p k) - Qsum (inside r)
  | None => 0
  end.
Definition localGain (p : @pencil Q) (o : option (remapped Q)) : Q :=
  match o with
  | Some r => localPart (lowEnd p) (lowOut r) + localPart (highEnd p) (highOut r)
  | None => 0
  end.
Definition remoteGain (p : @pencil Q) (o : option (remapped Q)) : Q :=
  match o with
  | Some r => remotePart (lowEnd p) (lowOut r) + remotePart (highEnd p) (highOut r)
  | None => 0
  end.
Definition boundaryLoss (p : @pencil Q) (o : option (remapped Q)) : Q :=
  match o with
  | Some r =>
      boundaryPart (lowEnd p) (lowOut r) + boundaryPart (highEnd p) (highOut r)
  | None => 0
  end.

Section Store.
Variable dom : list CellID.
Hypothesis Hdom : NoDup dom.
Variable pop : nat.

Lemma storeSamples_frame (p : pencil) (rs : list (remapped Q)) (k0 : nat)
    (st : storage) (pop' : nat) (c : CellID) (k : nat) :
  pop' <> pop \/ c ∉ cells p ->
  storeSamples pop p k0 rs st pop' c k = st pop' c k.
Proof.
  intros Hout. revert k0 st.
  induction rs as [|r rs IH]; intros k0 st; [reflexivity|].
  cbn [storeSamples]. rewrite IH. apply writeInside_frame. tauto.
Qed.

Lemma pencilValues_ext (p : pencil) (st1 st2 : storage) (k : nat) :
  (forall c, c ∈ cells p -> st1 pop c k == st2 pop c k) ->
  Qsum (pencilValues st1 pop p k) == Qsum (pencilValues st2 pop p k).
Proof. intros H. unfold pencilValues. apply Qsum_fmap_ext, H. Qed.

Lemma total_storeSamples (p : pencil) (rs : list (remapped Q)) (k0 : nat)
    (st : storage) (k : nat) :
  NoDup (cells p) -> (forall c, c ∈ cells p -> c ∈ dom) ->
  Forall (fun r => length (inside r) = length (cells p)) rs ->
  total dom (storeSamples pop p k0 rs st) pop k
  == total dom st pop k - replaced p st pop k (sampleFrom k0 rs k).
Proof.
  intros Hnd Hsub Hlen. revert k0 st.
  induction Hlen as [|r rs Hr _ IH]; intros k0 st.
  - unfold sampleFrom. destruct (decide (k0 <= k)%nat); simpl; ring.
  - cbn [storeSamples]. rewrite IH.
    destruct (decide (k = k0)) as [->|Hne].
    + destruct (sampleFrom_here k0 r rs) as [-> ->]. cbn [replaced].
      rewrite total_writeInside by assumption.
      unfold pencilValues. ring.
    + rewrite (sampleFrom_later k0 k r rs Hne).
      rewrite (total_ext dom _ st)
        by (intros c _; rewrite writeInside_frame; [reflexivity | auto]).
      apply Qplus_comp; [reflexivity|]. apply Qopp_comp.
      destruct (sampleFrom (S k0) rs k) as [r'|]; [|reflexivity].
      cbn [replaced]. apply Qplus_comp; [|reflexivity].
      apply pencilValues_ext. intros c _.
      rewrite writeInside_frame; [reflexivity | auto].
Qed.

Lemma storeResults_frame (results : list (pencil * list (remapped Q)))
    (st : storage) (pop' : nat) (c : CellID) (k : nat) :
  pop' <> pop \/ (forall pr, pr ∈ results -> c ∉ cells pr.1) ->
  storeResults pop results st pop' c k = st pop' c k.
Proof.
  unfold storeResults. revert st.
  induction results as [|[p rs] results IH]; intros st Hout; [reflexivity|].
  cbn [foldl fst snd]. rewrite IH.
  - apply storeSamples_frame. destruct Hout as [?|Hout]; [auto|].
    right. apply (Hout (p, rs)), list_elem_of_here.
  - destruct Hout as [?|Hout]; [auto|].
    right. intros pr Hpr. apply Hout, list_elem_of_further, Hpr.
Qed.

(** The pencils store one after the other: the cells of each are distinct
    from those of the others, so each replaces what its cells held before
    the pass. *)
Lemma total_storeResults (st0 : storage)
    (results : list (pencil * list (remapped Q))) (st : storage) (k : nat) :
  disjointPencils (fst <$> results) ->
  (forall pr c, pr ∈ results -> c ∈ cells pr.1 -> c ∈ dom) ->
  Forall (fun pr => Forall (fun r => length (inside r) = length (cells pr.1))
                      pr.2) results ->
  (forall pr c, pr ∈ results -> c ∈ cells pr.1 -> st pop c k == st0 pop c k) ->
  total dom (storeResults pop results st) pop k
  == total dom st pop k
     - Qsum ((fun pr => replaced pr.1 st0 pop k (pr.2 !! k)) <$> results).
Proof.
  unfold storeResults. revert st.
  induction results as [|[p rs] results IH]; intros st Hdis Hsub Hlen Hst.
  - cbn [foldl fmap list_fmap]. rewrite Qsum_nil. ring.
  - cbn [foldl fst snd]. rewrite fmap_cons in Hdis.
    destruct Hdis as (Hnd & Hother & Hdis).
    apply Forall_cons in Hlen as [Hlenp Hlen]. cbn [fst snd] in *.
    rewrite IH; [| exact Hdis
                 | intros pr c Hpr; apply Hsub, list_elem_of_further, Hpr
                 | exact Hlen |].
    + assert (Hsubp : forall c, c ∈ cells p -> c ∈ dom)
        by (intros c Hc; apply (Hsub (p, rs)); [apply list_elem_of_here | exact Hc]).
      pose proof (total_storeSamples p rs 0 st k Hnd Hsubp Hlenp) as E1.
      rewrite E1, sampleFrom_0, fmap_cons, Qsum_cons. cbn [fst snd].
      assert (E : replaced p st pop k (rs !! k) == replaced p st0 pop k (rs !! k)).
      { destruct (rs !! k) as [r|]; [|reflexivity]. cbn [replaced].
        apply Qplus_comp; [|reflexivity].
        apply pencilValues_ext. intros c Hc.
        apply (Hst (p, rs)); [apply list_elem_of_here | exact Hc]. }
      rewrite E. ring.
    + intros pr c Hpr Hc.
      rewrite storeSamples_frame.
      * apply (Hst pr c); [apply list_elem_of_further, Hpr | exact Hc].
      * right. intros Hcp.
        apply (Hother pr.1 c); [| exact Hcp | exact Hc].
        apply list_elem_of_fmap. exists pr. auto.
Qed.

Lemma addEndSamples_frame (p : pencil) (rs : list (remapped Q)) (k0 : nat)
    (st : storage) (pop' : nat) (c : CellID) (k : nat) :
  pop' <> pop ->
  addEndSamples pop p k0 rs st pop' c k = st pop' c k.
Proof.
  intros Hne. revert k0 st.
  induction rs as [|r rs IH]; intros k0 st; [reflexivity|].
  cbn [addEndSamples]. rewrite IH, !writeEnd_frame by auto. reflexivity.
Qed.

Lemma total_addEndSamples (p : pencil) (rs : list (remapped Q)) (k0 : nat)
    (st : storage) (k : nat) :
  (forall c, lowEnd p = LocalCell c -> c ∈ dom) ->
  (forall c, highEnd p = LocalCell c -> c ∈ dom) ->
  total dom (addEndSamples pop p k0 rs st) pop k
  == total dom st pop k + localGain p (sampleFrom k0 rs k).
Proof.
  intros Hlo Hhi. revert k0 st.
  induction rs as [|r rs IH]; intros k0 st.
  - unfold sampleFrom. destruct (decide (k0 <= k)%nat); simpl; ring.
  - cbn [addEndSamples]. rewrite IH.
    destruct (decide (k = k0)) as [->|Hne].
    + destruct (sampleFrom_here k0 r rs) as [-> ->]. cbn [localGain].
      rewrite !total_writeEnd by assumption. ring.
    + rewrite (sampleFrom_later k0 k r rs Hne).
      rewrite (total_ext dom _ st); [reflexivity|].
      intros c _. rewrite !writeEnd_frame by auto. reflexivity.
Qed.

Lemma total_addEndResults (results : list (pencil * list (remapped Q)))
    (st : storage) (k : nat) :
  (forall pr c, pr ∈ results ->
     lowEnd pr.1 = LocalCell c \/ highEnd pr.1 = LocalCell c -> c ∈ dom) ->
  total dom (addEndResults pop results st) pop k
  == total dom st pop k
     + Qsum ((fun pr => localGain pr.1 (pr.2 !! k)) <$> results).
Proof.
  unfold addEndResults. revert st.
  induction results as [|[p rs] results IH]; intros st Hends.
  - cbn [foldl fmap list_fmap]. rewrite Qsum_nil. ring.
  - cbn [foldl fst snd].
    rewrite IH by (intros pr c Hpr; apply Hends, list_elem_of_further, Hpr).
    assert (Hlo : forall c, lowEnd p = LocalCell c -> c ∈ dom)
      by (intros c Hc; apply (Hends (p, rs)); [apply list_elem_of_here | auto]).
    assert (Hhi : forall c, highEnd p = LocalCell c -> c ∈ dom)
      by (intros c Hc; apply (Hends (p, rs)); [apply list_elem_of_here | auto]).
    pose proof (total_addEndSamples p rs 0 st k Hlo Hhi) as E1.
    rewrite E1, sampleFrom_0, fmap_cons, Qsum_cons. cbn [fst snd]. ring.
Qed.

End Store.

(** *** Non-negative densities and a limited reconstruction *)

Section Valid.
Variable limiter : Q -> Q -> Q.
Hypothesis Hlimited : limited limiter.

Definition nonnegSample (o : option Q) : Prop :=
  forall x, o = Some x -> 0 <= x.

Lemma cellAt_nonneg (periodic : bool) (lo hi : option Q) (vals : list Q)
    (i : Z) (x : Q) :
  Forall (Qle 0) vals -> nonnegSample lo -> nonnegSample hi ->
  cellAt periodic lo hi vals i = Some x -> 0 <= x.
Proof.
  intros Hvals Hlo Hhi. rewrite Forall_lookup in Hvals. unfold cellAt.
  destruct ((0 <=? i)%Z && (i <? Z.of_nat (length vals))%Z);
    [apply Hvals|].
  destruct periodic; [apply Hvals|].
  destruct (i =? -1)%Z; [apply Hlo|].
  destruct (i =? Z.of_nat (length vals))%Z; [apply Hhi | discriminate].
Qed.

(** The slope of a limited profile over non-negative averages is at most
    the cell's average in absolute value: the profile is not negative
    anywhere in the cell. *)
Lemma slope_within (periodic : bool) (lo hi : option Q) (vals : list Q)
    (i : nat) (c : Q) :
  Forall (Qle 0) vals -> nonnegSample lo -> nonnegSample hi ->
  vals !! i = Some c ->
  - c <= slope limiter periodic lo hi vals i c <= c.
Proof.
  intros Hvals Hlo Hhi Hi.
  assert (Hc : 0 <= c) by (rewrite Forall_lookup in Hvals; apply (Hvals i c Hi)).
  unfold slope.
  destruct (cellAt periodic lo hi vals (Z.of_nat i - 1)) as [l|] eqn:Hl;
    [|qarith; lra].
  destruct (cellAt periodic lo hi vals (Z.of_nat i + 1)) as [r|] eqn:Hr;
    [|qarith; lra].
  pose proof (cellAt_nonneg _ _ _ _ _ _ Hvals Hlo Hhi Hl).
  pose proof (cellAt_nonneg _ _ _ _ _ _ Hvals Hlo Hhi Hr).
  qarith. destruct (Hlimited (c - l) (r - c)) as [[?|?] [?|?]]; lra.
Qed.

Lemma crossing_within (c s z : Q) :
  0 <= z <= 1 -> 0 <= c -> - c <= s <= c ->
  0 <= integrate c s (1 - z) 1 <= c.
Proof.
  intros Hz Hc Hs. rewrite integrate_upper.
  set (w := z * (1 - z) * (1 # 2)).
  assert (Hw0 : 0 <= w) by (unfold w; nra).
  assert (Hwz : w <= z) by (unfold w; nra).
  assert (Hw1 : z + w <= 1) by (unfold w; nra).
  assert (- (w * c) <= w * s <= w * c) by nra.
  assert (w * c <= z * c) by nra.
  assert ((z + w) * c <= c) by nra.
  split; nra.
Qed.

(** No recovery is needed for a crossing integral between zero and the
    cell's content. *)
Lemma no_recovery (c m : Q) :
  0 <= m <= c ->
  clampNegative m = m /\ staying c m = c - m /\
  isNegative m = false /\ overshoot c m = false.
Proof.
  intros [Hm Hc].
  assert (H0 : Qle_bool 0 m = true) by (apply Qle_bool_iff, Hm).
  assert (H1 : Qle_bool m c = true) by (apply Qle_bool_iff, Hc).
  unfold clampNegative, staying, isNegative, overshoot. qarith.
  rewrite H0, H1. rewrite andb_false_r. auto.
Qed.

Lemma crossing_lookup (periodic : bool) (lo hi : option Q) (vals : list Q)
    (z : Q) (i : nat) (m : Q) :
  crossing limiter periodic lo hi vals z !! i = Some m ->
  exists c, vals !! i = Some c /\
            m = integrate c (slope limiter periodic lo hi vals i c) (1 - z) 1.
Proof.
  unfold crossing. rewrite list_lookup_imap.
  destruct (vals !! i) as [c|]; simpl; [|discriminate].
  intros [= <-]. exists c. auto.
Qed.

Lemma crossing_valid (periodic : bool) (lo hi : option Q) (vals : list Q)
    (d : Q) (i : nat) (m : Q) :
  Forall (Qle 0) vals -> nonnegSample lo -> nonnegSample hi ->
  crossing limiter periodic lo hi vals (d - inject_Z (Qfloor d)) !! i = Some m ->
  exists c, vals !! i = Some c /\ 0 <= m <= c.
Proof.
  intros Hvals Hlo Hhi Hm.
  destruct (crossing_lookup _ _ _ _ _ _ _ Hm) as (c & Hc & ->).
  exists c. split; [exact Hc|].
  apply crossing_within; [apply fraction_bounds | |].
  - rewrite Forall_lookup in Hvals. apply (Hvals i c Hc).
  - apply slope_within; assumption.
Qed.

(** Number of recoveries from negative densities in a remap. *)
Definition negativesOf (periodic : bool) (lo hi : option Q) (vals : list Q)
    (d : Q) : nat :=
  Nat.add
    (length (filter (fun m => isNegative m = true)
               (crossing limiter periodic lo hi vals (d - inject_Z (Qfloor d)))))
    (length (filter (fun cu => overshoot cu.1 cu.2 = true)
               (zip vals (upOf limiter periodic lo hi vals d)))).

Lemma propagatePencil_negativeCount (periodic : bool) (lo hi : option Q)
    (vals : list Q) (v dt dz : Q) (r : remapped Q) :
  propagatePencil limiter periodic lo hi vals v dt dz = Done r ->
  negativeCount r = negativesOf periodic lo hi vals (displacement v dt dz).
Proof.
  unfold propagatePencil.
  destruct (cflViolated (length vals) (displacement v dt dz)); [discriminate|].
  cbv zeta. destruct periodic.
  - intros [= <-]. reflexivity.
  - destruct (shiftOpen _ _) as [[lo1 in1] hi1].
    destruct (shiftOpen _ _) as [[lo2 in2] hi2].
    intros [= <-]. reflexivity.
Qed.

Lemma filter_none {A : Type} (P : A -> Prop) `{forall x, Decision (P x)}
    (l : list A) :
  (forall x, x ∈ l -> ~ P x) -> filter P l = [].
Proof.
  induction l as [|x l IH]; intros Hl; [reflexivity|].
  rewrite filter_cons. destruct (decide (P x)) as [Hx|_].
  - exfalso. apply (Hl x); [apply list_elem_of_here | exact Hx].
  - apply IH. intros y Hy. apply Hl, list_elem_of_further, Hy.
Qed.

(** The parts of a valid pencil: every cell sends on an amount between zero
    and its content and keeps the rest. *)
Lemma parts_valid (periodic : bool) (lo hi : option Q) (vals : list Q) (d : Q)
    (i : nat) (c : Q) :
  Forall (Qle 0) vals -> nonnegSample lo -> nonnegSample hi ->
  vals !! i = Some c ->
  exists u,
    upOf limiter periodic lo hi vals d !! i = Some u /\
    stayOf limiter periodic lo hi vals d !! i = Some (c - u) /\
    0 <= u <= c.
Proof.
  intros Hvals Hlo Hhi Hc.
  destruct (lookup_lt_is_Some_2
              (crossing limiter periodic lo hi vals (d - inject_Z (Qfloor d))) i)
    as [m Hm].
  { rewrite crossing_length. apply (lookup_lt_Some _ _ _ Hc). }
  destruct (crossing_valid _ _ _ _ _ _ _ Hvals Hlo Hhi Hm) as (c' & Hc' & Hb).
  assert (c' = c) by congruence. subst c'.
  destruct (no_recovery c m Hb) as (E1 & E2 & _ & _).
  exists m.
  assert (Hu : upOf limiter periodic lo hi vals d !! i = Some m).
  { unfold upOf. rewrite list_lookup_fmap, Hm. simpl. rewrite E1. reflexivity. }
  split; [exact Hu|]. split; [|exact Hb].
  unfold stayOf. rewrite lookup_zip_with, Hc. simpl. rewrite Hu. simpl.
  rewrite E2. reflexivity.
Qed.

Lemma negativesOf_valid (periodic : bool) (lo hi : option Q) (vals : list Q)
    (d : Q) :
  Forall (Qle 0) vals -> nonnegSample lo -> nonnegSample hi ->
  negativesOf periodic lo hi vals d = 0%nat.
Proof.
  intros Hvals Hlo Hhi. unfold negativesOf.
  rewrite !filter_none; [reflexivity | |].
  - intros [c u] Hcu. cbn [fst snd].
    apply list_elem_of_lookup in Hcu as [i Hi].
    rewrite lookup_zip_with in Hi.
    destruct (vals !! i) as [c'|] eqn:Hc'; simpl in Hi; [|discriminate].
    destruct (parts_valid periodic lo hi vals d i c' Hvals Hlo Hhi Hc')
      as (u' & Hu' & _ & Hb).
    rewrite Hu' in Hi. simpl in Hi. injection Hi as <- <-.
    destruct (no_recovery c' u' Hb) as (_ & _ & _ & ->). discriminate.
  - intros m Hm. apply list_elem_of_lookup in Hm as [i Hi].
    destruct (crossing_valid _ _ _ _ _ _ _ Hvals Hlo Hhi Hi) as (c & Hc & Hb).
    destruct (no_recovery c m Hb) as (_ & _ & -> & _). discriminate.
Qed.

Lemma Qsum_parts (vals up stay : list Q) :
  (forall i c, vals !! i = Some c ->
     exists u, up !! i = Some u /\ stay !! i = Some (c - u)) ->
  length up = length vals -> length stay = length vals ->
  Qsum stay + Qsum up == Qsum vals.
Proof.
  revert up stay.
  induction vals as [|c vals IH]; intros up stay Hparts Hup Hstay.
  - destruct up; [|discriminate]. destruct stay; [|discriminate].
    rewrite !Qsum_nil. ring.
  - destruct up as [|u up]; [discriminate|].
    destruct stay as [|s stay]; [discriminate|].
    destruct (Hparts 0%nat c eq_refl) as (u' & Hu' & Hs').
    simpl in Hu', Hs'. injection Hu' as <-. injection Hs' as ->.
    rewrite !Qsum_cons.
    rewrite <- (IH up stay);
      [ring | intros i c' Hc'; apply (Hparts (S i) c' Hc')
       | simpl in Hup; congruence | simpl in Hstay; congruence].
Qed.

Lemma parts_sum_valid (periodic : bool) (lo hi : option Q) (vals : list Q)
    (d : Q) :
  Forall (Qle 0) vals -> nonnegSample lo -> nonnegSample hi ->
  Qsum (stayOf limiter periodic lo hi vals d)
  + Qsum (upOf limiter periodic lo hi vals d) == Qsum vals.
Proof.
  intros Hvals Hlo Hhi.
  apply Qsum_parts; [| apply upOf_length | apply stayOf_length].
  intros i c Hc.
  destruct (parts_valid periodic lo hi vals d i c Hvals Hlo Hhi Hc)
    as (u & Hu & Hs & _).
  exists u. auto.
Qed.

Lemma parts_nonneg (periodic : bool) (lo hi : option Q) (vals : list Q)
    (d : Q) :
  Forall (Qle 0) vals -> nonnegSample lo -> nonnegSample hi ->
  Forall (Qle 0) (upOf limiter periodic lo hi vals d)
  /\ Forall (Qle 0) (stayOf limiter periodic lo hi vals d).
Proof.
  intros Hvals Hlo Hhi. split; apply Forall_lookup; intros i x Hx.
  - destruct (lookup_lt_is_Some_2 vals i) as [c Hc].
    { rewrite <- (upOf_length limiter periodic lo hi vals d).
      apply (lookup_lt_Some _ _ _ Hx). }
    destruct (parts_valid periodic lo hi vals d i c Hvals Hlo Hhi Hc)
      as (u & Hu & _ & Hb).
    assert (x = u) by congruence. subst x. lra.
  - destruct (lookup_lt_is_Some_2 vals i) as [c Hc].
    { rewrite <- (stayOf_length limiter periodic lo hi vals d).
      apply (lookup_lt_Some _ _ _ Hx). }
    destruct (parts_valid periodic lo hi vals d i c Hvals Hlo Hhi Hc)
      as (u & _ & Hs & Hb).
    assert (x = c - u) by congruence. subst x. lra.
Qed.

Lemma shiftOpen_nonneg (k : Z) (l : list Q) :
  Forall (Qle 0) l -> 0 <= (shiftOpen k l).1.1 /\ 0 <= (shiftOpen k l).2.
Proof.
  intros Hl. unfold shiftOpen. destruct (0 <=? k)%Z; cbn [fst snd]; qarith.
  - split; [lra|]. apply Qsum_nonneg, Forall_drop, Hl.
  - split; [|lra]. apply Qsum_nonneg, Forall_take, Hl.
Qed.

(** The remap of a valid pencil: non-negative averages in the pencil and in
    the source cells next to it, a limited reconstruction and a displacement
    that passes the check.  The remap returns; what lands in the pencil and
    beyond its ends adds up to what the pencil held; nothing negative leaves
    through an end, nothing at all leaves a periodic pencil, and no recovery
    from a negative density takes place. *)
Lemma propagatePencil_valid (periodic : bool) (lo hi : option Q)
    (vals : list Q) (v dt dz : Q) :
  Forall (Qle 0) vals -> nonnegSample lo -> nonnegSample hi ->
  cflViolated (length vals) (displacement v dt dz) = false ->
  exists r,
    propagatePencil limiter periodic lo hi vals v dt dz = Done r /\
    length (inside r) = length vals /\
    Qsum (inside r) + lowOut r + highOut r == Qsum vals /\
    0 <= lowOut r /\ 0 <= highOut r /\
    (periodic = true -> lowOut r = 0 /\ highOut r = 0) /\
    negativeCount r = 0%nat.
Proof.
  intros Hvals Hlo Hhi Hcfl.
  destruct (propagatePencil_total limiter periodic lo hi vals v dt dz Hcfl)
    as (r & Hr & Hlen & Hsum & Hper).
  exists r. split; [exact Hr|]. split; [exact Hlen|].
  split; [rewrite Hsum; apply parts_sum_valid; assumption|].
  assert (Hout : 0 <= lowOut r /\ 0 <= highOut r).
  { destruct periodic.
    - destruct (Hper eq_refl) as [-> ->]. split; apply Qle_refl.
    - destruct (propagatePencil_open limiter lo hi vals v dt dz Hcfl)
        as [count Hrun].
      cbv zeta in Hrun.
      match type of Hrun with
      | _ = Done ?rec => assert (E : r = rec) by congruence
      end.
      rewrite E. cbn [lowOut highOut].
      destruct (parts_nonneg false lo hi vals (displacement v dt dz)
                  Hvals Hlo Hhi) as [Hup Hstay].
      pose proof (shiftOpen_nonneg (Qfloor (displacement v dt dz)) _ Hstay).
      pose proof (shiftOpen_nonneg (Qfloor (displacement v dt dz) + 1) _ Hup).
      split; lra. }
  split; [apply Hout|]. split; [apply Hout|]. split; [exact Hper|].
  rewrite (propagatePencil_negativeCount _ _ _ _ _ _ _ _ Hr).
  apply negativesOf_valid; assumption.
Qed.

End Valid.

(** *** No negative density is stored *)

Section Nonnegative.
Variable limiter : Q -> Q -> Q.

Lemma zip_plus_nonneg (a b : list Q) :
  Forall (Qle 0) a -> Forall (Qle 0) b -> Forall (Qle 0) (zip_with Qplus a b).
Proof.
  intros Ha. revert b. induction Ha as [|x a Hx _ IH]; intros b Hb;
    [constructor|].
  destruct Hb as [|y b Hy Hb]; [constructor|].
  simpl. constructor; [lra | apply IH, Hb].
Qed.

Lemma shiftOpen_inside_nonneg (k : Z) (l : list Q) :
  Forall (Qle 0) l -> Forall (Qle 0) (shiftOpen k l).1.2.
Proof.
  intros Hl. unfold shiftOpen. destruct (0 <=? k)%Z; cbn [fst snd]; qarith;
    apply Forall_app; split;
    try (apply Forall_replicate, Qle_refl);
    [apply Forall_take | apply Forall_drop]; exact Hl.
Qed.

Lemma upOf_nonneg (periodic : bool) (lo hi : option Q) (vals : list Q) (d : Q) :
  Forall (Qle 0) (upOf limiter periodic lo hi vals d).
Proof.
  unfold upOf. apply Forall_fmap, Forall_forall. intros m _. simpl.
  destruct (clampNegative_spec m) as [[? ->]|[? ->]]; lra.
Qed.

Lemma stayOf_nonneg (periodic : bool) (lo hi : option Q) (vals : list Q)
    (d : Q) :
  Forall (Qle 0) vals ->
  Forall (Qle 0) (stayOf limiter periodic lo hi vals d).
Proof.
  intros Hvals. unfold stayOf.
  pose proof (upOf_nonneg periodic lo hi vals d) as Hup.
  revert Hup. generalize (upOf limiter periodic lo hi vals d).
  induction Hvals as [|c vals Hc _ IH]; intros up Hup; [constructor|].
  destruct Hup as [|u up Hu Hup]; [constructor|].
  simpl. constructor; [|apply IH, Hup].
  destruct (staying_spec c u) as [(_ & _ & ->)|[[?|?] ->]]; lra.
Qed.

(** Whatever the limiter, the remap of non-negative averages returns
    non-negative values: a part of a cell that the reconstruction makes
    negative is replaced by zero. *)
Lemma propagatePencil_nonnegative (periodic : bool) (lo hi : option Q)
    (vals : list Q) (v dt dz : Q) (r : remapped Q) :
  Forall (Qle 0) vals ->
  propagatePencil limiter periodic lo hi vals v dt dz = Done r ->
  Forall (Qle 0) (inside r) /\ 0 <= lowOut r /\ 0 <= highOut r.
Proof.
  intros Hvals Hrun.
  pose proof (propagatePencil_Done_cfl _ _ _ _ _ _ _ _ _ Hrun) as Hcfl.
  pose proof (upOf_nonneg periodic lo hi vals (displacement v dt dz)) as Hup.
  pose proof (stayOf_nonneg periodic lo hi vals (displacement v dt dz) Hvals)
    as Hstay.
  destruct periodic.
  - destruct (propagatePencil_periodic limiter lo hi vals v dt dz Hcfl)
      as [count Hr].
    match type of Hr with _ = Done ?rec => assert (E : r = rec) by congruence end.
    rewrite E. cbn [inside lowOut highOut].
    split; [|split; apply Qle_refl].
    apply zip_plus_nonneg; apply rotate_Forall; assumption.
  - destruct (propagatePencil_open limiter lo hi vals v dt dz Hcfl)
      as [count Hr].
    cbv zeta in Hr.
    match type of Hr with _ = Done ?rec => assert (E : r = rec) by congruence end.
    rewrite E. cbn [inside lowOut highOut].
    pose proof (shiftOpen_nonneg (Qfloor (displacement v dt dz)) _ Hstay).
    pose proof (shiftOpen_nonneg (Qfloor (displacement v dt dz) + 1) _ Hup).
    split; [|split; lra].
    apply zip_plus_nonneg; apply shiftOpen_inside_nonneg; assumption.
Qed.

End Nonnegative.

(** *** A pass over valid pencils *)

Section PassValid.
Variable limiter : Q -> Q -> Q.
Hypothesis Hlimited : limited limiter.

(** What the remap of the sample [k] of a valid pencil gives. *)
Definition goodResult (st : storage) (pop : nat) (p : pencil) (k : nat)
    (r : remapped Q) : Prop :=
  length (inside r) = length (cells p) /\
  Qsum (inside r) + lowOut r + highOut r == Qsum (pencilValues st pop p k) /\
  0 <= lowOut r /\ 0 <= highOut r /\
  (isPeriodic p = true -> lowOut r = 0 /\ highOut r = 0) /\
  negativeCount r = 0%nat.

Fixpoint goodSamples (st : storage) (pop : nat) (p : pencil) (k : nat)
    (rs : list (remapped Q)) : Prop :=
  match rs with
  | [] => True
  | r :: rs' => goodResult st pop p k r /\ goodSamples st pop p (S k) rs'
  end.

Lemma goodSamples_lookup (st : storage) (pop : nat) (p : pencil)
    (rs : list (remapped Q)) (k0 j : nat) (r : remapped Q) :
  goodSamples st pop p k0 rs -> rs !! j = Some r ->
  goodResult st pop p (k0 + j) r.
Proof.
  revert k0 j. induction rs as [|r' rs IH]; intros k0 j Hgood Hj;
    [discriminate|].
  destruct Hgood as [Hr Hrest]. destruct j as [|j].
  - injection Hj as <-. rewrite Nat.add_0_r. exact Hr.
  - replace (k0 + S j)%nat with (S k0 + j)%nat by lia.
    apply IH; assumption.
Qed.

Definition withinCfl (dt : Q) (vs : list Q) (p : pencil) : Prop :=
  0 < cellWidth p /\
  Forall (fun v => Qabs (displacement v dt (cellWidth p))
                   < halfLength (length (cells p))) vs.

Lemma remapSamples_valid (st : storage) (pop : nat) (dt : Q) (p : pencil)
    (vs : list Q) (k0 : nat) :
  (forall c k, 0 <= st pop c k) ->
  Forall (fun v => Qabs (displacement v dt (cellWidth p))
                   < halfLength (length (cells p))) vs ->
  exists rs,
    remapSamples limiter st pop dt p k0 vs = Done rs /\
    goodSamples st pop p k0 rs.
Proof.
  intros Hst Hcfl. revert k0.
  induction Hcfl as [|v vs Hv _ IH]; intros k0.
  - exists []. split; [reflexivity | exact I].
  - assert (Hvals : Forall (Qle 0) (pencilValues st pop p k0)).
    { unfold pencilValues. apply Forall_fmap, Forall_forall.
      intros c _. apply Hst. }
    assert (Hsample : forall e, nonnegSample (endSample st pop k0 e)).
    { intros e x. destruct e; simpl; [discriminate | |];
        intros [= <-]; apply Hst. }
    assert (Hc : cflViolated (length (pencilValues st pop p k0))
                   (displacement v dt (cellWidth p)) = false).
    { apply cflViolated_false. unfold pencilValues. rewrite length_fmap.
      exact Hv. }
    destruct (propagatePencil_valid limiter Hlimited (isPeriodic p)
                (endSample st pop k0 (lowEnd p)) (endSample st pop k0 (highEnd p))
                (pencilValues st pop p k0) v dt (cellWidth p)
                Hvals (Hsample _) (Hsample _) Hc)
      as (r & Hr & Hlen & Hsum & Hlo & Hhi & Hper & Hneg).
    destruct (IH (S k0)) as (rs & Hrs & Hgood).
    exists (r :: rs). cbn [remapSamples]. rewrite Hr, Hrs.
    split; [reflexivity|]. split; [|exact Hgood].
    unfold goodResult. unfold pencilValues in Hlen. rewrite length_fmap in Hlen.
    auto 10.
Qed.

Lemma remapPencils_valid (st : storage) (pop : nat) (dt : Q) (vs : list Q)
    (ps : list pencil) :
  (forall c k, 0 <= st pop c k) ->
  Forall (withinCfl dt vs) ps ->
  exists results,
    remapPencils limiter st pop dt vs ps = Done results /\
    fst <$> results = ps /\
    Forall (fun pr => goodSamples st pop pr.1 0 pr.2) results.
Proof.
  intros Hst Hcfl.
  induction Hcfl as [|p ps [_ Hp] _ IH].
  - exists []. split; [reflexivity|]. split; [reflexivity | constructor].
  - destruct (remapSamples_valid st pop dt p vs 0 Hst Hp) as (rs & Hrs & Hgood).
    destruct IH as (rest & Hrest & Hfst & Hall).
    exists ((p, rs) :: rest). cbn [remapPencils]. rewrite Hrs, Hrest.
    split; [reflexivity|]. split; [rewrite fmap_cons, Hfst; reflexivity|].
    constructor; assumption.
Qed.

(** A pencil through whose ends nothing is lost: it is periodic, or there
    is a cell beyond each end. *)
Definition closedPencil (p : @pencil Q) : Prop :=
  isPeriodic p = true \/ (lowEnd p <> NoCell /\ highEnd p <> NoCell).

(** What the pass hands to the boundary of the domain for the sample
    [k]. *)
Definition boundaryFlux (k : nat)
    (results : list (@pencil Q * list (remapped Q))) : Q :=
  Qsum ((fun pr => boundaryLoss pr.1 (pr.2 !! k)) <$> results).

Lemma emitPencil_sum (pop : nat) (p : pencil) (rs : list (remapped Q))
    (k : nat) :
  Qsum (incrementAt k <$> emitPencil pop p rs) == remoteGain p (rs !! k).
Proof.
  unfold emitPencil, emitEnd, remoteGain, incrementAt.
  destruct (lowEnd p), (highEnd p); cbn [app fmap list_fmap rcIncrements remotePart];
    rewrite ?Qsum_cons, ?Qsum_nil, ?list_lookup_fmap;
    destruct (rs !! k) as [r|]; simpl; ring.
Qed.

Lemma emitResults_sum (pop : nat)
    (results : list (pencil * list (remapped Q))) (k : nat) :
  Qsum (incrementAt k <$> emitResults pop results)
  == Qsum ((fun pr => remoteGain pr.1 (pr.2 !! k)) <$> results).
Proof.
  unfold emitResults.
  induction results as [|[p rs] results IH]; [reflexivity|].
  rewrite !fmap_cons. cbn [concat fst snd].
  rewrite fmap_app, Qsum_app, Qsum_cons, IH, emitPencil_sum. reflexivity.
Qed.

(** Per pencil and sample: what the cells of the pencil lose is what the
    cells beyond its ends gain, what is emitted and what is handed to the
    boundary. *)
Lemma pencil_balance (st : storage) (pop : nat) (p : pencil)
    (rs : list (remapped Q)) (k : nat) :
  goodSamples st pop p 0 rs ->
  replaced p st pop k (rs !! k)
  == localGain p (rs !! k) + remoteGain p (rs !! k) + boundaryLoss p (rs !! k)
  /\ 0 <= boundaryLoss p (rs !! k)
  /\ (closedPencil p -> boundaryLoss p (rs !! k) == 0).
Proof.
  intros Hgood. destruct (rs !! k) as [r|] eqn:Hk.
  - destruct (goodSamples_lookup _ _ _ _ _ _ _ Hgood Hk)
      as (_ & Hsum & Hlo & Hhi & Hper & _).
    cbn [Nat.add] in Hsum.
    cbn [replaced localGain remoteGain boundaryLoss].
    pose proof (end_parts (lowEnd p) (lowOut r)).
    pose proof (end_parts (highEnd p) (highOut r)).
    split; [lra|]. split.
    + destruct (lowEnd p), (highEnd p); simpl; lra.
    + intros [Hp|[Hl Hh]].
      * destruct (Hper Hp) as [-> ->].
        destruct (lowEnd p), (highEnd p); simpl; ring.
      * destruct (lowEnd p), (highEnd p); simpl; try ring; congruence.
  - cbn [replaced localGain remoteGain boundaryLoss].
    split; [ring|]. split; [apply Qle_refl | reflexivity].
Qed.

Lemma Qsum_balance {A : Type} (f g h b : A -> Q) (l : list A) :
  (forall x, x ∈ l -> f x == g x + h x + b x) ->
  Qsum (f <$> l) == Qsum (g <$> l) + Qsum (h <$> l) + Qsum (b <$> l).
Proof.
  induction l as [|x l IH]; intros H.
  - rewrite !fmap_nil, !Qsum_nil. ring.
  - rewrite !fmap_cons, !Qsum_cons.
    rewrite (IH (fun y Hy => H y (list_elem_of_further _ _ _ Hy))).
    pose proof (H x (list_elem_of_here _ _)). lra.
Qed.

Lemma Qsum_fmap_nonneg {A : Type} (f : A -> Q) (l : list A) :
  (forall x, x ∈ l -> 0 <= f x) -> 0 <= Qsum (f <$> l).
Proof.
  intros H. apply Qsum_nonneg, Forall_fmap, Forall_forall. exact H.
Qed.

Lemma Qsum_fmap_zero {A : Type} (f : A -> Q) (l : list A) :
  (forall x, x ∈ l -> f x == 0) -> Qsum (f <$> l) == 0.
Proof.
  induction l as [|x l IH]; intros H; [reflexivity|].
  rewrite fmap_cons, Qsum_cons.
  rewrite (IH (fun y Hy => H y (list_elem_of_further _ _ _ Hy))).
  pose proof (H x (list_elem_of_here _ _)). lra.
Qed.

Variable velocity : nat -> nat -> list Q.


End PassValid.
End Remap.

(** ** Part II on concrete pencils *)

Module RemapExamples.
Import Remap.
Local Open Scope Q_scope.

Ltac in_list := repeat first [apply list_elem_of_here | apply list_elem_of_further].

Ltac by_cases_in H :=
  repeat (apply elem_of_cons in H as [->|H]);
  [.. | apply elem_of_nil in H; contradiction].

Ltac absurd_in H :=
  repeat (apply elem_of_cons in H as [H|H]; [discriminate H|]);
  apply elem_of_nil in H; contradiction.

Ltac nodup_list :=
  repeat (apply NoDup_cons_2; [intros Hin; absurd_in Hin|]);
  apply NoDup_nil_2.

(** Two pencils of unit cells in a row: below the first the boundary of the
    domain, the second follows the first, and beyond the second lies a cell
    of process 1.  Two velocity samples, one along the axis and one against
    it. *)
Definition lowPencil : @pencil Q :=
  {| cells := [1; 2; 3; 4]%Z; isPeriodic := false; cellWidth := 1;
     lowEnd := NoCell; highEnd := LocalCell 5%Z |}.
Definition highPencil : @pencil Q :=
  {| cells := [5; 6; 7]%Z; isPeriodic := false; cellWidth := 1;
     lowEnd := LocalCell 4%Z; highEnd := RemoteCell 8%Z 1 |}.
Definition twoSamples : nat -> nat -> list Q := fun _ _ => [1 # 2; - (1 # 4)].
Definition rampStorage : @storage Q := fun _ c _ => inject_Z (Z.abs c).

Lemma rampStorage_nonneg (c : CellID) (k : nat) : 0 <= rampStorage 0%nat c k.
Proof.
  unfold rampStorage. change 0 with (inject_Z 0). rewrite <- Zle_Qle. lia.
Qed.

Lemma twoPencils_disjoint : disjointPencils [lowPencil; highPencil].
Proof.
  cbn [disjointPencils]. split; [cbn [cells lowPencil]; nodup_list|]. split.
  - intros q c Hq Hc Hc'. apply list_elem_of_singleton in Hq as ->.
    cbn [cells lowPencil highPencil] in Hc, Hc'.
    by_cases_in Hc; absurd_in Hc'.
  - split; [cbn [cells highPencil]; nodup_list|]. split; [|exact I].
    intros q c Hq. apply elem_of_nil in Hq. contradiction.
Qed.

Lemma twoPencils_within :
  Forall (withinCfl 1 (twoSamples 0 0)) [lowPencil; highPencil].
Proof.
  repeat constructor; vm_compute; reflexivity.
Qed.

Lemma twoPencils_dom (p : pencil) (c : CellID) :
  p ∈ [lowPencil; highPencil] ->
  c ∈ cells p \/ lowEnd p = LocalCell c \/ highEnd p = LocalCell c ->
  c ∈ [1; 2; 3; 4; 5; 6; 7]%Z.
Proof.
  intros Hp Hc. by_cases_in Hp;
    cbn [cells lowEnd highEnd lowPencil highPencil] in Hc;
    destruct Hc as [Hc|[Hc|Hc]]; try discriminate;
    try (injection Hc as <-; in_list);
    by_cases_in Hc; in_list.
Qed.


(** What the pass above stores and emits for the first sample, which moves
    half a cell up: the total of 28 before the pass is found again as 195/8
    in the seven cells and 29/8 emitted for cell 8; nothing leaves through
    the boundary below.  The second pencil's first cell receives from the
    first pencil, so the values rise across the junction as they do inside
    the pencils. *)
Example twoPencils_run :
  match trans_map_1d_amr minmod twoSamples [lowPencil; highPencil] 0 1 0
          rampStorage with
  | (ok, st', rcs) =>
      ok = true /\
      (fun c => Qred (st' 0%nat c 0%nat)) <$> [1; 2; 3; 4; 5; 6; 7]%Z
      = [1 # 2; 11 # 8; 5 # 2; 7 # 2; 9 # 2; 11 # 2; 13 # 2] /\
      (fun rc => (rcTarget rc, rcOwner rc, Qred <$> rcIncrements rc)) <$> rcs
      = [(8%Z, 1%nat, [29 # 8; 0])]
  end.
Proof. vm_compute. auto. Qed.

(** The order of the pencils does not matter to what is stored. *)
Example twoPencils_run_swapped :
  match trans_map_1d_amr minmod twoSamples [highPencil; lowPencil] 0 1 0
          rampStorage with
  | (ok, st', rcs) =>
      ok = true /\
      (fun c => Qred (st' 0%nat c 0%nat)) <$> [1; 2; 3; 4; 5; 6; 7]%Z
      = [1 # 2; 11 # 8; 5 # 2; 7 # 2; 9 # 2; 11 # 2; 13 # 2]
  end.
Proof. vm_compute. auto. Qed.

(** The seven cells as one pencil give the same values: cutting a row of
    cells into pencils changes nothing for a displacement within one
    cell. *)
Definition longPencil : @pencil Q :=
  {| cells := [1; 2; 3; 4; 5; 6; 7]%Z; isPeriodic := false; cellWidth := 1;
     lowEnd := NoCell; highEnd := RemoteCell 8%Z 1 |}.

Example longPencil_run :
  match trans_map_1d_amr minmod twoSamples [longPencil] 0 1 0 rampStorage with
  | (ok, st', rcs) =>
      ok = true /\
      (fun c => Qred (st' 0%nat c 0%nat)) <$> [1; 2; 3; 4; 5; 6; 7]%Z
      = [1 # 2; 11 # 8; 5 # 2; 7 # 2; 9 # 2; 11 # 2; 13 # 2]
  end.
Proof. vm_compute. auto. Qed.

(** C1 fails as stated for the densities the program stores: in binary64
    the pass over one periodic pencil of three cells holding 1, 3 and 2,
    of width 3, for a sample of velocity 1 and [dt = 1] succeeds and emits
    nothing, and the three stored values add up, exactly, to less than 6. *)
Definition threeCellsF : @storage float := fun _ c _ =>
  if (c =? 1)%Z then 1%float
  else if (c =? 2)%Z then 3%float
  else if (c =? 3)%Z then 2%float
  else 0%float.
Definition ringF : @pencil float :=
  {| cells := [1; 2; 3]%Z; isPeriodic := true; cellWidth := 3%float;
     lowEnd := NoCell; highEnd := NoCell |}.
Definition oneSampleF : nat -> nat -> list float := fun _ _ => [1%float].

Definition exactTotal (dom : list CellID) (st : @storage float) (pop k : nat)
    : Q :=
  Qsum ((fun c => exactValue (st pop c k)) <$> dom).


(** The same pass in exact arithmetic keeps the 6. *)
Example exact_pass_keeps_the_total :
  match trans_map_1d_amr minmod (fun _ _ => [1])
          [{| cells := [1; 2; 3]%Z; isPeriodic := true; cellWidth := 3;
              lowEnd := NoCell; highEnd := NoCell |}] 0 1 0
          (fun _ c _ => if (c =? 1)%Z then 1 else if (c =? 2)%Z then 3
                        else if (c =? 3)%Z then 2 else 0) with
  | (ok, st', rcs) =>
      ok = true /\ rcs = [] /\
      (fun c => Qred (st' 0%nat c 0%nat)) <$> [1; 2; 3]%Z
      = [11 # 9; 7 # 3; 22 # 9]
  end.
Proof. vm_compute. auto. Qed.


(** The check at work on seven cells: a displacement of three and a half
    cells fails, one of just under that passes. *)
Example cfl_at_the_bound :
  propagatePencil minmod false None None [0; 0; 0; 10; 0; 0; 0] (7 # 2) 1 1
  = Fatal CflViolation /\
  exists r,
    propagatePencil minmod false None None [0; 0; 0; 10; 0; 0; 0] (34 # 10) 1 1
    = Done r /\
    Qred <$> inside r = [0; 0; 0; 0; 0; 0; 6] /\ Qred (highOut r) = 4.
Proof.
  split; [vm_compute; reflexivity|].
  eexists. split; [vm_compute; reflexivity|]. split; vm_compute; reflexivity.
Qed.

Lemma remap_monotone_inside_witness :
  limited minmod /\
  exists r,
    propagatePencil minmod false None None ([4] ++ [3; 2; 1] ++ [0]) (1 # 2) 1 1
    = Done r /\
    ((nondecreasing ([4] ++ [3; 2; 1] ++ [0]) ->
      forall j a b,
        fedFromInside (Qfloor (displacement (1 # 2) 1 1))
          (length ([4] ++ [3; 2; 1] ++ [0])) j ->
        inside r !! j = Some a -> inside r !! S j = Some b -> a <= b) /\
     (nonincreasing ([4] ++ [3; 2; 1] ++ [0]) ->
      forall j a b,
        fedFromInside (Qfloor (displacement (1 # 2) 1 1))
          (length ([4] ++ [3; 2; 1] ++ [0])) j ->
        inside r !! j = Some a -> inside r !! S j = Some b -> b <= a)) /\
    ((- Z.of_nat (length [0%Q]) <= Qfloor (displacement (1 # 2)%Q 1%Q 1%Q)
      < Z.of_nat (length [4%Q]))%Z ->
     (nondecreasing ([4] ++ [3; 2; 1] ++ [0]) ->
      nondecreasing (bodyOf [4] [3; 2; 1] r)) /\
     (nonincreasing ([4] ++ [3; 2; 1] ++ [0]) ->
      nonincreasing (bodyOf [4] [3; 2; 1] r))).
Proof.
  split; [exact minmod_limited|].
  eexists. split; [vm_compute; reflexivity|].
  apply (remap_monotone_inside minmod minmod_limited false None None
           [4] [3; 2; 1] [0] (1 # 2) 1 1).
  vm_compute; reflexivity.
Defined.

(** The pencil [3; 2; 1] remapped with the source cells next to its ends,
    holding 4 and 0: the values of its three cells fall as the input
    does. *)
Example remap_with_source_cells :
  match propagatePencil minmod false None None ([4] ++ [3; 2; 1] ++ [0])
          (1 # 2) 1 1 with
  | Done r => Qred <$> bodyOf [4] [3; 2; 1] r = [29 # 8; 5 # 2; 3 # 2]
  | Fatal _ => False
  end.
Proof. vm_compute. reflexivity. Qed.

Lemma increasing_1_to_6 : increasing [1; 2; 3; 4; 5; 6].
Proof.
  intros i a b Ha Hb.
  do 5 (destruct i as [|i];
        [simpl in Ha, Hb; injection Ha as <-; injection Hb as <-; reflexivity|]).
  destruct i; discriminate.
Qed.

(** C5 fails as stated: the periodic pencil [1; 2; 3; 4; 5; 6] moved by
    exactly one cell, a displacement below half its length, becomes
    [6; 1; 2; 3; 4; 5].  The last cell wraps to the first, and the output is
    monotone in neither direction.  No reconstruction is involved: the
    displacement is a whole number of cells. *)
Lemma remap_not_monotone_across_the_wrap :
  increasing [1; 2; 3; 4; 5; 6] /\
  Qabs (displacement 1 1 1) < halfLength (length [1; 2; 3; 4; 5; 6]) /\
  exists r,
    propagatePencil minmod true None None [1; 2; 3; 4; 5; 6] 1 1 1 = Done r /\
    Qred <$> inside r = [6; 1; 2; 3; 4; 5] /\
    ~ nondecreasing (inside r) /\ ~ nonincreasing (inside r).
Proof.
  split; [exact increasing_1_to_6|]. split; [reflexivity|].
  eexists. split; [vm_compute; reflexivity|].
  split; [vm_compute; reflexivity|].
  split; intros Hmono.
  - specialize (Hmono 0%nat _ _ eq_refl eq_refl).
    vm_compute in Hmono. apply Hmono. reflexivity.
  - specialize (Hmono 1%nat _ _ eq_refl eq_refl).
    vm_compute in Hmono. apply Hmono. reflexivity.
Qed.

(** The same for half a cell: the first cell of the periodic pencil
    [1; 2; 3] receives from the last. *)
Example remap_rises_at_the_wrap :
  exists r,
    propagatePencil minmod true None None [1; 2; 3] (1 # 2) 1 1 = Done r /\
    Qred <$> inside r = [2; 11 # 8; 21 # 8] /\
    ~ nondecreasing (inside r).
Proof.
  eexists. split; [vm_compute; reflexivity|].
  split; [vm_compute; reflexivity|].
  intros Hmono.
  specialize (Hmono 0%nat _ _ eq_refl eq_refl).
  vm_compute in Hmono. apply Hmono. reflexivity.
Qed.

Definition record1 : @RemoteContribution Q :=
  {| rcTarget := 8%Z; rcOwner := 1; rcPopulation := 0; rcIncrements := [1 # 2; 3] |}.
Definition record2 : @RemoteContribution Q :=
  {| rcTarget := 8%Z; rcOwner := 1; rcPopulation := 0; rcIncrements := [1 # 3; 5] |}.
Definition record3 : @RemoteContribution Q :=
  {| rcTarget := 9%Z; rcOwner := 1; rcPopulation := 0; rcIncrements := [7; 1 # 7] |}.


(** The densities the example leaves in the cells 8 and 9. *)
Example accumulation_run :
  match update_remote_mapping_contribution 1 3
          [[record1]; [record2; record3]] (fun _ _ _ => 0) with
  | Done a =>
      Qred (a 0%nat 8%Z 0%nat) = 5 # 6 /\ Qred (a 0%nat 8%Z 1%nat) = 8 /\
      Qred (a 0%nat 9%Z 0%nat) = 7 /\ Qred (a 0%nat 7%Z 0%nat) = 0
  | Fatal _ => False
  end.
Proof. vm_compute. auto. Qed.

(** C7 fails as stated for the densities the program stores: three records
    for one cell carry [2 ^ 53], 1 and 1.  Added in this order to a cell
    holding 0 in binary64 they leave [2 ^ 53], since [2 ^ 53 + 1] rounds back
    to [2 ^ 53]; added with the two small increments first they leave
    [2 ^ 53 + 2]. *)
Definition bigRecord : @RemoteContribution float :=
  {| rcTarget := 8%Z; rcOwner := 1; rcPopulation := 0;
     rcIncrements := [9007199254740992%float] |}.
Definition smallRecord : @RemoteContribution float :=
  {| rcTarget := 8%Z; rcOwner := 1; rcPopulation := 0;
     rcIncrements := [1%float] |}.


End RemapExamples.

Module RemapScenarios.
Import Remap.
Local Open Scope Q_scope.

Definition insideOf (r : result (remapped Q)) : list Q :=
  match r with Done x => map Qred (inside x) | Fatal _ => [] end.

(** Scenario A of the design: seven cells, a displacement of one cell. *)
Example scenario_A :
  insideOf (propagatePencil minmod false None None [0; 0; 0; 10; 0; 0; 0] 1 1 1)
  = [0; 0; 0; 0; 10; 0; 0].
Proof. vm_compute. reflexivity. Qed.

(** Scenario B: a displacement of half a cell. *)
Example scenario_B :
  insideOf (propagatePencil minmod false None None [0; 0; 0; 10; 0; 0; 0]
              (1 # 2) 1 1)
  = [0; 0; 0; 5; 5; 0; 0].
Proof. vm_compute. reflexivity. Qed.

(** A displacement against the axis. *)
Example scenario_backward :
  insideOf (propagatePencil minmod false None None [0; 0; 0; 10; 0; 0; 0]
              (-(1 # 4)) 1 1)
  = [0; 0; (5 # 2); (15 # 2); 0; 0; 0].
Proof. vm_compute. reflexivity. Qed.

(** A periodic pencil: the last cell feeds the first. *)
Example scenario_periodic :
  insideOf (propagatePencil minmod true None None [1; 2; 3] (1 # 2) 1 1)
  = [2; (11 # 8); (21 # 8)].
Proof. vm_compute. reflexivity. Qed.

(** An open pencil with the source cells next to its ends, holding 4 and 0.
    The remap of the pencil moves the content of its own cells: what enters
    its first cell from the cell holding 4 is written by the pass when that
    cell's pencil is remapped, as an increment. *)
Example scenario_open_decreasing :
  insideOf (propagatePencil minmod false (Some 4) (Some 0) [3; 2; 1] (1 # 2) 1 1)
  = [(13 # 8); (5 # 2); (3 # 2)].
Proof. vm_compute. reflexivity. Qed.

(** A reconstruction that overshoots: with a slope of 100 in the middle
    cell more would cross than the cell holds; nothing is left behind, and
    the recovery is counted. *)
Example scenario_overshoot :
  match propagatePencil (fun _ _ => 100) false None None [1; 1; 1] (1 # 2) 1 1 with
  | Done r =>
      Qred <$> inside r = [1 # 2; 1 # 2; 27 # 2] /\ negativeCount r = 1%nat
  | Fatal _ => False
  end.
Proof. vm_compute. auto. Qed.

End RemapScenarios.

(** ** Part I, continued: reading back, partition, errors and invariants *)

Module setOfPencilsMore.
Import setOfPencils setOfPencilsFacts.

Section More.
Context `{U : UnsignedRanges} {R : Type} `{Ops : RealvOps R}.

Ltac ranges := pose proof uintRange_pos; pose proof uintRange_le_cellRange.

Lemma wf_sums (s : t R) :
  wf s -> sumZ (lengthOfPencils s) = Z.of_nat (length (ids s)).
Proof.
  intros [Hc _ _ _]. rewrite <- (cons_sum_lengths s Hc). apply (cons_sum_ids s Hc).
Qed.

(** The read past the end at [pencilId = N], for use below. *)
Lemma getIds_at_N_undefined (s : t R) : wf s -> getIds (N s) s = Undefined.
Proof.
  intros [Hc HN Hsum Hl]. ranges. unfold getIds.
  destruct (Z.ltb_spec (N s) (N s)) as [Hlt|_]; [lia|].
  pose proof (sumLoop_ok (lengthOfPencils s) (Z.to_nat (N s)) 0 0 Hl) as Hloop.
  change (Z.of_nat 0) with 0 in Hloop. rewrite drop_0, !Z.add_0_l in Hloop.
  rewrite Hloop; clear Hloop.
  - simpl. rewrite subscript_None; [reflexivity|].
    rewrite (cons_N_lengths s Hc). lia.
  - rewrite (cons_N_lengths s Hc). lia.
  - lia.
  - rewrite <- (cons_sum_lengths s Hc). lia.
Qed.

(** X1: on a well-formed set [getIds] returns, for [pencilId < N], the
    [lengthOfPencils[pencilId]] entries of [ids] that start at the sum of the
    preceding lengths, and for [pencilId > N] the empty vector. *)
Theorem getIds_in_and_beyond (s : t R) (p : Z) :
  wf s -> 0 <= p ->
  (p < N s ->
   exists cells len,
     getIds p s = Ok cells /\
     lengthOfPencils s !! Z.to_nat p = Some len /\
     Z.of_nat (length cells) = len /\
     cells = take (Z.to_nat len)
               (drop (Z.to_nat (sumZ (take (Z.to_nat p) (lengthOfPencils s))))
                  (ids s))) /\
  (N s < p -> getIds p s = Ok []).
Proof.
  intros Hwf Hp0. split; [|apply getIds_beyond].
  intros Hp.
  destruct (wf_lookup_length s p Hwf (conj Hp0 Hp)) as (len & Hlen & Hu).
  exists (pencilIds s (Z.to_nat p)), len.
  split; [apply getIds_slice; [exact Hwf | lia]|].
  split; [exact Hlen|].
  split.
  - rewrite pencilIds_slice.
    rewrite (slice_length _ _ _ len (wf_lengths_uint s Hwf)); [| |exact Hlen].
    + unfold isUint in Hu. lia.
    + rewrite (wf_sums s Hwf). lia.
  - unfold pencilIds. rewrite Hlen. reflexivity.
Qed.

(** *** [addPencil] *)

Section AddPencil.
Variables (s : t R) (idsIn : list CellID) (xIn yIn : R) (periodicIn : bool)
  (pathIn : list Z).
Hypothesis Hwf : wf s.
Hypothesis HfitN : N s + 1 < uintRange.
Hypothesis HfitS : sumOfLengths s + Z.of_nat (length idsIn) < uintRange.

Let s' : t R := addPencil idsIn xIn yIn periodicIn pathIn s.

Lemma addPencil_length_fits : wrapUint (Z.of_nat (length idsIn)) = Z.of_nat (length idsIn).
Proof.
  destruct Hwf as [_ _ Hs _]. apply wrapUint_small. lia.
Qed.

Lemma addPencil_lengthOfPencils :
  lengthOfPencils s' = lengthOfPencils s ++ [Z.of_nat (length idsIn)].
Proof.
  change (lengthOfPencils s')
    with (lengthOfPencils s ++ [wrapUint (Z.of_nat (length idsIn))]).
  rewrite addPencil_length_fits. reflexivity.
Qed.

Lemma addPencil_N : N s' = N s + 1.
Proof.
  destruct Hwf as [_ HN _ _].
  change (N s') with (wrapUint (N s + 1)). apply wrapUint_small. lia.
Qed.

Lemma addPencil_sumOfLengths :
  sumOfLengths s' = sumOfLengths s + Z.of_nat (length idsIn).
Proof.
  destruct Hwf as [_ _ Hs _].
  change (sumOfLengths s')
    with (wrapUint (sumOfLengths s + Z.of_nat (length idsIn))).
  apply wrapUint_small. lia.
Qed.

Lemma addPencil_wf : wf s'.
Proof.
  pose proof addPencil_N as EN. pose proof addPencil_sumOfLengths as ES.
  pose proof addPencil_lengthOfPencils as EL.
  destruct Hwf as [Hc HN Hs Hl].
  split; [split| | |].
  - rewrite EN, EL, length_app, (cons_N_lengths s Hc). simpl. lia.
  - rewrite EN. change (x s') with (x s ++ [xIn]).
    rewrite length_app, (cons_N_x s Hc). simpl. lia.
  - rewrite EN. change (y s') with (y s ++ [yIn]).
    rewrite length_app, (cons_N_y s Hc). simpl. lia.
  - rewrite EN. change (periodic s') with (periodic s ++ [periodicIn]).
    rewrite length_app, (cons_N_periodic s Hc). simpl. lia.
  - rewrite EN. change (path s') with (path s ++ [pathIn]).
    rewrite length_app, (cons_N_path s Hc). simpl. lia.
  - rewrite ES, EL, sumZ_app, (cons_sum_lengths s Hc). simpl. lia.
  - rewrite ES. change (ids s') with (ids s ++ idsIn).
    rewrite length_app, (cons_sum_ids s Hc). lia.
  - lia.
  - lia.
  - rewrite EL. apply Forall_app. split; [exact Hl|].
    repeat constructor; lia.
Qed.

Lemma addPencil_pencilIds_new : pencilIds s' (length (lengthOfPencils s)) = idsIn.
Proof.
  rewrite pencilIds_slice, addPencil_lengthOfPencils.
  change (ids s') with (ids s ++ idsIn).
  apply slice_app_new; [apply (wf_lengths_uint s Hwf) | apply (wf_sums s Hwf)].
Qed.

Lemma addPencil_pencilIds_old (k : nat) :
  (k < length (lengthOfPencils s))%nat -> pencilIds s' k = pencilIds s k.
Proof.
  intros Hk. rewrite !pencilIds_slice, addPencil_lengthOfPencils.
  change (ids s') with (ids s ++ idsIn).
  apply slice_app_old; [apply (wf_lengths_uint s Hwf) | | exact Hk].
  rewrite (wf_sums s Hwf). lia.
Qed.

End AddPencil.

(** X2: a pencil added to a well-formed set whose counters have room for it
    is read back at index [N] (the old count): [getIds] returns the ids
    passed in, in order, and [periodic] and [path] hold the flag and the
    path passed in.  The positions are left out: [addPencil] takes them as
    [Real] and stores them as [Realv], and the two types are declared
    outside the sources. *)
Theorem addPencil_reads_back (s : t R) (idsIn : list CellID) (xIn yIn : R)
    (periodicIn : bool) (pathIn : list Z) :
  wf s -> N s + 1 < uintRange ->
  sumOfLengths s + Z.of_nat (length idsIn) < uintRange ->
  getIds (N s) (addPencil idsIn xIn yIn periodicIn pathIn s) = Ok idsIn /\
  periodic (addPencil idsIn xIn yIn periodicIn pathIn s) !! Z.to_nat (N s)
  = Some periodicIn /\
  path (addPencil idsIn xIn yIn periodicIn pathIn s) !! Z.to_nat (N s)
  = Some pathIn.
Proof.
  intros Hwf HN HS.
  pose proof (wf_consistent s Hwf) as Hc.
  pose proof (addPencil_wf s idsIn xIn yIn periodicIn pathIn Hwf HN HS) as Hwf'.
  pose proof (addPencil_N s idsIn xIn yIn periodicIn pathIn Hwf HN) as EN.
  split.
  - rewrite (getIds_slice _ (N s) Hwf')
      by (rewrite EN; destruct Hwf as [_ ? _ _]; lia).
    rewrite (cons_N_lengths s Hc), Nat2Z.id.
    f_equal. apply (addPencil_pencilIds_new s idsIn xIn yIn periodicIn pathIn Hwf HS).
  - cbn [addPencil periodic path].
    repeat split; apply list_lookup_middle.
    + rewrite (cons_N_periodic s Hc). lia.
    + rewrite (cons_N_path s Hc). lia.
Qed.

(** X3: under the same conditions [addPencil] keeps the representation
    invariant, raises [N] by one and [sumOfLengths] by the number of ids, and
    leaves every earlier pencil as [getIds], [x], [y], [periodic] and [path]
    show it. *)
Theorem addPencil_frame (s : t R) (idsIn : list CellID) (xIn yIn : R)
    (periodicIn : bool) (pathIn : list Z) :
  wf s -> N s + 1 < uintRange ->
  sumOfLengths s + Z.of_nat (length idsIn) < uintRange ->
  wf (addPencil idsIn xIn yIn periodicIn pathIn s) /\
  N (addPencil idsIn xIn yIn periodicIn pathIn s) = N s + 1 /\
  sumOfLengths (addPencil idsIn xIn yIn periodicIn pathIn s)
  = sumOfLengths s + Z.of_nat (length idsIn) /\
  (forall q, 0 <= q < N s ->
     getIds q (addPencil idsIn xIn yIn periodicIn pathIn s) = getIds q s /\
     x (addPencil idsIn xIn yIn periodicIn pathIn s) !! Z.to_nat q
     = x s !! Z.to_nat q /\
     y (addPencil idsIn xIn yIn periodicIn pathIn s) !! Z.to_nat q
     = y s !! Z.to_nat q /\
     periodic (addPencil idsIn xIn yIn periodicIn pathIn s) !! Z.to_nat q
     = periodic s !! Z.to_nat q /\
     path (addPencil idsIn xIn yIn periodicIn pathIn s) !! Z.to_nat q
     = path s !! Z.to_nat q).
Proof.
  intros Hwf HN HS.
  pose proof (wf_consistent s Hwf) as Hc.
  pose proof (addPencil_wf s idsIn xIn yIn periodicIn pathIn Hwf HN HS) as Hwf'.
  pose proof (addPencil_N s idsIn xIn yIn periodicIn pathIn Hwf HN) as EN.
  split; [exact Hwf'|]. split; [exact EN|].
  split; [apply (addPencil_sumOfLengths s idsIn xIn yIn periodicIn pathIn Hwf HS)|].
  intros q Hq. split.
  - rewrite (getIds_slice _ q Hwf') by (rewrite EN; lia).
    rewrite (getIds_slice s q Hwf Hq). f_equal.
    apply (addPencil_pencilIds_old s idsIn xIn yIn periodicIn pathIn Hwf HS).
    rewrite (cons_N_lengths s Hc) in Hq. lia.
  - cbn [addPencil x y periodic path].
    repeat split; apply lookup_app_l.
    + pose proof (cons_N_x s Hc). lia.
    + pose proof (cons_N_y s Hc). lia.
    + pose proof (cons_N_periodic s Hc). lia.
    + pose proof (cons_N_path s Hc). lia.
Qed.

(** *** The pencils partition [ids] *)

Lemma fmap_seq_ext {B : Type} (f g : nat -> B) (a n : nat) :
  (forall k, (a <= k < a + n)%nat -> f k = g k) ->
  f <$> seq a n = g <$> seq a n.
Proof.
  revert a. induction n as [|n IH]; intros a Hfg; simpl; [reflexivity|].
  rewrite (Hfg a) by lia. f_equal. apply IH. intros k Hk. apply Hfg. lia.
Qed.

(** Laid end to end, the slices of all pencils give back the vector they
    are cut from. *)
Lemma slices_concat (lens : list Z) (cells : list CellID) :
  Forall isUint lens -> sumZ lens = Z.of_nat (length cells) ->
  concat (slice lens cells <$> seq 0 (length lens)) = cells.
Proof.
  revert cells. induction lens as [|a lens IH] using rev_ind;
    intros cells Hl Hsum.
  - simpl in *. destruct cells; [reflexivity | simpl in Hsum; lia].
  - apply Forall_app in Hl as [Hl Ha]. apply Forall_cons in Ha as [Ha _].
    unfold isUint in Ha. rewrite sumZ_app in Hsum. simpl in Hsum.
    pose proof (sumZ_nonneg lens Hl) as Hnn.
    set (m := Z.to_nat (sumZ lens)).
    assert (Hm : (m <= length cells)%nat) by lia.
    rewrite <- (take_drop m cells).
    assert (Hlen1 : length (take m cells) = m) by (rewrite length_take; lia).
    assert (Ha' : a = Z.of_nat (length (drop m cells)))
      by (rewrite length_drop; lia).
    rewrite length_app. simpl length.
    rewrite Nat.add_1_r, seq_S, fmap_app, concat_app. simpl.
    rewrite app_nil_r. f_equal.
    + rewrite (fmap_seq_ext _ (slice lens (take m cells))).
      * apply IH; [exact Hl | lia].
      * intros k Hk. apply slice_app_old; [exact Hl | lia | lia].
    + rewrite Ha'. apply slice_app_new; [exact Hl | lia].
Qed.

(** X4: on a well-formed set the vectors returned by [getIds] for the
    pencils [0], ..., [N - 1], laid end to end, are [ids]: every entry of
    [ids] belongs to exactly one pencil and the pencils follow each other in
    [ids] without gaps. *)
Theorem pencils_partition_ids (s : t R) :
  wf s ->
  exists chunks,
    Forall2 (fun k cells => getIds (Z.of_nat k) s = Ok cells)
      (seq 0 (Z.to_nat (N s))) chunks /\
    concat chunks = ids s.
Proof.
  intros Hwf. pose proof (wf_consistent s Hwf) as Hc.
  exists (pencilIds s <$> seq 0 (Z.to_nat (N s))). split.
  - apply Forall2_fmap_r, Forall_Forall2_diag, Forall_forall.
    intros k Hk. apply elem_of_seq in Hk.
    rewrite (getIds_slice s (Z.of_nat k) Hwf) by lia.
    rewrite Nat2Z.id. reflexivity.
  - rewrite (cons_N_lengths s Hc), Nat2Z.id.
    rewrite (fmap_seq_ext _ (slice (lengthOfPencils s) (ids s)))
      by (intros; apply pencilIds_slice).
    apply slices_concat; [apply (wf_lengths_uint s Hwf) | apply (wf_sums s Hwf)].
Qed.

(** *** [split] outside the pencils, and its invariants *)


(** X6: [split] of pencil [p < N] of a well-formed set whose counters have
    room for three more pencils keeps the representation invariant, raises
    [N] by three and [sumOfLengths] by three times the length of pencil
    [p]. *)
Theorem split_keeps_invariant (s : t R) (p : Z) (dx dy : R) :
  wf s -> 0 <= p < N s ->
  N s + 3 < uintRange ->
  sumOfLengths s + 3 * default 0 (lengthOfPencils s !! Z.to_nat p) < uintRange ->
  exists s',
    split p dx dy s = Ok s' /\
    wf s' /\
    N s' = N s + 3 /\
    sumOfLengths s'
    = sumOfLengths s + 3 * default 0 (lengthOfPencils s !! Z.to_nat p).
Proof.
  intros Hwf Hp HN HS.
  destruct (wf_lookups s p Hwf Hp) as (x0 & y0 & per & pp & Hx & Hy & Hper & Hpp).
  destruct (wf_lookup_length s p Hwf Hp) as (len & Hlen & Hu).
  unfold isUint in Hu.
  rewrite Hlen in HS |- *. cbn [default from_option id] in HS |- *.
  exists (splitResult s (Z.to_nat p) (pencilIds s (Z.to_nat p)) x0 y0 per pp dx dy).
  split; [apply split_ok; assumption|].
  split; [eapply split_wf; eassumption|].
  destruct Hwf as [Hc HN0 HS0 Hl].
  split.
  - rewrite split_N. apply wrapUint_small. lia.
  - rewrite (split_sumOfLengths s p dx dy x0 y0 per pp len);
      [apply wrapUint_small; lia | split; assumption | exact Hlen].
Qed.

(** The paths after a [split] that returns, whatever the set: the path of
    [pencilId] gets the selector 0 and three copies of the old path with the
    selectors 1, 2 and 3 are pushed. *)
Lemma split_path_inv (p : Z) (dx dy : R) (s s' : t R) :
  split p dx dy s = Ok s' ->
  exists pp,
    path s !! Z.to_nat p = Some pp /\
    path s' = ((<[Z.to_nat p := pp ++ [0]]> (path s) ++ [pp ++ [1]])
               ++ [pp ++ [2]]) ++ [pp ++ [3]].
Proof.
  intros Hrun. unfold split in Hrun.
  destruct (getIds p s) as [cells| |]; simpl in Hrun; try discriminate.
  destruct (path s !! Z.to_nat p) as [pp|] eqn:Hpp.
  2: { unfold at_ in Hrun. rewrite Hpp in Hrun. discriminate. }
  rewrite !(at_lookup _ _ _ Hpp) in Hrun. simpl in Hrun.
  destruct (subscript (x s) p) as [x0| |]; simpl in Hrun; try discriminate.
  destruct (subscript (y s) p) as [y0| |]; simpl in Hrun; try discriminate.
  rewrite ?(at_lookup _ _ _ Hpp) in Hrun. simpl in Hrun.
  match type of Hrun with
  | context [addQuadrant p cells Rv_add Rv_add dx dy ?pa ?st] =>
      destruct (addQuadrant p cells Rv_add Rv_add dx dy pa st) as [s1| |] eqn:E1
  end; simpl in Hrun; try discriminate.
  match type of Hrun with
  | context [addQuadrant p cells Rv_sub Rv_sub dx dy ?pa ?st] =>
      destruct (addQuadrant p cells Rv_sub Rv_sub dx dy pa st) as [s2| |] eqn:E2
  end; simpl in Hrun; try discriminate.
  apply addQuadrant_inv in E1 as (x1 & y1 & per1 & ->).
  apply addQuadrant_inv in E2 as (x2 & y2 & per2 & ->).
  apply addQuadrant_inv in Hrun as (x3 & y3 & per3 & ->).
  exists pp. split; reflexivity.
Qed.

(** A path whose selectors all name a quadrant. *)
Definition quadrantPath (pa : list Z) : Prop :=
  Forall (fun sel => 0 <= sel <= 3) pa.

(** X7: whenever [split] returns, on any set, [path] has three more entries,
    every path that was there is still a prefix of the path at its index,
    and if every selector of every path was one of 0, 1, 2, 3 before, the
    same holds after. *)
Theorem split_keeps_selectors (p : Z) (dx dy : R) (s s' : t R) :
  split p dx dy s = Ok s' ->
  length (path s') = (length (path s) + 3)%nat /\
  (forall k pa, path s !! k = Some pa ->
     exists pa', path s' !! k = Some pa' /\ pa `prefix_of` pa') /\
  (Forall quadrantPath (path s) -> Forall quadrantPath (path s')).
Proof.
  intros Hrun. destruct (split_path_inv p dx dy s s' Hrun) as (pp & Hpp & ->).
  split; [rewrite !length_app, length_insert; simpl; lia|].
  split.
  - intros k pa Hk. pose proof (lookup_lt_Some _ _ _ Hk) as Hlt.
    destruct (decide (k = Z.to_nat p)) as [->|Hne].
    + exists (pp ++ [0]). split.
      * do 3 apply lookup_app_l_Some. apply list_lookup_insert_eq, Hlt.
      * assert (pa = pp) by congruence. subst pa. apply prefix_app_r. reflexivity.
    + exists pa. split; [|reflexivity].
      do 3 apply lookup_app_l_Some. rewrite list_lookup_insert_ne by congruence.
      exact Hk.
  - intros Hall.
    assert (Hq : quadrantPath pp)
      by (rewrite Forall_lookup in Hall; exact (Hall _ _ Hpp)).
    assert (Hext : forall sel, 0 <= sel <= 3 -> quadrantPath (pp ++ [sel]))
      by (intros sel Hsel; apply Forall_app; split;
          [exact Hq | repeat constructor; lia]).
    repeat (apply Forall_app; split);
      try (apply Forall_cons; split; [apply Hext; lia | constructor]).
    apply Forall_insert; [exact Hall | apply Hext; lia].
Qed.

(** X8: a set built from the empty one by [addPencil] and [split] that
    holds fewer pencils and fewer ids than [uint] has values satisfies the
    representation invariant, so on it [getIds] returns for every
    [pencilId < N], and [split] returns a set for every [pencilId < N]. *)
Theorem reachable_operations_succeed (s : t R) :
  reachable s ->
  Z.of_nat (length (lengthOfPencils s)) < uintRange ->
  Z.of_nat (length (ids s)) < uintRange ->
  wf s /\
  forall p, 0 <= p < N s ->
    (exists cells, getIds p s = Ok cells) /\
    (forall dx dy, exists s', split p dx dy s = Ok s').
Proof.
  intros Hr HbN Hbi.
  pose proof (reachable_consistent_mod s Hr) as Hcm.
  pose proof (consistent_mod_exact s Hcm HbN Hbi) as Hc.
  assert (Hwf : wf s).
  { split; [exact Hc | | |].
    - rewrite (cons_N_lengths s Hc). lia.
    - rewrite (cons_sum_ids s Hc). lia.
    - apply (cm_lengths_uint s Hcm). }
  split; [exact Hwf|].
  intros p Hp. split.
  - eexists. apply (getIds_slice s p Hwf Hp).
  - intros dx dy.
    destruct (wf_lookups s p Hwf Hp) as (x0 & y0 & per & pp & Hx & Hy & Hper & Hpp).
    eexists. apply (split_ok s p dx dy x0 y0 per pp); assumption.
Qed.


End More.
End setOfPencilsMore.

(** ** Part I, continued, on concrete sets *)

Module setOfPencilsMoreExamples.
Import setOfPencils setOfPencilsFacts setOfPencilsMore setOfPencilsExamples.

#[local] Existing Instance lp64.

Ltac less_by_compute := vm_compute; reflexivity.
Ltac bounds_by_compute := vm_compute; split; [discriminate | reflexivity].

(** The pencil of [onePencil] after [split(0, 4, 4)]. *)
Definition onePencilSplit : t Q :=
  Build 4 8 [2; 2; 2; 2] [7; 8; 7; 8; 7; 8; 7; 8]
    [(-1)%Q; 0%Q; (-2)%Q; 0%Q] [1%Q; 2%Q; 0%Q; 0%Q]
    [false; false; false; false] [[0]; [1]; [2]; [3]].

Lemma getIds_in_and_beyond_witness :
  wf onePencil /\ 0 <= 0 /\
  (0 < N onePencil ->
   exists cells len,
     getIds 0 onePencil = Ok cells /\
     lengthOfPencils onePencil !! Z.to_nat 0 = Some len /\
     Z.of_nat (length cells) = len /\
     cells = take (Z.to_nat len)
               (drop (Z.to_nat (sumZ (take (Z.to_nat 0) (lengthOfPencils onePencil))))
                  (ids onePencil))) /\
  (N onePencil < 0 -> getIds 0 onePencil = Ok []).
Proof.
  split; [exact wf_onePencil|]. split; [lia|].
  apply (getIds_in_and_beyond onePencil 0 wf_onePencil). lia.
Defined.

Lemma addPencil_reads_back_witness :
  wf onePencil /\ N onePencil + 1 < uintRange /\
  sumOfLengths onePencil + Z.of_nat (length [9; 10; 11]) < uintRange /\
  getIds (N onePencil) (addPencil [9; 10; 11] 1%Q 2%Q true [3] onePencil)
  = Ok [9; 10; 11] /\
  periodic (addPencil [9; 10; 11] 1%Q 2%Q true [3] onePencil)
    !! Z.to_nat (N onePencil) = Some true /\
  path (addPencil [9; 10; 11] 1%Q 2%Q true [3] onePencil)
    !! Z.to_nat (N onePencil) = Some [3].
Proof.
  split; [exact wf_onePencil|]. split; [less_by_compute|].
  split; [less_by_compute|].
  apply (addPencil_reads_back onePencil [9; 10; 11] 1%Q 2%Q true [3]
           wf_onePencil); less_by_compute.
Defined.

Lemma addPencil_frame_witness :
  wf onePencil /\ N onePencil + 1 < uintRange /\
  sumOfLengths onePencil + Z.of_nat (length [9; 10; 11]) < uintRange /\
  wf (addPencil [9; 10; 11] 1%Q 2%Q true [3] onePencil) /\
  N (addPencil [9; 10; 11] 1%Q 2%Q true [3] onePencil) = N onePencil + 1 /\
  sumOfLengths (addPencil [9; 10; 11] 1%Q 2%Q true [3] onePencil)
  = sumOfLengths onePencil + Z.of_nat (length [9; 10; 11]) /\
  (forall q, 0 <= q < N onePencil ->
     getIds q (addPencil [9; 10; 11] 1%Q 2%Q true [3] onePencil)
     = getIds q onePencil /\
     x (addPencil [9; 10; 11] 1%Q 2%Q true [3] onePencil) !! Z.to_nat q
     = x onePencil !! Z.to_nat q /\
     y (addPencil [9; 10; 11] 1%Q 2%Q true [3] onePencil) !! Z.to_nat q
     = y onePencil !! Z.to_nat q /\
     periodic (addPencil [9; 10; 11] 1%Q 2%Q true [3] onePencil) !! Z.to_nat q
     = periodic onePencil !! Z.to_nat q /\
     path (addPencil [9; 10; 11] 1%Q 2%Q true [3] onePencil) !! Z.to_nat q
     = path onePencil !! Z.to_nat q).
Proof.
  split; [exact wf_onePencil|]. split; [less_by_compute|].
  split; [less_by_compute|].
  apply (addPencil_frame onePencil [9; 10; 11] 1%Q 2%Q true [3] wf_onePencil);
    less_by_compute.
Defined.

Lemma wf_onePencilSplit : wf onePencilSplit.
Proof.
  split; [split; reflexivity | bounds_by_compute | bounds_by_compute
         | repeat (apply Forall_cons_2; [bounds_by_compute|]); apply Forall_nil_2].
Qed.

Lemma pencils_partition_ids_witness :
  wf onePencilSplit /\
  exists chunks,
    Forall2 (fun k cells => getIds (Z.of_nat k) onePencilSplit = Ok cells)
      (seq 0 (Z.to_nat (N onePencilSplit))) chunks /\
    concat chunks = ids onePencilSplit.
Proof.
  split; [exact wf_onePencilSplit|].
  apply (pencils_partition_ids onePencilSplit wf_onePencilSplit).
Defined.


Lemma split_keeps_invariant_witness :
  wf onePencil /\ 0 <= 0 < N onePencil /\ N onePencil + 3 < uintRange /\
  sumOfLengths onePencil
    + 3 * default 0 (lengthOfPencils onePencil !! Z.to_nat 0) < uintRange /\
  exists s',
    split 0 (4 # 1)%Q (4 # 1)%Q onePencil = Ok s' /\
    wf s' /\
    N s' = N onePencil + 3 /\
    sumOfLengths s'
    = sumOfLengths onePencil
      + 3 * default 0 (lengthOfPencils onePencil !! Z.to_nat 0).
Proof.
  split; [exact wf_onePencil|]. split; [bounds_by_compute|].
  split; [less_by_compute|]. split; [less_by_compute|].
  apply (split_keeps_invariant onePencil 0 (4 # 1)%Q (4 # 1)%Q wf_onePencil);
    [bounds_by_compute | less_by_compute | less_by_compute].
Defined.

Lemma split_onePencil : split 0 (4 # 1)%Q (4 # 1)%Q onePencil = Ok onePencilSplit.
Proof. vm_compute. reflexivity. Qed.

Lemma split_keeps_selectors_witness :
  split 0 (4 # 1)%Q (4 # 1)%Q onePencil = Ok onePencilSplit /\
  length (path onePencilSplit) = (length (path onePencil) + 3)%nat /\
  (forall k pa, path onePencil !! k = Some pa ->
     exists pa', path onePencilSplit !! k = Some pa' /\ pa `prefix_of` pa') /\
  (Forall quadrantPath (path onePencil) ->
   Forall quadrantPath (path onePencilSplit)).
Proof.
  split; [exact split_onePencil|].
  apply (split_keeps_selectors 0 (4 # 1)%Q (4 # 1)%Q onePencil onePencilSplit
           split_onePencil).
Defined.

Lemma reachable_onePencilSplit : reachable onePencilSplit.
Proof.
  apply (reach_split 0 (4 # 1)%Q (4 # 1)%Q onePencil);
    [apply reach_addPencil, reach_empty | exact split_onePencil].
Qed.

Lemma reachable_operations_succeed_witness :
  reachable onePencilSplit /\
  Z.of_nat (length (lengthOfPencils onePencilSplit)) < uintRange /\
  Z.of_nat (length (ids onePencilSplit)) < uintRange /\
  wf onePencilSplit /\
  forall p, 0 <= p < N onePencilSplit ->
    (exists cells, getIds p onePencilSplit = Ok cells) /\
    (forall dx dy, exists s', split p dx dy onePencilSplit = Ok s').
Proof.
  split; [exact reachable_onePencilSplit|]. split; [less_by_compute|].
  split; [less_by_compute|].
  apply (reachable_operations_succeed onePencilSplit reachable_onePencilSplit);
    less_by_compute.
Defined.

End setOfPencilsMoreExamples.
